(** * Party lifecycle and attendance: a shallow embedding of [partyService]

    The service of [src/services/partyService.ts] is a set of request
    handlers over a relational store reached through Prisma.  The store is
    modelled as a record of tables (lists of rows), every handler as a
    computation in a state-and-exception monad over it, and the handlers'
    properties are proved about these computations. *)

From Stdlib Require Import List String Ascii ZArith Lia Bool Arith PeanoNat Sorted.
From Stdlib Require Import DecimalString Permutation.
Import ListNotations.

Local Open Scope string_scope.
Local Open Scope Z_scope.

(** ** Data model *)

Inductive PartyStatus := DRAFT | PLANNED | LIVE | ENDED | CANCELLED.

Definition PartyStatus_eqb (a b : PartyStatus) : bool :=
  match a, b with
  | DRAFT, DRAFT | PLANNED, PLANNED | LIVE, LIVE
  | ENDED, ENDED | CANCELLED, CANCELLED => true
  | _, _ => false
  end.

Inductive Role := host | guest.

(** Row identifiers are [cuid()] strings drawn by the store; they are
    modelled by the value of a counter kept in the store.  User identifiers
    come from outside and stay strings. *)
Definition Id := nat.
Bind Scope nat_scope with Id.

Record PartyEvent := mkPartyEvent {
  id : Id;
  hostId : string;
  title : string;
  description : option string;
  coverImageUrl : option string;
  startsAt : Z;
  endsAt : option Z;
  status : PartyStatus;
  isPrivate : bool;
  accessCode : option string;
  maxAttendees : option Z;
  attendeesCount : Z;
  createdAt : Z
}.

Record PartyAttendee := mkPartyAttendee {
  att_id : Id;
  att_partyId : Id;
  att_userId : string;
  att_role : Role
}.

Record ChatRoom := mkChatRoom {
  room_id : Id;
  room_partyId : Id
}.

Record Tag := mkTag {
  tag_id : Id;
  tag_name : string;
  tag_slug : string;
  usageCount : Z
}.

Record PartyTag := mkPartyTag {
  pt_partyId : Id;
  pt_tagId : Id
}.

(** The coordinates of a venue are floating point numbers that no handler
    inspects; the venue keeps its textual fields. *)
Record VenueInput := mkVenueInput {
  vi_name : string;
  vi_address : option string;
  vi_placeId : option string
}.

Record Venue := mkVenue {
  venue_partyId : Id;
  venue_name : string;
  venue_address : option string;
  venue_placeId : option string
}.

Record Db := mkDb {
  partyEvent : list PartyEvent;
  partyAttendee : list PartyAttendee;
  chatRoom : list ChatRoom;
  tag : list Tag;
  partyTag : list PartyTag;
  venue : list Venue;
  nextId : Id
}.

Definition emptyDb : Db := mkDb [] [] [] [] [] [] 0%nat.

(** ** Errors, and the handler of [middleware/errorHandler.ts] *)

Inductive Error :=
| ZodError
| AppError (message : string) (statusCode : Z)
| PrismaClientKnownRequestError
| OtherError.

(** The status code and the message of the answer. *)
Definition errorHandler (err : Error) : Z * string :=
  match err with
  | ZodError => (400, "Validation error")
  | AppError message statusCode => (statusCode, message)
  | PrismaClientKnownRequestError => (400, "Database error")
  | OtherError => (500, "Internal server error")
  end.

(** ** The monad of request handlers

    A world is the store, the wall clock of the request and a fault
    schedule: the outcome of the write statements still to come, [true]
    for a statement that the store rejects (connection loss and the like).
    An exhausted schedule means no further fault.  Reads are taken to
    succeed. *)

Record World := mkWorld {
  db : Db;
  faults : list bool;
  now : Z
}.

Inductive Result (A : Type) :=
| Ok (a : A)
| Throw (e : Error).
Arguments Ok {A} a.
Arguments Throw {A} e.

Definition M (A : Type) := World -> Result A * World.

Definition ret {A} (a : A) : M A := fun w => (Ok a, w).

Definition throw {A} (e : Error) : M A := fun w => (Throw e, w).

Definition bind {A B} (m : M A) (k : A -> M B) : M B :=
  fun w => match m w with
           | (Ok a, w') => k a w'
           | (Throw e, w') => (Throw e, w')
           end.

Notation "x <- m ;; k" := (bind m (fun x => k))
  (at level 100, m at next level, right associativity).
Notation "m ;;; k" := (bind m (fun _ => k))
  (at level 100, right associativity).

Definition void {A} (m : M A) : M unit := _ <- m ;; ret tt.

Definition throwIf (b : bool) (e : Error) : M unit :=
  if b then throw e else ret tt.

(** A read of the store. *)
Definition query {A} (q : Db -> A) : M A := fun w => (Ok (q (db w)), w).

Definition clock : M Z := fun w => (Ok (now w), w).

(** A write statement: it consults the fault schedule, then runs [op],
    which either violates a constraint (the store is left as it was) or
    yields a value and the new store. *)
Definition statement {A} (op : Db -> Result (A * Db)) : M A :=
  fun w =>
    let run fs :=
      match op (db w) with
      | Ok (a, d) => (Ok a, mkWorld d fs (now w))
      | Throw e => (Throw e, mkWorld (db w) fs (now w))
      end in
    match faults w with
    | true :: fs => (Throw OtherError, mkWorld (db w) fs (now w))
    | false :: fs => run fs
    | [] => run []
    end.

Fixpoint sequence_ (ops : list (M unit)) : M unit :=
  match ops with
  | [] => ret tt
  | op :: rest => op ;;; sequence_ rest
  end.

(** [prisma.$transaction([...])]: all statements take effect, or none. *)
Definition transaction (ops : list (M unit)) : M unit :=
  fun w => match sequence_ ops w with
           | (Ok _, w') => (Ok tt, w')
           | (Throw e, w') => (Throw e, mkWorld (db w) (faults w') (now w'))
           end.

(** ** JavaScript helpers *)

(** Truthiness of a string and of a number. *)
Definition truthy_string (s : string) : bool := negb (s =? "")%string.
Definition truthy_number (n : Z) : bool := negb (n =? 0).

Definition truthy_opt_string (o : option string) : bool :=
  match o with Some s => truthy_string s | None => false end.

Definition truthy_opt_number (o : option Z) : bool :=
  match o with Some n => truthy_number n | None => false end.

(** [a === b] on values that are a string or null/undefined. *)
Definition strict_eq (a b : option string) : bool :=
  match a, b with
  | Some x, Some y => (x =? y)%string
  | None, None => true
  | _, _ => false
  end.

Definition charAt (s : string) (i : nat) : string :=
  match String.get i s with
  | Some c => String c ""
  | None => ""
  end.

(** [s.toLowerCase()] on ASCII strings: the letters A to Z are folded,
    every other character is kept. *)
Definition lower_ascii (c : ascii) : ascii :=
  let n := nat_of_ascii c in
  if ((65 <=? n) && (n <=? 90))%nat then ascii_of_nat (n + 32) else c.

Fixpoint toLowerCase (s : string) : string :=
  match s with
  | "" => ""
  | String c s' => String (lower_ascii c) (toLowerCase s')
  end.

(** The class [\s] on ASCII: tab, line feed, vertical tab, form feed,
    carriage return and space. *)
Definition is_space (c : ascii) : bool :=
  let n := nat_of_ascii c in
  (((9 <=? n) && (n <=? 13)) || (n =? 32))%nat.

(** [s.replace(/\s+/g, '-')]: every maximal run of white space becomes one
    hyphen.  [in_run] tells that the previous character was white space. *)
Fixpoint replace_spaces (in_run : bool) (s : string) : string :=
  match s with
  | "" => ""
  | String c s' =>
      if is_space c
      then if in_run then replace_spaces true s'
           else String "-" (replace_spaces true s')
      else String c (replace_spaces false s')
  end.

(** [contains: search, mode: 'insensitive'] *)
Fixpoint contains (needle hay : string) : bool :=
  String.prefix needle hay ||
  match hay with
  | "" => false
  | String _ hay' => contains needle hay'
  end.

Definition contains_insensitive (needle hay : string) : bool :=
  contains (toLowerCase needle) (toLowerCase hay).

(** ** The Prisma client, table by table

    The unique keys are the ones the handlers look rows up by with
    [findUnique]/[upsert]: [PartyEvent.id], [PartyEvent.accessCode],
    [PartyAttendee.(partyId, userId)], [Tag.slug], [PartyTag.(partyId,
    tagId)] and [Venue.partyId].  A write that would break one of them is
    rejected with a [PrismaClientKnownRequestError]. *)

Definition set_partyEvent (d : Db) (l : list PartyEvent) : Db :=
  mkDb l (partyAttendee d) (chatRoom d) (tag d) (partyTag d) (venue d) (nextId d).

Definition set_partyAttendee (d : Db) (l : list PartyAttendee) : Db :=
  mkDb (partyEvent d) l (chatRoom d) (tag d) (partyTag d) (venue d) (nextId d).

Definition set_chatRoom (d : Db) (l : list ChatRoom) : Db :=
  mkDb (partyEvent d) (partyAttendee d) l (tag d) (partyTag d) (venue d) (nextId d).

Definition set_tag (d : Db) (l : list Tag) : Db :=
  mkDb (partyEvent d) (partyAttendee d) (chatRoom d) l (partyTag d) (venue d) (nextId d).

Definition set_partyTag (d : Db) (l : list PartyTag) : Db :=
  mkDb (partyEvent d) (partyAttendee d) (chatRoom d) (tag d) l (venue d) (nextId d).

Definition set_venue (d : Db) (l : list Venue) : Db :=
  mkDb (partyEvent d) (partyAttendee d) (chatRoom d) (tag d) (partyTag d) l (nextId d).

Definition bump_nextId (d : Db) : Db :=
  mkDb (partyEvent d) (partyAttendee d) (chatRoom d) (tag d) (partyTag d) (venue d)
       (S (nextId d)).

(** A party row together with the relations an [include] clause loads. *)
Record PartyWithIncludes := mkIncl {
  row : PartyEvent;
  inc_venue : option Venue;
  inc_tags : list Tag
}.

Definition tags_of (d : Db) (pid : Id) : list Tag :=
  flat_map
    (fun pt => match find (fun t => (tag_id t =? pt_tagId pt)%nat) (tag d) with
               | Some t => [t]
               | None => []
               end)
    (filter (fun pt => (pt_partyId pt =? pid)%nat) (partyTag d)).

Definition include (d : Db) (p : PartyEvent) : PartyWithIncludes :=
  mkIncl p
    (find (fun v => (venue_partyId v =? id p)%nat) (venue d))
    (tags_of d (id p)).

Definition to_venue (pid : Id) (v : VenueInput) : Venue :=
  mkVenue pid (vi_name v) (vi_address v) (vi_placeId v).

Definition partyEvent_findUnique (pid : Id) : M (option PartyEvent) :=
  query (fun d => find (fun p => (id p =? pid)%nat) (partyEvent d)).

Definition partyEvent_findUnique_accessCode (code : string)
  : M (option PartyWithIncludes) :=
  query (fun d =>
    option_map (include d)
      (find (fun p => strict_eq (accessCode p) (Some code)) (partyEvent d))).

Definition partyEvent_update (pid : Id) (f : PartyEvent -> PartyEvent)
  : M PartyWithIncludes :=
  statement (fun d =>
    match find (fun p => (id p =? pid)%nat) (partyEvent d) with
    | None => Throw PrismaClientKnownRequestError
    | Some p =>
        let d' := set_partyEvent d
                    (map (fun q => if (id q =? pid)%nat then f q else q)
                         (partyEvent d)) in
        Ok (include d' (f p), d')
    end).

Definition increment_attendeesCount (k : Z) (p : PartyEvent) : PartyEvent :=
  mkPartyEvent (id p) (hostId p) (title p) (description p) (coverImageUrl p)
    (startsAt p) (endsAt p) (status p) (isPrivate p) (accessCode p)
    (maxAttendees p) (attendeesCount p + k) (createdAt p).

Definition partyAttendee_findUnique (pid : Id) (uid : string)
  : M (option PartyAttendee) :=
  query (fun d =>
    find (fun a => (att_partyId a =? pid)%nat && (att_userId a =? uid)%string)
         (partyAttendee d)).

Definition partyAttendee_create (pid : Id) (uid : string) (r : Role)
  : M PartyAttendee :=
  statement (fun d =>
    if existsb (fun a => (att_partyId a =? pid)%nat && (att_userId a =? uid)%string)
               (partyAttendee d)
    then Throw PrismaClientKnownRequestError
    else
      let a := mkPartyAttendee (nextId d) pid uid r in
      Ok (a, bump_nextId (set_partyAttendee d (partyAttendee d ++ [a])))).

Definition partyAttendee_delete (aid : Id) : M unit :=
  statement (fun d =>
    if existsb (fun a => (att_id a =? aid)%nat) (partyAttendee d)
    then Ok (tt, set_partyAttendee d
                   (filter (fun a => negb (att_id a =? aid)%nat) (partyAttendee d)))
    else Throw PrismaClientKnownRequestError).

(** [partyAttendee.count({ where: { partyId } })] *)
Definition count_party (pid : Id) (l : list PartyAttendee) : nat :=
  List.length (filter (fun a => (att_partyId a =? pid)%nat) l).

Definition rows_of (d : Db) (pid : Id) : nat :=
  count_party pid (partyAttendee d).

Definition partyAttendee_count (pid : Id) : M nat :=
  query (fun d => rows_of d pid).

Definition chatRoom_create (pid : Id) : M ChatRoom :=
  statement (fun d =>
    let r := mkChatRoom (nextId d) pid in
    Ok (r, bump_nextId (set_chatRoom d (chatRoom d ++ [r])))).

(** The key [partyId_tagId]. *)
Definition has_assoc (pid tid : Id) (pt : PartyTag) : bool :=
  ((pt_partyId pt =? pid)%nat && (pt_tagId pt =? tid)%nat).

Definition partyTag_upsert (pid tid : Id) : M unit :=
  statement (fun d =>
    if existsb (has_assoc pid tid) (partyTag d)
    then Ok (tt, d)
    else Ok (tt, set_partyTag d (partyTag d ++ [mkPartyTag pid tid]))).

Definition venue_upsert (pid : Id) (v : VenueInput) : M unit :=
  statement (fun d =>
    if existsb (fun x => (venue_partyId x =? pid)%nat) (venue d)
    then Ok (tt, set_venue d
                   (map (fun x => if (venue_partyId x =? pid)%nat
                                  then to_venue pid v else x) (venue d)))
    else Ok (tt, set_venue d (venue d ++ [to_venue pid v]))).

(** The [where] object that [listParties] assembles. *)
Inductive StatusCond :=
| StatusEq (s : PartyStatus)
| StatusIn (l : list PartyStatus).

Record Where := mkWhere {
  where_status : option StatusCond;
  where_hostId : option string;
  where_OR : option string;
  where_startsAt_gte : option Z;
  where_isPrivate : option bool
}.

Definition status_matches (c : StatusCond) (s : PartyStatus) : bool :=
  match c with
  | StatusEq s' => PartyStatus_eqb s s'
  | StatusIn l => existsb (PartyStatus_eqb s) l
  end.

Definition matches (wh : Where) (p : PartyEvent) : bool :=
  match where_status wh with Some c => status_matches c (status p) | None => true end
  && match where_hostId wh with Some h => (hostId p =? h)%string | None => true end
  && match where_OR wh with
     | Some s => contains_insensitive s (title p)
                 || match description p with
                    | Some dsc => contains_insensitive s dsc
                    | None => false
                    end
     | None => true
     end
  && match where_startsAt_gte wh with Some t => t <=? startsAt p | None => true end
  && match where_isPrivate wh with Some b => Bool.eqb (isPrivate p) b | None => true end.

(** [orderBy: { startsAt: 'asc' }], as a stable insertion sort.  The query
    names no second key: among parties of equal [startsAt] the store is
    free to choose, and what depends on that choice is stated for pairwise
    distinct start times. *)
Fixpoint insert_by_startsAt (p : PartyEvent) (l : list PartyEvent) : list PartyEvent :=
  match l with
  | [] => [p]
  | q :: l' => if startsAt p <=? startsAt q then p :: l
               else q :: insert_by_startsAt p l'
  end.

Definition orderBy_startsAt_asc (l : list PartyEvent) : list PartyEvent :=
  fold_right insert_by_startsAt [] l.

Definition partyEvent_findMany (wh : Where) (skip take : nat)
  : M (list PartyWithIncludes) :=
  query (fun d =>
    map (include d)
        (firstn take (skipn skip
           (orderBy_startsAt_asc (filter (matches wh) (partyEvent d)))))).

Definition partyEvent_count (wh : Where) : M nat :=
  query (fun d => List.length (filter (matches wh) (partyEvent d))).

(** ** The schema's column defaults

    [prisma/schema.prisma] is not among the sources.  The handlers never
    write [PartyEvent.attendeesCount] on creation nor [Tag.usageCount] on
    the create branch of the tag upsert, so both start at the defaults of
    their columns, which are parameters of the development. *)
Section Schema.

Variable attendeesCountDefault : Z.
Variable usageCountDefault : Z.

Record PartyEventCreate := mkPartyEventCreate {
  pc_hostId : string;
  pc_title : string;
  pc_description : option string;
  pc_coverImageUrl : option string;
  pc_startsAt : Z;
  pc_endsAt : option Z;
  pc_isPrivate : bool;
  pc_accessCode : option string;
  pc_maxAttendees : option Z;
  pc_status : PartyStatus;
  pc_venue : option VenueInput
}.

Definition partyEvent_create (c : PartyEventCreate) : M PartyWithIncludes :=
  t <- clock ;;
  statement (fun d =>
    if match pc_accessCode c with
       | Some code =>
           existsb (fun p => strict_eq (accessCode p) (Some code)) (partyEvent d)
       | None => false
       end
    then Throw PrismaClientKnownRequestError
    else
      let p := mkPartyEvent (nextId d) (pc_hostId c) (pc_title c)
                 (pc_description c) (pc_coverImageUrl c) (pc_startsAt c)
                 (pc_endsAt c) (pc_status c) (pc_isPrivate c) (pc_accessCode c)
                 (pc_maxAttendees c) attendeesCountDefault t in
      let d1 := set_partyEvent d (partyEvent d ++ [p]) in
      let d2 := match pc_venue c with
                | Some v => set_venue d1 (venue d1 ++ [to_venue (nextId d) v])
                | None => d1
                end in
      let d3 := bump_nextId d2 in
      Ok (include d3 p, d3)).

Definition increment_usageCount (t : Tag) : Tag :=
  mkTag (tag_id t) (tag_name t) (tag_slug t) (usageCount t + 1).

Definition tag_upsert (slug name : string) : M Tag :=
  statement (fun d =>
    match find (fun t => (tag_slug t =? slug)%string) (tag d) with
    | Some t =>
        Ok (increment_usageCount t,
            set_tag d
              (map (fun x => if (tag_slug x =? slug)%string
                             then increment_usageCount x else x) (tag d)))
    | None =>
        let t := mkTag (nextId d) name slug usageCountDefault in
        Ok (t, bump_nextId (set_tag d (tag d ++ [t])))
    end).

(** ** Requests and responses *)

Record CreatePartyInput := mkCreatePartyInput {
  ci_title : string;
  ci_description : option string;
  ci_coverImageUrl : option string;
  ci_startsAt : Z;
  ci_endsAt : option Z;
  ci_isPrivate : bool;
  ci_maxAttendees : option Z;
  ci_venue : option VenueInput;
  ci_tags : option (list string)
}.

Record UpdatePartyInput := mkUpdatePartyInput {
  ui_title : option string;
  ui_description : option string;
  ui_coverImageUrl : option string;
  ui_startsAt : option Z;
  ui_endsAt : option Z;
  ui_isPrivate : option bool;
  ui_maxAttendees : option Z;
  ui_status : option PartyStatus;
  ui_venue : option VenueInput
}.

Record ListPartiesInput := mkListPartiesInput {
  page : nat;
  limit : nat;
  li_status : option PartyStatus;
  li_hostId : option string;
  li_search : option string;
  li_upcoming : option bool
}.

(** The host summary of a response is a row of the users table, which
    belongs to another service; the response keeps the host's identifier. *)
Record PartyResponse := mkPartyResponse {
  r_id : Id;
  r_title : string;
  r_description : option string;
  r_coverImageUrl : option string;
  r_startsAt : Z;
  r_endsAt : option Z;
  r_status : PartyStatus;
  r_isPrivate : bool;
  r_accessCode : option string;
  r_maxAttendees : option Z;
  r_attendeesCount : Z;
  r_createdAt : Z;
  r_host : string;
  r_venue : option Venue;
  r_tags : list string
}.

(** ** The service *)

Definition chars : string := "ABCDEFGHIJKLMNOPQRSTUVWXYZ0123456789".

(** [rand i] is the value of [Math.floor(Math.random() * chars.length)] at
    the [i]-th turn of the loop. *)
Definition generateAccessCode (rand : nat -> nat) : string :=
  fold_left (fun code i => code ++ charAt chars (rand i)) (seq 0 6) "".

Definition formatPartyResponse (party : PartyWithIncludes) : PartyResponse :=
  let p := row party in
  mkPartyResponse (id p) (title p) (description p) (coverImageUrl p)
    (startsAt p) (endsAt p) (status p) (isPrivate p)
    (if isPrivate p then accessCode p else None)
    (maxAttendees p) (attendeesCount p) (createdAt p) (hostId p)
    (inc_venue party) (map tag_name (inc_tags party)).

Definition slug_of (name : string) : string :=
  replace_spaces false (toLowerCase name).

Fixpoint attachTags (partyId : Id) (tagNames : list string) : M unit :=
  match tagNames with
  | [] => ret tt
  | name :: rest =>
      let slug := slug_of name in
      t <- tag_upsert slug name ;;
      (partyTag_upsert partyId (tag_id t) ;;;
       attachTags partyId rest)
  end.

Definition createParty (rand : nat -> nat) (hostId : string)
    (data : CreatePartyInput) : M PartyResponse :=
  let accessCode :=
    if ci_isPrivate data then Some (generateAccessCode rand) else None in
  party <- partyEvent_create
             (mkPartyEventCreate hostId (ci_title data) (ci_description data)
                (ci_coverImageUrl data) (ci_startsAt data) (ci_endsAt data)
                (ci_isPrivate data) accessCode (ci_maxAttendees data) PLANNED
                (ci_venue data)) ;;
  (partyAttendee_create (id (row party)) hostId host ;;;
   (chatRoom_create (id (row party)) ;;;
    ((match ci_tags data with
      | Some (t :: ts) => attachTags (id (row party)) (t :: ts)
      | _ => ret tt
      end) ;;;
     ret (formatPartyResponse party)))).

(** The object spread of [updateParty]: a field is written when the patch
    carries it (and, for the fields guarded by [&&], when it is truthy). *)
Definition apply_update (data : UpdatePartyInput) (p : PartyEvent) : PartyEvent :=
  mkPartyEvent (id p) (hostId p)
    (match ui_title data with
     | Some t => if truthy_string t then t else title p
     | None => title p
     end)
    (match ui_description data with
     | Some dsc => Some dsc
     | None => description p
     end)
    (match ui_coverImageUrl data with
     | Some u => if truthy_string u then Some u else coverImageUrl p
     | None => coverImageUrl p
     end)
    (match ui_startsAt data with Some t => t | None => startsAt p end)
    (match ui_endsAt data with Some t => Some t | None => endsAt p end)
    (match ui_status data with Some s => s | None => status p end)
    (match ui_isPrivate data with Some b => b | None => isPrivate p end)
    (accessCode p)
    (match ui_maxAttendees data with
     | Some n => if truthy_number n then Some n else maxAttendees p
     | None => maxAttendees p
     end)
    (attendeesCount p) (createdAt p).

Definition updateParty (partyId : Id) (hostId' : string)
    (data : UpdatePartyInput) : M PartyResponse :=
  party <- partyEvent_findUnique partyId ;;
  match party with
  | None => throw (AppError "Party not found" 404)
  | Some party =>
      throwIf (negb (hostId party =? hostId')%string)
              (AppError "Only the host can update the party" 403) ;;;
      (updatedParty <- partyEvent_update partyId (apply_update data) ;;
       ((match ui_venue data with
         | Some v => venue_upsert partyId v
         | None => ret tt
         end) ;;;
        ret (formatPartyResponse updatedParty)))
  end.

Definition build_where (filters : ListPartiesInput) (today : Z) : Where :=
  let w0 := mkWhere None None None None None in
  let w1 := match li_status filters with
            | Some s => mkWhere (Some (StatusEq s)) (where_hostId w0) (where_OR w0)
                          (where_startsAt_gte w0) (where_isPrivate w0)
            | None => w0
            end in
  let w2 := if truthy_opt_string (li_hostId filters)
            then mkWhere (where_status w1) (li_hostId filters) (where_OR w1)
                   (where_startsAt_gte w1) (where_isPrivate w1)
            else w1 in
  let w3 := if truthy_opt_string (li_search filters)
            then mkWhere (where_status w2) (where_hostId w2) (li_search filters)
                   (where_startsAt_gte w2) (where_isPrivate w2)
            else w2 in
  let w4 := match li_upcoming filters with
            | Some true => mkWhere (Some (StatusIn [PLANNED; LIVE])) (where_hostId w3)
                             (where_OR w3) (Some today) (where_isPrivate w3)
            | _ => w3
            end in
  mkWhere (where_status w4) (where_hostId w4) (where_OR w4)
    (where_startsAt_gte w4) (Some false).

Definition listParties (filters : ListPartiesInput)
  : M (list PartyResponse * nat) :=
  let skip := ((page filters - 1) * limit filters)%nat in
  today <- clock ;;
  let wh := build_where filters today in
  parties <- partyEvent_findMany wh skip (limit filters) ;;
  total <- partyEvent_count wh ;;
  ret (map formatPartyResponse parties, total).

(** The capacity test:
    [party.maxAttendees && party.attendeesCount >= party.maxAttendees]. *)
Definition is_full (party : PartyEvent) : bool :=
  match maxAttendees party with
  | Some m => truthy_number m && (m <=? attendeesCount party)
  | None => false
  end.

(** The test of the access gate:
    [party.isPrivate && (!accessCode || accessCode !== party.accessCode)]. *)
Definition access_denied (party : PartyEvent) (accessCode' : option string) : bool :=
  isPrivate party
  && (negb (truthy_opt_string accessCode')
      || negb (strict_eq accessCode' (accessCode party))).

Definition joinParty (partyId : Id) (userId : string)
    (accessCode' : option string) : M unit :=
  party <- partyEvent_findUnique partyId ;;
  match party with
  | None => throw (AppError "Party not found" 404)
  | Some party =>
      throwIf (access_denied party accessCode')
              (AppError "Invalid access code" 403) ;;;
      (throwIf (is_full party) (AppError "Party is full" 400) ;;;
       (existing <- partyAttendee_findUnique partyId userId ;;
        match existing with
        | Some _ => throw (AppError "Already attending this party" 400)
        | None =>
            transaction
              [ void (partyAttendee_create partyId userId guest);
                void (partyEvent_update partyId (increment_attendeesCount 1)) ]
        end))
  end.

Definition leaveParty (partyId : Id) (userId : string) : M unit :=
  party <- partyEvent_findUnique partyId ;;
  match party with
  | None => throw (AppError "Party not found" 404)
  | Some party =>
      throwIf (hostId party =? userId)%string
              (AppError "Host cannot leave the party" 400) ;;;
      (attendee <- partyAttendee_findUnique partyId userId ;;
       match attendee with
       | None => throw (AppError "Not attending this party" 400)
       | Some attendee =>
           transaction
             [ partyAttendee_delete (att_id attendee);
               void (partyEvent_update partyId (increment_attendeesCount (-1))) ]
       end)
  end.

Definition joinByAccessCode (userId : string) (accessCode' : string)
  : M PartyResponse :=
  party <- partyEvent_findUnique_accessCode accessCode' ;;
  match party with
  | None => throw (AppError "Invalid access code" 404)
  | Some party =>
      throwIf (is_full (row party)) (AppError "Party is full" 400) ;;;
      (existing <- partyAttendee_findUnique (id (row party)) userId ;;
       ((match existing with
         | Some _ => ret tt
         | None =>
             transaction
               [ void (partyAttendee_create (id (row party)) userId guest);
                 void (partyEvent_update (id (row party))
                         (increment_attendeesCount 1)) ]
         end) ;;;
        ret (formatPartyResponse party)))
  end.

(** ** Vocabulary of the properties *)

(** A handler respects a relation between the store before and after when
    every run of it does, whatever its outcome. *)
Definition respects {A} (R : Db -> Db -> Prop) (m : M A) : Prop :=
  forall w r w', m w = (r, w') -> R (db w) (db w').

(** Identifiers in use lie below the counter, and attendee rows have
    distinct identifiers. *)
Record fresh (d : Db) : Prop := mkFresh {
  fresh_party : Forall (fun p => (id p < nextId d)%nat) (partyEvent d);
  fresh_att : Forall (fun a => (att_id a < nextId d)%nat /\
                               (att_partyId a < nextId d)%nat) (partyAttendee d);
  fresh_room : Forall (fun r => (room_partyId r < nextId d)%nat) (chatRoom d);
  att_nodup : NoDup (map att_id (partyAttendee d))
}.

(** The head count of every party is its number of attendee rows, shifted
    by what the column default leaves it at when the host row is inserted. *)
Definition counted (d : Db) : Prop :=
  Forall (fun p => attendeesCount p
                   = Z.of_nat (rows_of d (id p)) + (attendeesCountDefault - 1))
         (partyEvent d).

Definition consistent (d : Db) : Prop := fresh d /\ counted d.

(** The store after a guest row for [(pid, uid)] is inserted and the count
    of [pid] is incremented, and after the row [aid] is deleted and the
    count of [pid] is decremented. *)
Definition db_join (d : Db) (pid : Id) (uid : string) : Db :=
  mkDb (map (fun q => if (id q =? pid)%nat then increment_attendeesCount 1 q else q)
            (partyEvent d))
       (partyAttendee d ++ [mkPartyAttendee (nextId d) pid uid guest])
       (chatRoom d) (tag d) (partyTag d) (venue d) (S (nextId d)).

Definition db_leave (d : Db) (pid aid : Id) : Db :=
  mkDb (map (fun q => if (id q =? pid)%nat then increment_attendeesCount (-1) q else q)
            (partyEvent d))
       (filter (fun a => negb (att_id a =? aid)%nat) (partyAttendee d))
       (chatRoom d) (tag d) (partyTag d) (venue d) (nextId d).

(** Parties, attendees and chat rooms are untouched; identifiers may have
    been drawn. *)
Definition same_roster (d d' : Db) : Prop :=
  partyEvent d' = partyEvent d /\ partyAttendee d' = partyAttendee d /\
  chatRoom d' = chatRoom d /\ (nextId d <= nextId d')%nat.

(** The party rows may be rewritten, but neither their identifiers nor
    their head counts. *)
Definition same_attendance (d d' : Db) : Prop :=
  partyAttendee d' = partyAttendee d /\ chatRoom d' = chatRoom d /\
  nextId d' = nextId d /\
  exists f, (forall q, id (f q) = id q /\ attendeesCount (f q) = attendeesCount q) /\
            partyEvent d' = map f (partyEvent d).

(** The row that [createParty] inserts at time [t]. *)
Definition new_party (d : Db) (t : Z) (rand : nat -> nat) (h : string)
    (data : CreatePartyInput) : PartyEvent :=
  mkPartyEvent (nextId d) h (ci_title data) (ci_description data)
    (ci_coverImageUrl data) (ci_startsAt data) (ci_endsAt data) PLANNED
    (ci_isPrivate data)
    (if ci_isPrivate data then Some (generateAccessCode rand) else None)
    (ci_maxAttendees data) attendeesCountDefault t.

(** The requests that write to the party and attendee tables. *)
Inductive Call :=
| CreateParty (rand : nat -> nat) (hostId : string) (data : CreatePartyInput)
| UpdateParty (partyId : Id) (hostId : string) (data : UpdatePartyInput)
| JoinParty (partyId : Id) (userId : string) (accessCode : option string)
| LeaveParty (partyId : Id) (userId : string)
| JoinByAccessCode (userId : string) (accessCode : string).

Definition call (c : Call) : M unit :=
  match c with
  | CreateParty rand h data => void (createParty rand h data)
  | UpdateParty pid h data => void (updateParty pid h data)
  | JoinParty pid uid code => joinParty pid uid code
  | LeaveParty pid uid => leaveParty pid uid
  | JoinByAccessCode uid code => void (joinByAccessCode uid code)
  end.

(** The world after a sequence of requests every one of which succeeded. *)
Fixpoint run (cs : list Call) (w : World) : option World :=
  match cs with
  | [] => Some w
  | c :: cs' =>
      match call c w with
      | (Ok _, w') => run cs' w'
      | (Throw _, _) => None
      end
  end.





(** The number of association rows between a party and a tag. *)
Definition assoc_count (d : Db) (pid tid : Id) : nat :=
  List.length (filter (has_assoc pid tid) (partyTag d)).

(** The order of a listing. *)
Definition startsAt_le (a b : PartyEvent) : Prop := startsAt a <= startsAt b.

(** ** Concrete parties and worlds

    Their head counts are the ones reached with the column defaults at 1,
    the value that the specification's scenarios give a fresh party's head
    count and a fresh tag's usage counter. *)

(** A sequence of draws; it spells the code AHOV29. *)
Definition rand7 (i : nat) : nat := ((i * 7) mod 36)%nat.

Definition club_input : CreatePartyInput :=
  mkCreatePartyInput "Club night" None None 2000 None true (Some 2) None None.

Definition lounge_input : CreatePartyInput :=
  mkCreatePartyInput "Lounge" None None 3000 None false None None None.

(** A private party of capacity 2, hosted by alice and joined by bob. *)
Definition club : PartyEvent :=
  mkPartyEvent 0 "alice" "Club night" None None 2000 None PLANNED true
    (Some "AHOV29") (Some 2) 2 1000.

Definition club_world : World :=
  mkWorld
    (mkDb [club]
          [mkPartyAttendee 1 0 "alice" host; mkPartyAttendee 3 0 "bob" guest]
          [mkChatRoom 2 0] [] [] [] 4)
    [] 1000.

(** The same party without capacity. *)
Definition hall_input : CreatePartyInput :=
  mkCreatePartyInput "Club night" None None 2000 None true None None None.

Definition hall : PartyEvent :=
  mkPartyEvent 0 "alice" "Club night" None None 2000 None PLANNED true
    (Some "AHOV29") None 2 1000.

Definition hall_world : World :=
  mkWorld
    (mkDb [hall]
          [mkPartyAttendee 1 0 "alice" host; mkPartyAttendee 3 0 "bob" guest]
          [mkChatRoom 2 0] [] [] [] 4)
    [] 1000.

(** A public party without capacity, hosted by alice and joined by bob. *)
Definition lounge : PartyEvent :=
  mkPartyEvent 0 "alice" "Lounge" None None 3000 None PLANNED false None None 2 1000.

Definition lounge_world : World :=
  mkWorld
    (mkDb [lounge]
          [mkPartyAttendee 1 0 "alice" host; mkPartyAttendee 3 0 "bob" guest]
          [mkChatRoom 2 0] [] [] [] 4)
    [] 1000.

(** A patch that carries a status only, and the lounge once ENDED. *)
Definition status_patch (s : PartyStatus) : UpdatePartyInput :=
  mkUpdatePartyInput None None None None None None None (Some s) None.

Definition ended_lounge : PartyEvent :=
  mkPartyEvent 0 "alice" "Lounge" None None 3000 None ENDED false None None 1 1000.

Definition ended_world : World :=
  mkWorld
    (mkDb [ended_lounge] [mkPartyAttendee 1 0 "alice" host] [mkChatRoom 2 0]
          [] [] [] 3)
    [] 1000.

(** The club right after its creation, and the response to its creation. *)
Definition club_created : World :=
  mkWorld
    (mkDb [mkPartyEvent 0 "alice" "Club night" None None 2000 None PLANNED true
             (Some "AHOV29") (Some 2) 1 1000]
          [mkPartyAttendee 1 0 "alice" host] [mkChatRoom 2 0] [] [] [] 3)
    [] 1000.



(** The hall after carol joined by code, and the response carol got. *)
Definition hall_joined : World :=
  mkWorld
    (mkDb [mkPartyEvent 0 "alice" "Club night" None None 2000 None PLANNED true
             (Some "AHOV29") None 3 1000]
          [mkPartyAttendee 1 0 "alice" host; mkPartyAttendee 3 0 "bob" guest;
           mkPartyAttendee 4 0 "carol" guest]
          [mkChatRoom 2 0] [] [] [] 5)
    [] 1000.

Definition hall_response : PartyResponse :=
  mkPartyResponse 0 "Club night" None None 2000 None PLANNED true (Some "AHOV29")
    None 2 1000 "alice" None [].

(** ** More of the party service *)

Definition partyEvent_findUnique_include (pid : Id) : M (option PartyWithIncludes) :=
  query (fun d =>
    option_map (include d) (find (fun p => (id p =? pid)%nat) (partyEvent d))).

(** [userId || ''] *)
Definition or_empty (userId : option string) : string :=
  match userId with
  | Some u => if truthy_string u then u else ""
  | None => ""
  end.

Definition getPartyById (partyId : Id) (userId : option string) : M PartyResponse :=
  party <- partyEvent_findUnique_include partyId ;;
  match party with
  | None => throw (AppError "Party not found" 404)
  | Some party =>
      (if isPrivate (row party)
          && negb (strict_eq (Some (hostId (row party))) userId)
       then
         isAttendee <- partyAttendee_findUnique partyId (or_empty userId) ;;
         match isAttendee with
         | None => throw (AppError "Access denied to private party" 403)
         | Some _ => ret tt
         end
       else ret tt) ;;;
      ret (formatPartyResponse party)
  end.

(** Modelled from the spec: the referential actions of the schema, which is
    not among the sources.  Deleting a party cascades to its attendee rows
    and to its tag associations; the other tables are left as they are. *)
Definition partyEvent_delete (pid : Id) : M unit :=
  statement (fun d =>
    if existsb (fun p => (id p =? pid)%nat) (partyEvent d)
    then Ok (tt,
             mkDb (filter (fun p => negb (id p =? pid)%nat) (partyEvent d))
                  (filter (fun a => negb (att_partyId a =? pid)%nat) (partyAttendee d))
                  (chatRoom d) (tag d)
                  (filter (fun pt => negb (pt_partyId pt =? pid)%nat) (partyTag d))
                  (venue d) (nextId d))
    else Throw PrismaClientKnownRequestError).

Definition deleteParty (partyId : Id) (hostId' : string) : M unit :=
  party <- partyEvent_findUnique partyId ;;
  match party with
  | None => throw (AppError "Party not found" 404)
  | Some party =>
      throwIf (negb (hostId party =? hostId')%string)
              (AppError "Only the host can delete the party" 403) ;;;
      partyEvent_delete partyId
  end.

(** [ui_isPrivate] set, the rest of the patch empty. *)
Definition privacy_patch (b : bool) : UpdatePartyInput :=
  mkUpdatePartyInput None None None None None (Some b) None None None.

(** ** Invariants of the roster *)

Definition is_host_row (pid : Id) (a : PartyAttendee) : bool :=
  (att_partyId a =? pid)%nat && match att_role a with host => true | guest => false end.

(** Every party has exactly one row of role [host], and it is its host's. *)
Definition host_listed (d : Db) : Prop :=
  Forall (fun p => exists a, filter (is_host_row (id p)) (partyAttendee d) = [a] /\
                             att_userId a = hostId p)
         (partyEvent d).

(** The keys [PartyEvent.id] and [PartyAttendee.(partyId, userId)] are keys. *)
Definition keyed (d : Db) : Prop :=
  NoDup (map id (partyEvent d)) /\
  NoDup (map (fun a => (att_partyId a, att_userId a)) (partyAttendee d)).

Definition orderly (d : Db) : Prop := fresh d /\ keyed d /\ host_listed d.

(** No party holds more than its capacity. *)
Definition within_capacity (d : Db) : Prop :=
  Forall (fun p => forall m, maxAttendees p = Some m -> 0 < m -> attendeesCount p <= m)
         (partyEvent d).

(** The venue step of [updateParty]. *)
Definition venue_step (pid : Id) (data : UpdatePartyInput) : M unit :=
  match ui_venue data with
  | Some v => venue_upsert pid v
  | None => ret tt
  end.

(** The fields of a party that no update writes. *)
Definition fixed_fields (p : PartyEvent) : Id * string * option string * Z * Z :=
  (id p, hostId p, accessCode p, attendeesCount p, createdAt p).

(** ** The response envelopes of [utils/apiResponse.ts] *)

(** [Math.ceil(a / b)] on integers, for a positive [b]. *)
Definition ceil_div (a b : Z) : Z := - ((- a) / b).

Record Meta := mkMeta {
  meta_page : nat;
  meta_limit : nat;
  meta_total : nat;
  meta_totalPages : nat
}.

Record SuccessResponse (T : Type) := mkSuccessResponse {
  sr_statusCode : Z;
  sr_data : T;
  sr_message : option string;
  sr_meta : option Meta
}.
Arguments mkSuccessResponse {T} _ _ _ _.
Arguments sr_statusCode {T} _.
Arguments sr_data {T} _.
Arguments sr_message {T} _.
Arguments sr_meta {T} _.

(** The options default to no message, status 200 and no meta; an empty
    message is left out of the envelope. *)
Definition sendSuccess {T} (data : T) (message : option string)
    (statusCode : option Z) (meta : option Meta) : SuccessResponse T :=
  mkSuccessResponse
    (match statusCode with Some c => c | None => 200 end)
    data
    (if truthy_opt_string message then message else None)
    meta.

(** The page count is meaningful for a positive [limit] only: with
    [limit = 0] the source computes an infinity or a NaN. *)
Definition sendPaginated {T} (data : list T) (page limit total : nat)
  : SuccessResponse (list T) :=
  sendSuccess data None None
    (Some (mkMeta page limit total
             (Z.to_nat (ceil_div (Z.of_nat total) (Z.of_nat limit))))).

(** [GET /api/v1/parties], from the parsed query on. *)
Definition route_listParties (filters : ListPartiesInput)
  : M (SuccessResponse (list PartyResponse)) :=
  r <- listParties filters ;;
  ret (sendPaginated (fst r) (page filters) (limit filters) (snd r)).

Definition with_page (f : ListPartiesInput) (k : nat) : ListPartiesInput :=
  mkListPartiesInput k (limit f) (li_status f) (li_hostId f) (li_search f)
    (li_upcoming f).

Definition with_status (f : ListPartiesInput) (s : option PartyStatus)
  : ListPartiesInput :=
  mkListPartiesInput (page f) (limit f) s (li_hostId f) (li_search f)
    (li_upcoming f).

(** The parties that a listing selects, as the store holds them. *)
Definition selected (filters : ListPartiesInput) (w : World) : list PartyEvent :=
  filter (matches (build_where filters (now w))) (partyEvent (db w)).

(** The parties that a listing is about, in the order of the listing. *)
Definition listed (filters : ListPartiesInput) (w : World) : list PartyResponse :=
  map formatPartyResponse
    (map (include (db w))
       (orderBy_startsAt_asc
          (filter (matches (build_where filters (now w))) (partyEvent (db w))))).

(** The data of page [k] of a listing. *)
Definition page_data (filters : ListPartiesInput) (w : World) (k : nat)
  : list PartyResponse :=
  match fst (route_listParties (with_page filters k) w) with
  | Ok r => sr_data r
  | Throw _ => []
  end.

(** Upper-case letters, and strings free of a class of characters. *)
Definition is_upper (c : ascii) : bool :=
  let n := nat_of_ascii c in ((65 <=? n) && (n <=? 90))%nat.

Definition free_of (cls : ascii -> bool) (s : string) : bool :=
  forallb (fun c => negb (cls c)) (list_ascii_of_string s).

(** The strings on which [toLowerCase], [is_space] and [String.length] are
    the [toLowerCase], the class [\s] and the [length] of JavaScript: those
    of ASCII characters.  Outside ASCII the JavaScript operations follow
    Unicode, and the properties of letter case and of white space are
    stated for ASCII strings only. *)
Definition is_ascii (c : ascii) : bool := (nat_of_ascii c <? 128)%nat.

Definition ascii_only (s : string) : bool :=
  forallb is_ascii (list_ascii_of_string s).

(** ** The user service

    The users table is another store than the one of the parties; the
    handlers of [services/userService.ts] are modelled by explicit passing
    of that table.  A row keeps the columns that the handlers select. *)

Record User := mkUser {
  user_id : string;
  user_email : string;
  user_username : string;
  user_firstName : string;
  user_lastName : string;
  user_bio : option string;
  user_avatarUrl : option string;
  user_followersCount : Z;
  user_followingCount : Z;
  user_createdAt : Z
}.

Record UpdateUserInput := mkUpdateUserInput {
  uu_firstName : option string;
  uu_lastName : option string;
  uu_bio : option string;
  uu_avatarUrl : option string
}.

Record CompleteProfileInput := mkCompleteProfileInput {
  cp_username : string;
  cp_firstName : string;
  cp_lastName : string;
  cp_bio : option string;
  cp_avatarUrl : option string
}.

Definition user_findUnique_id (userId : string) (users : list User) : option User :=
  find (fun u => (user_id u =? userId)%string) users.

Definition user_findUnique_username (username : string) (users : list User)
  : option User :=
  find (fun u => (user_username u =? username)%string) users.

(** [prisma.user.update({ where: { id } })]: the record must exist. *)
Definition user_update (userId : string) (f : User -> User) (users : list User)
  : Result User * list User :=
  match user_findUnique_id userId users with
  | None => (Throw PrismaClientKnownRequestError, users)
  | Some u =>
      (Ok (f u), map (fun x => if (user_id x =? userId)%string then f x else x) users)
  end.

Definition getUserById (userId : string) (users : list User) : Result User :=
  match user_findUnique_id userId users with
  | Some u => Ok u
  | None => Throw (AppError "User not found" 404)
  end.

Definition getUserByUsername (username : string) (users : list User) : Result User :=
  match user_findUnique_username username users with
  | Some u => Ok u
  | None => Throw (AppError "User not found" 404)
  end.

(** The data of the update of [updateUser]: a name or an avatar that is
    absent or empty is left out, a [bio] is left out when absent only. *)
Definition profile_patch (data : UpdateUserInput) (u : User) : User :=
  mkUser (user_id u) (user_email u) (user_username u)
    (match uu_firstName data with
     | Some n => if truthy_string n then n else user_firstName u
     | None => user_firstName u
     end)
    (match uu_lastName data with
     | Some n => if truthy_string n then n else user_lastName u
     | None => user_lastName u
     end)
    (match uu_bio data with Some b => Some b | None => user_bio u end)
    (match uu_avatarUrl data with
     | Some a => if truthy_string a then Some a else user_avatarUrl u
     | None => user_avatarUrl u
     end)
    (user_followersCount u) (user_followingCount u) (user_createdAt u).

Definition updateUser (userId : string) (data : UpdateUserInput) (users : list User)
  : Result User * list User :=
  user_update userId (profile_patch data) users.

(** The data of the update of [completeProfile]; a field that is
    [undefined] there is left as it is. *)
Definition complete_patch (data : CompleteProfileInput) (u : User) : User :=
  mkUser (user_id u) (user_email u) (cp_username data)
    (cp_firstName data) (cp_lastName data)
    (match cp_bio data with Some b => Some b | None => user_bio u end)
    (match cp_avatarUrl data with Some a => Some a | None => user_avatarUrl u end)
    (user_followersCount u) (user_followingCount u) (user_createdAt u).

Definition completeProfile (userId : string) (data : CompleteProfileInput)
    (users : list User) : Result User * list User :=
  let existingUser := user_findUnique_username (cp_username data) users in
  if match existingUser with
     | Some e => negb (user_id e =? userId)%string
     | None => false
     end
  then (Throw (AppError "Username already taken" 409), users)
  else user_update userId (complete_patch data) users.

Definition is_digit (c : ascii) : bool :=
  let n := nat_of_ascii c in ((48 <=? n) && (n <=? 57))%nat.

(** The class [[a-zA-Z0-9_]]. *)
Definition is_word_char (c : ascii) : bool :=
  let n := nat_of_ascii c in
  (((48 <=? n) && (n <=? 57)) || ((65 <=? n) && (n <=? 90))
   || ((97 <=? n) && (n <=? 122)) || (n =? 95))%nat.

(** [/^[a-zA-Z0-9_]+$/.test(s)] *)
Definition word_chars_only (s : string) : bool :=
  negb (s =? "")%string && forallb is_word_char (list_ascii_of_string s).

Definition reserved : list string :=
  ["admin"; "root"; "system"; "support"; "help"; "api"; "www"].

Definition includes (l : list string) (s : string) : bool :=
  existsb (fun x => (x =? s)%string) l.

Record Validation := mkValidation {
  valid : bool;
  error : option string
}.

(** [username.length] is [String.length] on ASCII names; a name that is
    not ASCII is refused here and in the source, possibly with another
    message. *)
Definition validateUsername (username : string) : Validation :=
  if (String.length username <? 3)%nat
  then mkValidation false (Some "Username must be at least 3 characters")
  else if (30 <? String.length username)%nat
  then mkValidation false (Some "Username must be at most 30 characters")
  else if negb (word_chars_only username)
  then mkValidation false
         (Some "Username can only contain letters, numbers, and underscores")
  else if includes reserved (toLowerCase username)
  then mkValidation false (Some "This username is reserved")
  else mkValidation true None.

(** [s.replace(/\d+$/, '')]: the string without its final run of digits. *)
Fixpoint strip_trailing_digits (s : string) : string :=
  match s with
  | "" => ""
  | String c s' =>
      match strip_trailing_digits s' with
      | "" => if is_digit c then "" else String c ""
      | r => String c r
      end
  end.

(** The template [`${n}`] of a natural number. *)
Definition decimal (n : nat) : string := NilZero.string_of_uint (Nat.to_uint n).

(** The loop over the candidates: [i] is the turn, [n] the turns left, and
    [rand i] the value of [Math.floor(Math.random() * 1000)] at turn [i]. *)
Fixpoint suggest (baseUsername : string) (rand : nat -> nat) (users : list User)
    (i n : nat) : string :=
  match n with
  | O => ""
  | S n' =>
      let candidateUsername := baseUsername ++ decimal (rand i) in
      match user_findUnique_username candidateUsername users with
      | None => candidateUsername
      | Some _ => suggest baseUsername rand users (S i) n'
      end
  end.

Record Availability := mkAvailability {
  available : bool;
  suggestion : option string
}.

Definition checkUsernameAvailability (username : string) (rand : nat -> nat)
    (users : list User) : Availability :=
  match user_findUnique_username username users with
  | None => mkAvailability true None
  | Some _ =>
      let baseUsername := strip_trailing_digits username in
      let s := suggest baseUsername rand users 1 10 in
      mkAvailability false (if truthy_string s then Some s else None)
  end.

(** [GET /api/v1/users/check-username/:username]: the status and the body
    of the answer, an error message or the data of a success. *)
Record UsernameReport := mkUsernameReport {
  rep_available : bool;
  rep_valid : bool;
  rep_error : option string;
  rep_suggestion : option string
}.

Definition checkUsername (username : option string) (rand : nat -> nat)
    (users : list User) : Z * (string + UsernameReport) :=
  if negb (truthy_opt_string username)
  then (400, inl "Username is required")
  else
    let name := or_empty username in
    let validation := validateUsername name in
    if negb (valid validation)
    then (200, inr (mkUsernameReport false false (error validation) None))
    else
      let result := checkUsernameAvailability name rand users in
      (200, inr (mkUsernameReport (available result) true None
                   (match suggestion result with
                    | Some s => if truthy_string s then Some s else None
                    | None => None
                    end))).

(** ** The rate limiter of [middleware/rateLimiter.ts]

    The table of the limiter is an object keyed by client address; times
    are milliseconds, header values are kept as numbers. *)

Record RateEntry := mkRateEntry {
  rl_count : Z;
  rl_resetTime : Z
}.

Definition RateLimitStore := string -> option RateEntry.

Definition WINDOW_MS : Z := 60 * 1000.
Definition MAX_REQUESTS : Z := 100.

Definition store_set (store : RateLimitStore) (ip : string) (e : RateEntry)
  : RateLimitStore :=
  fun k => if (k =? ip)%string then Some e else store k.

Record RateHeaders := mkRateHeaders {
  h_retryAfter : option Z;
  h_limit : Z;
  h_remaining : Z;
  h_reset : Z
}.

(** What the middleware does with the request: it hands it on, with the
    headers it has set if any, or it answers 429. *)
Inductive Verdict :=
| Next (headers : option RateHeaders)
| TooManyRequests (headers : RateHeaders).

Definition rateLimiter (ip : string) (now' : Z) (store : RateLimitStore)
  : Verdict * RateLimitStore :=
  match store ip with
  | None => (Next None, store_set store ip (mkRateEntry 1 (now' + WINDOW_MS)))
  | Some e =>
      if rl_resetTime e <? now'
      then (Next None, store_set store ip (mkRateEntry 1 (now' + WINDOW_MS)))
      else
        let e' := mkRateEntry (rl_count e + 1) (rl_resetTime e) in
        let store' := store_set store ip e' in
        if MAX_REQUESTS <? rl_count e'
        then
          let retryAfter := ceil_div (rl_resetTime e' - now') 1000 in
          (TooManyRequests
             (mkRateHeaders (Some retryAfter) MAX_REQUESTS 0 (rl_resetTime e')),
           store')
        else
          (Next (Some (mkRateHeaders None MAX_REQUESTS
                         (MAX_REQUESTS - rl_count e') (rl_resetTime e'))),
           store')
  end.

Definition passes (v : Verdict) : bool :=
  match v with Next _ => true | TooManyRequests _ => false end.

(** The requests of one client at the given times, in order: which of them
    pass, and the table after them. *)
Fixpoint serve (ip : string) (times : list Z) (store : RateLimitStore)
  : list bool * RateLimitStore :=
  match times with
  | [] => ([], store)
  | t :: rest =>
      let (v, store') := rateLimiter ip t store in
      let (vs, store'') := serve ip rest store' in
      (passes v :: vs, store'')
  end.

(** ** Concrete requests, users and clients *)

(** A patch that retitles the lounge and gives it a venue. *)
Definition garden : VenueInput := mkVenueInput "Garden" (Some "1 Main St") None.

Definition garden_patch : UpdatePartyInput :=
  mkUpdatePartyInput (Some "Garden lounge") None None (Some 4000) None None
    (Some 5) None (Some garden).

(** A public party with three tag names, two of them of the same slug. *)
Definition tagged_input : CreatePartyInput :=
  mkCreatePartyInput "Lounge" None None 3000 None false None None
    (Some ["Rock"; "ROCK"; "Jazz"]).

(** Three public parties created out of the order of their start times,
    and a listing of everything by pages of two. *)
Definition party_at (t : Z) : CreatePartyInput :=
  mkCreatePartyInput "Party" None None t None false None None None.

Definition three_parties : list Call :=
  [CreateParty rand7 "alice" (party_at 5000);
   CreateParty rand7 "bob" (party_at 3000);
   CreateParty rand7 "carol" (party_at 4000)].

Definition two_per_page : ListPartiesInput :=
  mkListPartiesInput 1 2 None None None None.

Definition upcoming_filters : ListPartiesInput :=
  mkListPartiesInput 1 10 (Some LIVE) None None (Some true).

(** Two users, and the names that the draws 7, 42, 42, ... make. *)
Definition alice_user : User :=
  mkUser "u1" "alice@example.org" "alice" "Alice" "A" None None 0 0 1000.

Definition bob_user : User :=
  mkUser "u2" "bob@example.org" "bob7" "Bob" "B" None None 0 0 1000.

Definition members : list User := [alice_user; bob_user].

Definition draws (i : nat) : nat := if (i =? 1)%nat then 7%nat else 42%nat.

Definition as_bob7 : CompleteProfileInput :=
  mkCompleteProfileInput "bob7" "Alice" "A" None None.

Definition as_alice_b : CompleteProfileInput :=
  mkCompleteProfileInput "alice_b" "Alice" "B" (Some "hi") None.

(** A request that empties the [bio]. *)
Definition clear_bio : UpdateUserInput := mkUpdateUserInput None None (Some "") None.

(** A client that has used up its window, which ends at 60000. *)
Definition busy_store : RateLimitStore :=
  store_set (fun _ => None) "10.0.0.1" (mkRateEntry 100 60000).

(** * Properties *)

(** ** Reasoning about handlers *)

Lemma bind_inv {A B} (m : M A) (k : A -> M B) w r w' :
  bind m k w = (r, w') ->
  (exists a w1, m w = (Ok a, w1) /\ k a w1 = (r, w')) \/
  (exists e, m w = (Throw e, w') /\ r = Throw e).
Proof.
  unfold bind. destruct (m w) as [[a|e] w1]; intros H.
  - left. eauto.
  - right. inversion H; subst. eauto.
Qed.

Lemma bind_Ok {A B} (m : M A) (k : A -> M B) w b w' :
  bind m k w = (Ok b, w') ->
  exists a w1, m w = (Ok a, w1) /\ k a w1 = (Ok b, w').
Proof.
  intros H. apply bind_inv in H as [H|[e [_ H]]]; [assumption|discriminate].
Qed.

Lemma statement_inv {A} (op : Db -> Result (A * Db)) w r w' :
  statement op w = (r, w') ->
  now w' = now w /\
  match r with
  | Ok a => op (db w) = Ok (a, db w')
  | Throw _ => db w' = db w
  end.
Proof.
  unfold statement.
  destruct (faults w) as [|[|] fs]; destruct (op (db w)) as [[a d]|e];
    intros H; inversion H; subst; simpl; auto.
Qed.

Lemma statement_no_fault {A} (op : Db -> Result (A * Db)) w :
  faults w = [] ->
  statement op w =
    match op (db w) with
    | Ok (a, d) => (Ok a, mkWorld d [] (now w))
    | Throw e => (Throw e, mkWorld (db w) [] (now w))
    end.
Proof. unfold statement. intros ->. reflexivity. Qed.

Section Respects.

Variable R : Db -> Db -> Prop.
Hypothesis R_refl : forall d, R d d.
Hypothesis R_trans : forall a b c, R a b -> R b c -> R a c.

Lemma respects_ret {A} (a : A) : respects R (ret a).
Proof. intros w r w' H. inversion H; subst. apply R_refl. Qed.

Lemma respects_throw {A} (e : Error) : respects R (@throw A e).
Proof. intros w r w' H. inversion H; subst. apply R_refl. Qed.

Lemma respects_query {A} (q : Db -> A) : respects R (query q).
Proof. intros w r w' H. inversion H; subst. apply R_refl. Qed.

Lemma respects_bind {A B} (m : M A) (k : A -> M B) :
  respects R m -> (forall a, respects R (k a)) -> respects R (bind m k).
Proof.
  intros Hm Hk w r w' H. apply bind_inv in H as [(a & w1 & H1 & H2)|(e & H1 & _)].
  - eapply R_trans; [eapply Hm|eapply Hk]; eassumption.
  - eapply Hm; eassumption.
Qed.

Lemma respects_statement {A} (op : Db -> Result (A * Db)) :
  (forall d a d', op d = Ok (a, d') -> R d d') -> respects R (statement op).
Proof.
  intros Hop w r w' H. apply statement_inv in H as [_ H]. destruct r.
  - eapply Hop; eassumption.
  - rewrite H. apply R_refl.
Qed.

End Respects.

(** ** The roster and the head count *)

Lemma count_party_app pid l a :
  count_party pid (l ++ [a])
  = (count_party pid l + (if (att_partyId a =? pid)%nat then 1 else 0))%nat.
Proof.
  unfold count_party. rewrite filter_app, length_app. simpl.
  destruct (att_partyId a =? pid)%nat; reflexivity.
Qed.

Lemma filter_other_ids k (l : list PartyAttendee) :
  ~ In k (map att_id l) ->
  filter (fun x => negb (att_id x =? k)%nat) l = l.
Proof.
  induction l as [|x l IH]; simpl; intros H; [reflexivity|].
  destruct (Nat.eqb_spec (att_id x) k) as [E|E]; simpl.
  - exfalso. apply H. left. exact E.
  - f_equal. apply IH. intros Hin. apply H. right. exact Hin.
Qed.

Lemma count_party_remove pid l a :
  NoDup (map att_id l) -> In a l ->
  (count_party pid (filter (fun x => negb (att_id x =? att_id a)%nat) l)
   + (if (att_partyId a =? pid)%nat then 1 else 0))%nat
  = count_party pid l.
Proof.
  induction l as [|x l IH]; simpl; intros Hnd Hin; [contradiction|].
  inversion Hnd as [|? ? Hx Hl]; subst.
  destruct Hin as [->|Hin].
  - rewrite Nat.eqb_refl. simpl. rewrite (filter_other_ids _ _ Hx).
    unfold count_party. simpl.
    destruct (att_partyId a =? pid)%nat; simpl; lia.
  - destruct (Nat.eqb_spec (att_id x) (att_id a)) as [E|E].
    + exfalso. apply Hx. rewrite E. apply in_map. exact Hin.
    + simpl. specialize (IH Hl Hin). unfold count_party in *. simpl.
      destruct (att_partyId x =? pid)%nat; simpl; lia.
Qed.

Lemma find_In {A} (f : A -> bool) l x : find f l = Some x -> In x l /\ f x = true.
Proof. apply find_some. Qed.

Lemma consistent_empty : consistent emptyDb.
Proof.
  split; [split|]; simpl; try constructor.
Qed.

Lemma consistent_join d pid uid p :
  consistent d ->
  find (fun q => (id q =? pid)%nat) (partyEvent d) = Some p ->
  consistent (db_join d pid uid).
Proof.
  intros [[Hp Ha Hr Hnd] Hc] Hfind.
  apply find_In in Hfind as [Hin Hid]. apply Nat.eqb_eq in Hid.
  assert (Hpid : (pid < nextId d)%nat).
  { rewrite Forall_forall in Hp. specialize (Hp _ Hin). lia. }
  split; [split|]; simpl.
  - rewrite Forall_map. eapply Forall_impl; [|exact Hp]. simpl.
    intros q Hq. destruct (id q =? pid)%nat; simpl; lia.
  - apply Forall_app. split.
    + eapply Forall_impl; [|exact Ha]. simpl. intros a [? ?]. lia.
    + constructor; [simpl; lia|constructor].
  - eapply Forall_impl; [|exact Hr]. simpl. intros r ?. lia.
  - rewrite map_app. simpl. apply NoDup_app; [assumption|repeat constructor; simpl; tauto|].
    intros k Hk [<-|[]]. apply in_map_iff in Hk as (a & Ea & Hina).
    rewrite Forall_forall in Ha. specialize (Ha _ Hina). lia.
  - unfold counted, rows_of in *. simpl. rewrite Forall_map.
    eapply Forall_impl; [|exact Hc]. simpl. intros q Hq.
    rewrite count_party_app. simpl. destruct (Nat.eqb_spec (id q) pid) as [E|E]; simpl.
    + rewrite E, Nat.eqb_refl in *. lia.
    + rewrite (proj2 (Nat.eqb_neq pid (id q))) by congruence. lia.
Qed.

Lemma consistent_leave d pid uid a :
  consistent d ->
  find (fun x => (att_partyId x =? pid)%nat && (att_userId x =? uid)%string)
       (partyAttendee d) = Some a ->
  consistent (db_leave d pid (att_id a)).
Proof.
  intros [[Hp Ha Hr Hnd] Hc] Hfind.
  apply find_In in Hfind as [Hin Hk]. apply andb_true_iff in Hk as [Hk _].
  apply Nat.eqb_eq in Hk.
  split; [split|]; simpl.
  - rewrite Forall_map. eapply Forall_impl; [|exact Hp]. simpl.
    intros q Hq. destruct (id q =? pid)%nat; simpl; lia.
  - apply Forall_forall. intros x Hx. apply filter_In in Hx as [Hx _].
    rewrite Forall_forall in Ha. apply Ha. exact Hx.
  - exact Hr.
  - clear - Hnd. induction (partyAttendee d) as [|x l IH]; simpl in *; [constructor|].
    inversion Hnd; subst. destruct (negb _); simpl; auto.
    constructor; auto. intros Hx. apply H1.
    apply in_map_iff in Hx as (y & Ey & Hy). apply filter_In in Hy as [Hy _].
    rewrite <- Ey. apply in_map. exact Hy.
  - unfold counted, rows_of in *. simpl. rewrite Forall_map.
    eapply Forall_impl; [|exact Hc]. simpl. intros q Hq.
    pose proof (count_party_remove (id q) _ _ Hnd Hin) as Hrm.
    destruct (Nat.eqb_spec (id q) pid) as [E|E]; simpl.
    + rewrite E in *. rewrite Hk, Nat.eqb_refl in Hrm. lia.
    + rewrite Hk in Hrm. rewrite (proj2 (Nat.eqb_neq pid (id q))) in Hrm by congruence.
      lia.
Qed.

(** The two transactions of the attendance handlers. *)
Lemma join_tx_effect pid uid w r w' :
  transaction
    [ void (partyAttendee_create pid uid guest);
      void (partyEvent_update pid (increment_attendeesCount 1)) ] w = (r, w') ->
  match r with
  | Ok _ => db w' = db_join (db w) pid uid /\
            find (fun q => (id q =? pid)%nat) (partyEvent (db w)) <> None
  | Throw _ => db w' = db w
  end.
Proof.
  destruct w as [d fs t].
  unfold transaction, sequence_, void, bind, ret, partyAttendee_create,
    partyEvent_update, statement. simpl.
  destruct fs as [|[|] [|[|] fs]]; simpl;
    try (destruct (existsb _ (partyAttendee d)); simpl);
    try (destruct (find _ (partyEvent d)) eqn:Hf; simpl);
    intros H; inversion H; subst; simpl; auto; split; auto; discriminate.
Qed.

Lemma leave_tx_effect pid aid w r w' :
  transaction
    [ partyAttendee_delete aid;
      void (partyEvent_update pid (increment_attendeesCount (-1))) ] w = (r, w') ->
  match r with
  | Ok _ => db w' = db_leave (db w) pid aid
  | Throw _ => db w' = db w
  end.
Proof.
  destruct w as [d fs t].
  unfold transaction, sequence_, void, bind, ret, partyAttendee_delete,
    partyEvent_update, statement. simpl.
  destruct fs as [|[|] [|[|] fs]]; simpl;
    try (destruct (existsb _ (partyAttendee d)); simpl);
    try (destruct (find _ (partyEvent d)) eqn:Hf; simpl);
    intros H; inversion H; subst; simpl; auto.
Qed.

Lemma join_tx_no_fault pid uid d t p :
  existsb (fun a => (att_partyId a =? pid)%nat && (att_userId a =? uid)%string)
          (partyAttendee d) = false ->
  find (fun q => (id q =? pid)%nat) (partyEvent d) = Some p ->
  transaction
    [ void (partyAttendee_create pid uid guest);
      void (partyEvent_update pid (increment_attendeesCount 1)) ]
    (mkWorld d [] t)
  = (Ok tt, mkWorld (db_join d pid uid) [] t).
Proof.
  intros He Hf.
  unfold transaction, sequence_, void, bind, ret, partyAttendee_create,
    partyEvent_update, statement. simpl. rewrite He. simpl. rewrite Hf. reflexivity.
Qed.

Lemma find_none_existsb {A} (f : A -> bool) l :
  find f l = None -> existsb f l = false.
Proof.
  induction l as [|x l IH]; simpl; [reflexivity|].
  destruct (f x); [discriminate|]. exact IH.
Qed.

(** ** Effects of the attendance handlers *)

Lemma joinParty_effect pid uid code w r w' :
  joinParty pid uid code w = (r, w') ->
  match r with
  | Ok _ => db w' = db_join (db w) pid uid /\
            exists p, find (fun q => (id q =? pid)%nat) (partyEvent (db w)) = Some p
  | Throw _ => db w' = db w
  end.
Proof.
  unfold joinParty, partyEvent_findUnique, partyAttendee_findUnique, query,
    throwIf, throw, ret, bind at 1 2 3 4. simpl.
  destruct (find _ (partyEvent (db w))) as [p|] eqn:Hp.
  2:{ intros H; inversion H; subst; reflexivity. }
  destruct (access_denied p code); simpl.
  { intros H; inversion H; subst; reflexivity. }
  destruct (is_full p); simpl.
  { intros H; inversion H; subst; reflexivity. }
  destruct (find _ (partyAttendee (db w))) eqn:Ha.
  { intros H; inversion H; subst; reflexivity. }
  intros H. apply join_tx_effect in H. destruct r; [|exact H].
  destruct H as [H _]. split; [exact H|]. eauto.
Qed.

Lemma leaveParty_effect pid uid w r w' :
  leaveParty pid uid w = (r, w') ->
  match r with
  | Ok _ => exists a,
      find (fun x => (att_partyId x =? pid)%nat && (att_userId x =? uid)%string)
           (partyAttendee (db w)) = Some a /\
      db w' = db_leave (db w) pid (att_id a)
  | Throw _ => db w' = db w
  end.
Proof.
  unfold leaveParty, partyEvent_findUnique, partyAttendee_findUnique, query,
    throwIf, throw, ret, bind at 1 2 3. simpl.
  destruct (find _ (partyEvent (db w))) as [p|] eqn:Hp.
  2:{ intros H; inversion H; subst; reflexivity. }
  destruct (hostId p =? uid)%string; simpl.
  { intros H; inversion H; subst; reflexivity. }
  destruct (find _ (partyAttendee (db w))) as [a|] eqn:Ha.
  2:{ intros H; inversion H; subst; reflexivity. }
  intros H. apply leave_tx_effect in H. destruct r; [|exact H]. eauto.
Qed.

Lemma joinByAccessCode_effect uid code w r w' :
  joinByAccessCode uid code w = (r, w') ->
  db w' = db w \/
  exists p, In p (partyEvent (db w)) /\ db w' = db_join (db w) (id p) uid.
Proof.
  unfold joinByAccessCode, partyEvent_findUnique_accessCode,
    partyAttendee_findUnique, query, throwIf, throw, ret, bind at 1 2 3. simpl.
  destruct (find _ (partyEvent (db w))) as [p|] eqn:Hp; simpl.
  2:{ intros H; inversion H; subst; auto. }
  destruct (is_full p); simpl.
  { intros H; inversion H; subst; auto. }
  destruct (find _ (partyAttendee (db w))) eqn:Ha.
  { unfold bind, ret. intros H; inversion H; subst; auto. }
  intros H. apply bind_inv in H as [(a & w1 & H1 & H2)|(e & H1 & _)].
  - apply join_tx_effect in H1 as [H1 _]. inversion H2; subst.
    right. exists p. split; [|exact H1]. apply find_In in Hp. tauto.
  - apply join_tx_effect in H1. auto.
Qed.

(** ** Tags and updates leave the roster alone *)

Lemma same_roster_refl d : same_roster d d.
Proof. repeat split; auto. Qed.

Lemma same_roster_trans a b c :
  same_roster a b -> same_roster b c -> same_roster a c.
Proof.
  intros (H1 & H2 & H3 & H4) (K1 & K2 & K3 & K4).
  repeat split; try congruence. lia.
Qed.

Lemma attachTags_same_roster pid names : respects same_roster (attachTags pid names).
Proof.
  pose proof same_roster_refl as Rf. pose proof same_roster_trans as Rt.
  induction names as [|name rest IH]; simpl.
  - apply respects_ret; auto.
  - apply respects_bind; auto.
    + apply respects_statement; auto.
      intros d a d'. destruct (find _ (tag d)); intros H; inversion H; subst;
        repeat split; simpl; auto.
    + intros t. apply respects_bind; auto.
      apply respects_statement; auto.
      intros d a d'. destruct (existsb _ (partyTag d)); intros H; inversion H; subst;
        repeat split; simpl; auto.
Qed.

Lemma same_attendance_refl d : same_attendance d d.
Proof.
  repeat split; auto. exists (fun q => q). split; [auto|]. symmetry. apply map_id.
Qed.

Lemma same_attendance_trans a b c :
  same_attendance a b -> same_attendance b c -> same_attendance a c.
Proof.
  intros (H1 & H2 & H3 & f & Hf & H4) (K1 & K2 & K3 & g & Hg & K4).
  repeat split; try congruence.
  exists (fun q => g (f q)). split.
  - intros q. destruct (Hf q), (Hg (f q)). split; congruence.
  - rewrite K4, H4. apply map_map.
Qed.

Lemma updateParty_same_attendance pid h data :
  respects same_attendance (updateParty pid h data).
Proof.
  pose proof same_attendance_refl as Rf. pose proof same_attendance_trans as Rt.
  unfold updateParty. apply respects_bind; auto.
  { apply respects_query; auto. }
  intros [p|]; [|apply respects_throw; auto].
  apply respects_bind; auto.
  { unfold throwIf. destruct (negb _); [apply respects_throw|apply respects_ret]; auto. }
  intros _. apply respects_bind; auto.
  - apply respects_statement; auto. intros d a d'.
    destruct (find _ (partyEvent d)); intros H; inversion H; subst.
    repeat split; simpl; auto.
    exists (fun q => if (id q =? pid)%nat then apply_update data q else q).
    split; [|reflexivity]. intros q. destruct (id q =? pid)%nat; auto.
  - intros up. apply respects_bind; auto; [|intros _; apply respects_ret; auto].
    destruct (ui_venue data) as [v|]; [|apply respects_ret; auto].
    apply respects_statement; auto. intros d a d'.
    destruct (existsb _ (venue d)); intros H; inversion H; subst;
      repeat split; simpl; auto; exists (fun q => q); (split; [auto|]);
      symmetry; apply map_id.
Qed.

Lemma consistent_same_attendance d d' :
  same_attendance d d' -> consistent d -> consistent d'.
Proof.
  intros (Ha & Hr & Hn & f & Hf & Hp) [[Fp Fa Fr Fnd] Hc].
  split; [split|].
  - rewrite Hp, Hn, Forall_map. eapply Forall_impl; [|exact Fp].
    simpl. intros q. destruct (Hf q) as [-> _]. auto.
  - rewrite Ha, Hn. exact Fa.
  - rewrite Hr, Hn. exact Fr.
  - rewrite Ha. exact Fnd.
  - unfold counted, rows_of in *. rewrite Hp, Ha, Forall_map.
    eapply Forall_impl; [|exact Hc]. simpl. intros q.
    destruct (Hf q) as [-> ->]. auto.
Qed.

(** ** Effect of [createParty] *)

Lemma createParty_effect rand h data w resp w' :
  createParty rand h data w = (Ok resp, w') ->
  partyEvent (db w')
  = (partyEvent (db w) ++ [new_party (db w) (now w) rand h data])%list /\
  partyAttendee (db w')
  = (partyAttendee (db w)
     ++ [mkPartyAttendee (S (nextId (db w))) (nextId (db w)) h host])%list /\
  chatRoom (db w')
  = (chatRoom (db w) ++ [mkChatRoom (S (S (nextId (db w)))) (nextId (db w))])%list /\
  (S (S (S (nextId (db w)))) <= nextId (db w'))%nat /\
  exists v ts,
    resp = formatPartyResponse (mkIncl (new_party (db w) (now w) rand h data) v ts).
Proof.
  unfold createParty. intros H.
  apply bind_Ok in H as (party & w1 & Hc & H).
  unfold partyEvent_create in Hc. apply bind_Ok in Hc as (t & w0 & Ht & Hc).
  inversion Ht; subst t w0; clear Ht.
  apply statement_inv in Hc as [_ Hc].
  destruct (match pc_accessCode _ with Some _ => _ | None => _ end); [discriminate|].
  cbn [pc_hostId pc_title pc_description pc_coverImageUrl pc_startsAt pc_endsAt
       pc_isPrivate pc_accessCode pc_maxAttendees pc_status pc_venue] in Hc.
  fold (new_party (db w) (now w) rand h data) in Hc.
  set (p := new_party (db w) (now w) rand h data) in *.
  injection Hc as Hparty Hd1.
  assert (Hidp : id (row party) = nextId (db w)) by (rewrite <- Hparty; reflexivity).
  rewrite Hidp in H.
  apply bind_Ok in H as (a & w2 & Ha & H).
  apply statement_inv in Ha as [_ Ha].
  destruct (existsb _ (partyAttendee (db w1))); [discriminate|].
  injection Ha as _ Hd2.
  apply bind_Ok in H as (c & w3 & Hr & H).
  apply statement_inv in Hr as [_ Hr].
  injection Hr as _ Hd3.
  apply bind_Ok in H as ([] & w4 & Ht & H).
  assert (Hs : same_roster (db w3) (db w4)).
  { destruct (ci_tags data) as [[|x xs]|].
    - inversion Ht; subst. apply same_roster_refl.
    - eapply attachTags_same_roster; eassumption.
    - inversion Ht; subst. apply same_roster_refl. }
  inversion H; subst resp w'; clear H.
  destruct Hs as (S1 & S2 & S3 & S4).
  rewrite S1, S2, S3, <- Hd3. cbn [partyEvent partyAttendee chatRoom nextId
    set_chatRoom bump_nextId] in *.
  rewrite <- Hd3 in S4. cbn [nextId bump_nextId set_chatRoom] in S4.
  rewrite <- Hd2 in *. cbn [partyEvent partyAttendee chatRoom nextId
    set_partyAttendee bump_nextId] in *.
  rewrite <- Hd1 in *.
  destruct (ci_venue data);
    cbn [partyEvent partyAttendee chatRoom nextId set_partyEvent set_venue
         bump_nextId] in *;
    (repeat split; auto; rewrite <- Hparty; unfold include; eauto).
Qed.

Lemma count_party_fresh pid l :
  Forall (fun a => (att_partyId a < pid)%nat) l -> count_party pid l = 0%nat.
Proof.
  unfold count_party. induction 1 as [|a l Ha _ IH]; simpl; [reflexivity|].
  rewrite (proj2 (Nat.eqb_neq (att_partyId a) pid)) by lia. exact IH.
Qed.

Lemma createParty_consistent rand h data w resp w' :
  createParty rand h data w = (Ok resp, w') ->
  consistent (db w) -> consistent (db w').
Proof.
  intros H [[Fp Fa Fr Fnd] Hc].
  apply createParty_effect in H as (Hp & Ha & Hr & Hn & _).
  split; [split|].
  - rewrite Hp. apply Forall_app. split.
    + eapply Forall_impl; [|exact Fp]. simpl. intros; lia.
    + constructor; [simpl; lia|constructor].
  - rewrite Ha. apply Forall_app. split.
    + eapply Forall_impl; [|exact Fa]. simpl. intros a [? ?]; lia.
    + constructor; [simpl; lia|constructor].
  - rewrite Hr. apply Forall_app. split.
    + eapply Forall_impl; [|exact Fr]. simpl. intros; lia.
    + constructor; [simpl; lia|constructor].
  - rewrite Ha, map_app. simpl.
    apply NoDup_app; [assumption|repeat constructor; simpl; tauto|].
    intros k Hk [<-|[]]. apply in_map_iff in Hk as (a & Ea & Hina).
    rewrite Forall_forall in Fa. specialize (Fa _ Hina). lia.
  - unfold counted, rows_of in *. rewrite Hp, Ha. apply Forall_app. split.
    + rewrite Forall_forall in *. intros q Hq. specialize (Hc _ Hq).
      specialize (Fp _ Hq). simpl in Fp. rewrite count_party_app. simpl.
      rewrite (proj2 (Nat.eqb_neq (nextId (db w)) (id q))) by lia. lia.
    + constructor; [|constructor]. simpl. rewrite count_party_app. simpl.
      rewrite Nat.eqb_refl, count_party_fresh; [lia|].
      eapply Forall_impl; [|exact Fa]. simpl. tauto.
Qed.

(** ** Sequences of requests *)

Lemma void_Ok {A} (m : M A) w w' :
  void m w = (Ok tt, w') -> exists a, m w = (Ok a, w').
Proof.
  unfold void. intros H. apply bind_Ok in H as (a & w1 & H1 & H2).
  inversion H2; subst. eauto.
Qed.

Lemma call_consistent c w w' :
  call c w = (Ok tt, w') -> consistent (db w) -> consistent (db w').
Proof.
  destruct c as [rand h data|pid h data|pid uid code|pid uid|uid code]; simpl; intros H Hc.
  - apply void_Ok in H as [resp H]. eapply createParty_consistent; eassumption.
  - apply void_Ok in H as [resp H].
    eapply consistent_same_attendance; [|exact Hc].
    eapply updateParty_same_attendance; eassumption.
  - apply joinParty_effect in H as [-> [p Hp]]. eapply consistent_join; eassumption.
  - apply leaveParty_effect in H as (a & Ha & ->). eapply consistent_leave; eassumption.
  - apply void_Ok in H as [resp H].
    apply joinByAccessCode_effect in H as [->|(p & Hin & ->)]; [exact Hc|].
    destruct (find (fun q => (id q =? id p)%nat) (partyEvent (db w))) as [q|] eqn:Hq.
    + eapply consistent_join; eassumption.
    + exfalso. eapply find_none in Hq; [|exact Hin]. simpl in Hq.
      rewrite Nat.eqb_refl in Hq. discriminate.
Qed.

Lemma run_consistent cs : forall w w',
  run cs w = Some w' -> consistent (db w) -> consistent (db w').
Proof.
  induction cs as [|c cs IH]; simpl; intros w w' H Hc.
  - inversion H; subst. exact Hc.
  - destruct (call c w) as [[[]|e] w1] eqn:Hcall; [|discriminate].
    eapply IH; [exact H|]. eapply call_consistent; eassumption.
Qed.



(** ** Creation of a private party *)






Lemma filter_fresh_app {A} (f : A -> bool) l x :
  Forall (fun y => f y = false) l -> f x = true -> filter f (l ++ [x]) = [x].
Proof.
  intros Hl Hx. rewrite filter_app. simpl. rewrite Hx.
  replace (filter f l) with (@nil A); [reflexivity|].
  symmetry. induction Hl as [|y l Hy _ IH]; simpl; [reflexivity|].
  rewrite Hy. exact IH.
Qed.

Lemma fresh_empty : fresh emptyDb.
Proof. split; simpl; constructor. Qed.


(** ** Early exits of [joinParty] and [joinByAccessCode] *)

Lemma joinParty_unfold pid uid code w p :
  find (fun q => (id q =? pid)%nat) (partyEvent (db w)) = Some p ->
  joinParty pid uid code w =
    if access_denied p code then (Throw (AppError "Invalid access code" 403), w)
    else if is_full p then (Throw (AppError "Party is full" 400), w)
    else match find (fun x => (att_partyId x =? pid)%nat && (att_userId x =? uid)%string)
                    (partyAttendee (db w)) with
         | Some _ => (Throw (AppError "Already attending this party" 400), w)
         | None =>
             transaction
               [ void (partyAttendee_create pid uid guest);
                 void (partyEvent_update pid (increment_attendeesCount 1)) ] w
         end.
Proof.
  intros Hp.
  unfold joinParty, partyEvent_findUnique, partyAttendee_findUnique, query,
    throwIf, throw, ret, bind at 1 2 3 4. simpl. rewrite Hp.
  destruct (access_denied p code); simpl; [reflexivity|].
  destruct (is_full p); simpl; [reflexivity|].
  destruct (find _ (partyAttendee (db w))); reflexivity.
Qed.

Lemma joinByAccessCode_unfold uid code w p :
  find (fun q => strict_eq (accessCode q) (Some code)) (partyEvent (db w)) = Some p ->
  joinByAccessCode uid code w =
    if is_full p then (Throw (AppError "Party is full" 400), w)
    else match find (fun x => (att_partyId x =? id p)%nat && (att_userId x =? uid)%string)
                    (partyAttendee (db w)) with
         | Some _ => (Ok (formatPartyResponse (include (db w) p)), w)
         | None =>
             match transaction
                     [ void (partyAttendee_create (id p) uid guest);
                       void (partyEvent_update (id p) (increment_attendeesCount 1)) ] w
             with
             | (Ok _, w') => (Ok (formatPartyResponse (include (db w) p)), w')
             | (Throw e, w') => (Throw e, w')
             end
         end.
Proof.
  intros Hp.
  unfold joinByAccessCode, partyEvent_findUnique_accessCode,
    partyAttendee_findUnique, query, throwIf, throw, ret, bind at 1 2 3. simpl.
  rewrite Hp. simpl.
  destruct (is_full p); simpl; [reflexivity|].
  destruct (find _ (partyAttendee (db w))); [reflexivity|].
  unfold bind. destruct (transaction _ w) as [[[]|e] w1]; reflexivity.
Qed.

Lemma join_tx_errors pid uid w e w' :
  transaction
    [ void (partyAttendee_create pid uid guest);
      void (partyEvent_update pid (increment_attendeesCount 1)) ] w = (Throw e, w') ->
  e = PrismaClientKnownRequestError \/ e = OtherError.
Proof.
  destruct w as [d fs t].
  unfold transaction, sequence_, void, bind, ret, partyAttendee_create,
    partyEvent_update, statement. simpl.
  destruct fs as [|[|] [|[|] fs]]; simpl;
    try (destruct (existsb _ (partyAttendee d)); simpl);
    try (destruct (find _ (partyEvent d)) eqn:Hf; simpl);
    intros H; inversion H; subst; auto.
Qed.

(** C3, as the code has it.  When an attendee row exists for (party, user),
    [joinParty] fails and leaves the world as it was.  The error is the
    first that applies of: invalid access code (403), party is full (400),
    already attending (400).  The error handler answers 400 or 403, never
    409. *)
Theorem joinParty_already_attending pid uid code w p a :
  find (fun q => (id q =? pid)%nat) (partyEvent (db w)) = Some p ->
  find (fun x => (att_partyId x =? pid)%nat && (att_userId x =? uid)%string)
       (partyAttendee (db w)) = Some a ->
  exists e,
    joinParty pid uid code w = (Throw e, w) /\
    e = (if access_denied p code then AppError "Invalid access code" 403
         else if is_full p then AppError "Party is full" 400
         else AppError "Already attending this party" 400) /\
    (fst (errorHandler e) = 400 \/ fst (errorHandler e) = 403).
Proof.
  intros Hp Ha. rewrite (joinParty_unfold _ _ _ _ _ Hp), Ha.
  destruct (access_denied p code); [|destruct (is_full p)];
    eexists; (split; [reflexivity|]); split; simpl; auto.
Qed.

(** C4, as the code has it.  For a user who already attends the party of
    the given access code, [joinByAccessCode] leaves the world as it was;
    it returns the party when the party is not full, and fails with
    "Party is full" when it is. *)
Theorem joinByAccessCode_already_attending uid code w p a :
  find (fun q => strict_eq (accessCode q) (Some code)) (partyEvent (db w)) = Some p ->
  find (fun x => (att_partyId x =? id p)%nat && (att_userId x =? uid)%string)
       (partyAttendee (db w)) = Some a ->
  joinByAccessCode uid code w =
    (if is_full p then Throw (AppError "Party is full" 400)
     else Ok (formatPartyResponse (include (db w) p)), w).
Proof.
  intros Hp Ha. rewrite (joinByAccessCode_unfold _ _ _ _ Hp), Ha.
  destruct (is_full p); reflexivity.
Qed.

(** C5, as the code has it.  On a party whose [maxAttendees] is set (to a
    positive number, as the request schemas require) and reached,
    [joinParty] fails and leaves the world as it was; the error is
    "Party is full" (400) when the access gate lets the request through,
    that is for a public party or with the right code, and "Invalid access
    code" (403) otherwise. *)
Theorem joinParty_full pid uid code w p m :
  find (fun q => (id q =? pid)%nat) (partyEvent (db w)) = Some p ->
  maxAttendees p = Some m -> 0 < m -> m <= attendeesCount p ->
  joinParty pid uid code w =
    (Throw (if access_denied p code then AppError "Invalid access code" 403
            else AppError "Party is full" 400), w).
Proof.
  intros Hp Hm Hpos Hle. rewrite (joinParty_unfold _ _ _ _ _ Hp).
  assert (Hfull : is_full p = true).
  { unfold is_full, truthy_number. rewrite Hm.
    apply andb_true_iff. split.
    - apply negb_true_iff, Z.eqb_neq. lia.
    - apply Z.leb_le. exact Hle. }
  rewrite Hfull. destruct (access_denied p code); reflexivity.
Qed.

(** C6.  On a private party whose stored access code is not the empty
    string, [joinParty] passes the access gate exactly when the supplied
    code is the stored one: with that code the request is never answered
    403; with any other string, or none, it fails with "Invalid access
    code" (403) and leaves the world as it was. *)
Theorem joinParty_access_gate pid uid code w p :
  find (fun q => (id q =? pid)%nat) (partyEvent (db w)) = Some p ->
  isPrivate p = true ->
  accessCode p <> Some "" ->
  ((exists c, code = Some c /\ accessCode p = Some c) ->
   forall e, fst (joinParty pid uid code w) = Throw e -> fst (errorHandler e) <> 403) /\
  ((forall c, code = Some c -> accessCode p <> Some c) ->
   joinParty pid uid code w = (Throw (AppError "Invalid access code" 403), w)).
Proof.
  intros Hp Hpriv Hne. rewrite (joinParty_unfold _ _ _ _ _ Hp).
  unfold access_denied. rewrite Hpriv. simpl. split.
  - intros (c & -> & Hc). rewrite Hc. simpl. rewrite String.eqb_refl.
    assert (Htr : truthy_string c = true).
    { unfold truthy_string. apply negb_true_iff, String.eqb_neq.
      intros ->. apply Hne. exact Hc. }
    rewrite Htr. simpl.
    destruct (is_full p); [intros e H; inversion H; subst; simpl; lia|].
    destruct (find _ (partyAttendee (db w)));
      [intros e H; inversion H; subst; simpl; lia|].
    intros e H. destruct (transaction _ w) as [r w1] eqn:Htx. simpl in H. subst r.
    apply join_tx_errors in Htx as [->| ->]; simpl; lia.
  - intros Hdiff. destruct code as [c|]; simpl; [|reflexivity].
    destruct (accessCode p) as [c'|] eqn:Hc; simpl.
    + destruct (String.eqb_spec c c') as [->|Hcc].
      * exfalso. exact (Hdiff c' eq_refl eq_refl).
      * rewrite orb_true_r. reflexivity.
    + rewrite orb_true_r. reflexivity.
Qed.

(** ** Tags *)

Lemma find_map_hit {A} (f : A -> bool) (g : A -> A) l x :
  (forall y, f (g y) = f y) ->
  find f l = Some x ->
  find f (map (fun y => if f y then g y else y) l) = Some (g x).
Proof.
  intros Hg. induction l as [|y l IH]; simpl; [discriminate|].
  destruct (f y) eqn:Hy; simpl.
  - rewrite Hg, Hy. intros H; inversion H; subst. reflexivity.
  - rewrite Hy. exact IH.
Qed.

Lemma find_app_new {A} (f : A -> bool) l x :
  find f l = None -> f x = true -> find f (l ++ [x]) = Some x.
Proof.
  intros Hn Hx. induction l as [|y l IH]; simpl in *.
  - rewrite Hx. reflexivity.
  - destruct (f y); [discriminate|]. apply IH. exact Hn.
Qed.

Lemma existsb_filter_length {A} (f : A -> bool) l :
  existsb f l = negb (List.length (filter f l) =? 0)%nat.
Proof.
  induction l as [|y l IH]; simpl; [reflexivity|].
  destruct (f y); simpl; [reflexivity|exact IH].
Qed.

Lemma attachTags_one pid name w :
  faults w = [] ->
  exists w1 t,
    attachTags pid [name] w = (Ok tt, w1) /\ faults w1 = [] /\
    find (fun x => (tag_slug x =? slug_of name)%string) (tag (db w1)) = Some t /\
    t = match find (fun x => (tag_slug x =? slug_of name)%string) (tag (db w)) with
        | Some t0 => increment_usageCount t0
        | None => mkTag (nextId (db w)) name (slug_of name) usageCountDefault
        end /\
    partyTag (db w1)
    = if existsb (has_assoc pid (tag_id t)) (partyTag (db w))
      then partyTag (db w)
      else (partyTag (db w) ++ [mkPartyTag pid (tag_id t)])%list.
Proof.
  intros Hf. destruct w as [d fs t0]. simpl in Hf. subst fs.
  unfold attachTags, bind, tag_upsert, partyTag_upsert, ret.
  rewrite statement_no_fault by reflexivity. simpl.
  destruct (find _ (tag d)) as [t|] eqn:Ht.
  - rewrite statement_no_fault by reflexivity. simpl.
    destruct (existsb _ (partyTag d)) eqn:He; simpl;
      (do 2 eexists; split; [reflexivity|]; split; [reflexivity|]; simpl;
       split; [apply find_map_hit; [reflexivity|exact Ht]|];
       split; [reflexivity|]; simpl; rewrite He; reflexivity).
  - rewrite statement_no_fault by reflexivity. simpl.
    destruct (existsb _ (partyTag d)) eqn:He; simpl;
      (do 2 eexists; split; [reflexivity|]; split; [reflexivity|]; simpl;
       split; [apply find_app_new; [exact Ht|simpl; apply String.eqb_refl]|];
       split; [reflexivity|]; simpl; rewrite He; reflexivity).
Qed.

(** C7, as the code has it.  In a world without pending fault, attaching
    the same tag name twice to the same party succeeds both times; the
    second attach leaves the association table as it was (and with at most
    one association row before, there is exactly one after), but it
    increments the usage counter of the tag once more. *)
Theorem attachTags_twice pid name w :
  faults w = [] ->
  exists w1 w2 t,
    attachTags pid [name] w = (Ok tt, w1) /\
    attachTags pid [name] w1 = (Ok tt, w2) /\
    find (fun x => (tag_slug x =? slug_of name)%string) (tag (db w1)) = Some t /\
    find (fun x => (tag_slug x =? slug_of name)%string) (tag (db w2))
    = Some (increment_usageCount t) /\
    partyTag (db w2) = partyTag (db w1) /\
    ((assoc_count (db w) pid (tag_id t) <= 1)%nat ->
     assoc_count (db w2) pid (tag_id t) = 1%nat).
Proof.
  intros Hf.
  destruct (attachTags_one pid name w Hf) as (w1 & t & H1 & Hf1 & Ht1 & Et & Hpt1).
  destruct (attachTags_one pid name w1 Hf1) as (w2 & t' & H2 & _ & Ht2 & Et' & Hpt2).
  rewrite Ht1 in Et'. subst t'. simpl in Hpt2.
  assert (He : existsb (has_assoc pid (tag_id t)) (partyTag (db w1)) = true).
  { rewrite Hpt1. destruct (existsb _ (partyTag (db w))) eqn:He; [exact He|].
    rewrite existsb_app. simpl. unfold has_assoc at 2. simpl.
    rewrite !Nat.eqb_refl. simpl. apply orb_true_r. }
  rewrite He in Hpt2.
  exists w1, w2, t. repeat (split; [assumption|]).
  intros Hle. unfold assoc_count in *. rewrite Hpt2, Hpt1.
  rewrite existsb_filter_length.
  destruct (List.length (filter _ (partyTag (db w)))) as [|[|n]] eqn:Hn; simpl.
  - rewrite filter_app, length_app, Hn. simpl. unfold has_assoc. simpl.
    rewrite !Nat.eqb_refl. reflexivity.
  - exact Hn.
  - lia.
Qed.

(** ** Status updates *)

(** C8, as the code has it.  In a world without pending fault, an update
    by the host succeeds and stores the status that the patch carries,
    whatever the current status is, and keeps the current status when the
    patch carries none: no transition is rejected. *)
Theorem updateParty_status pid h data w p :
  faults w = [] ->
  find (fun q => (id q =? pid)%nat) (partyEvent (db w)) = Some p ->
  hostId p = h ->
  exists resp w' p',
    updateParty pid h data w = (Ok resp, w') /\
    r_status resp = match ui_status data with Some s => s | None => status p end /\
    find (fun q => (id q =? pid)%nat) (partyEvent (db w')) = Some p' /\
    status p' = r_status resp.
Proof.
  intros Hf Hp Hh. destruct w as [d fs t]. simpl in *. subst fs.
  assert (Hp' : find (fun q => (id q =? pid)%nat)
                  (map (fun q => if (id q =? pid)%nat then apply_update data q else q)
                       (partyEvent d)) = Some (apply_update data p)).
  { apply find_map_hit; [reflexivity|exact Hp]. }
  unfold updateParty, partyEvent_findUnique, query, bind at 1. simpl. rewrite Hp.
  unfold throwIf, bind at 1. rewrite Hh, String.eqb_refl. simpl.
  unfold bind at 1, partyEvent_update. rewrite statement_no_fault by reflexivity.
  simpl. rewrite Hp.
  destruct (ui_venue data) as [v|].
  - unfold bind, venue_upsert, ret. rewrite statement_no_fault by reflexivity. simpl.
    destruct (existsb _ (venue d)); simpl;
      (do 3 eexists; split; [reflexivity|]; simpl; split; [reflexivity|];
       split; [exact Hp'|reflexivity]).
  - unfold bind, ret. simpl.
    do 3 eexists; split; [reflexivity|]; simpl; split; [reflexivity|].
    split; [exact Hp'|reflexivity].
Qed.

(** ** The party returned by a first join by code *)

Lemma find_by_id_In l (p : PartyEvent) :
  In p l -> exists q, find (fun x => (id x =? id p)%nat) l = Some q.
Proof.
  intros Hin. destruct (find _ l) as [q|] eqn:Hq; [eauto|].
  eapply find_none in Hq; [|exact Hin]. simpl in Hq.
  rewrite Nat.eqb_refl in Hq. discriminate.
Qed.

(** C10.  When a user who does not attend yet joins by access code and the
    call succeeds, the response is built from the party row as read before
    the write: its head count is the old one, while the stored row now has
    one more and the roster has one more row.  In a world without pending
    fault and with the party not full, the call does succeed. *)
Theorem joinByAccessCode_first_join uid code w p :
  find (fun q => strict_eq (accessCode q) (Some code)) (partyEvent (db w)) = Some p ->
  find (fun x => (att_partyId x =? id p)%nat && (att_userId x =? uid)%string)
       (partyAttendee (db w)) = None ->
  (forall resp w',
     joinByAccessCode uid code w = (Ok resp, w') ->
     resp = formatPartyResponse (include (db w) p) /\
     r_attendeesCount resp = attendeesCount p /\
     In (increment_attendeesCount 1 p) (partyEvent (db w')) /\
     attendeesCount (increment_attendeesCount 1 p) = r_attendeesCount resp + 1 /\
     rows_of (db w') (id p) = S (rows_of (db w) (id p))) /\
  (faults w = [] -> is_full p = false ->
   exists resp w', joinByAccessCode uid code w = (Ok resp, w')).
Proof.
  intros Hp Ha. rewrite (joinByAccessCode_unfold _ _ _ _ Hp), Ha.
  pose proof (find_In _ _ _ Hp) as [Hin _]. split.
  - intros resp w'. destruct (is_full p); [discriminate|].
    destruct (transaction _ w) as [[[]|e] w1] eqn:Htx; [|discriminate].
    intros H. inversion H; subst resp w1; clear H.
    apply join_tx_effect in Htx as [Hd _].
    split; [reflexivity|]. split; [reflexivity|]. rewrite Hd. simpl.
    split; [|split; [reflexivity|]].
    + apply in_map_iff. exists p. rewrite Nat.eqb_refl. auto.
    + unfold rows_of. simpl. rewrite count_party_app. simpl.
      rewrite Nat.eqb_refl. lia.
  - intros Hf ->. destruct w as [d fs t]. simpl in *. subst fs.
    destruct (find_by_id_In _ _ Hin) as [q Hq].
    rewrite (join_tx_no_fault _ _ _ _ q (find_none_existsb _ _ Ha) Hq). eauto.
Qed.

(** ** Listings *)

Lemma insert_by_startsAt_In p q l :
  In q (insert_by_startsAt p l) <-> q = p \/ In q l.
Proof.
  induction l as [|x l IH]; simpl.
  - intuition.
  - destruct (startsAt p <=? startsAt x); simpl; [intuition|].
    rewrite IH. intuition.
Qed.

Lemma insert_by_startsAt_sorted p l :
  StronglySorted startsAt_le l -> StronglySorted startsAt_le (insert_by_startsAt p l).
Proof.
  induction 1 as [|x l Hl IH Hx]; simpl.
  - repeat constructor.
  - destruct (Z.leb_spec (startsAt p) (startsAt x)) as [Hle|Hgt].
    + constructor; [constructor; assumption|].
      constructor; [exact Hle|].
      eapply Forall_impl; [|exact Hx]. unfold startsAt_le. intros; lia.
    + constructor; [exact IH|].
      apply Forall_forall. intros q Hq. apply insert_by_startsAt_In in Hq as [->|Hq].
      * unfold startsAt_le. lia.
      * rewrite Forall_forall in Hx. auto.
Qed.

Lemma orderBy_startsAt_asc_sorted l :
  StronglySorted startsAt_le (orderBy_startsAt_asc l).
Proof.
  induction l as [|p l IH]; simpl; [constructor|].
  apply insert_by_startsAt_sorted. exact IH.
Qed.

Lemma orderBy_startsAt_asc_In p l : In p (orderBy_startsAt_asc l) <-> In p l.
Proof.
  induction l as [|x l IH]; simpl; [tauto|].
  rewrite insert_by_startsAt_In, IH. intuition.
Qed.

Lemma In_skipn {A} n (l : list A) x : In x (skipn n l) -> In x l.
Proof.
  revert l. induction n as [|n IH]; intros [|y l]; simpl; auto.
Qed.

Lemma In_firstn {A} n (l : list A) x : In x (firstn n l) -> In x l.
Proof.
  revert l. induction n as [|n IH]; intros [|y l]; simpl; auto.
  - contradiction.
  - intros [->|H]; auto.
Qed.

Lemma StronglySorted_skipn {A} (R : A -> A -> Prop) n l :
  StronglySorted R l -> StronglySorted R (skipn n l).
Proof.
  revert l. induction n as [|n IH]; intros l H; simpl; [exact H|].
  destruct l as [|x l]; [constructor|]. apply IH. inversion H; assumption.
Qed.

Lemma StronglySorted_firstn {A} (R : A -> A -> Prop) n l :
  StronglySorted R l -> StronglySorted R (firstn n l).
Proof.
  revert l. induction n as [|n IH]; intros l H; simpl; [constructor|].
  destruct l as [|x l]; [constructor|]. inversion H; subst.
  constructor; [apply IH; assumption|].
  apply Forall_forall. intros y Hy. apply In_firstn in Hy.
  rewrite Forall_forall in *. auto.
Qed.

Lemma StronglySorted_map {A B} (R : A -> A -> Prop) (S : B -> B -> Prop)
    (f : A -> B) l :
  (forall a b, R a b -> S (f a) (f b)) ->
  StronglySorted R l -> StronglySorted S (map f l).
Proof.
  intros Hf. induction 1 as [|x l Hl IH Hx]; simpl; constructor; auto.
  rewrite Forall_map. eapply Forall_impl; [|exact Hx]. auto.
Qed.

Lemma matches_build_where filters today p :
  matches (build_where filters today) p = true ->
  isPrivate p = false /\
  (li_upcoming filters = Some true ->
   (status p = PLANNED \/ status p = LIVE) /\ today <= startsAt p).
Proof.
  unfold matches, build_where. cbn [where_isPrivate where_status where_startsAt_gte].
  intros H. repeat (apply andb_true_iff in H as [H ?]). split.
  - destruct (isPrivate p); [discriminate|reflexivity].
  - intros Hup. rewrite Hup in *. simpl in *. split.
    + destruct (status p); simpl in *; auto; discriminate.
    + apply Z.leb_le. assumption.
Qed.

(** C9.  Whatever the filters, [listParties] succeeds without touching the
    world and returns public parties only, in ascending order of
    [startsAt]; each is a party of the store; and with [upcoming] set,
    each is PLANNED or LIVE and does not start before now. *)
Theorem listParties_public_sorted filters w :
  exists rs total,
    listParties filters w = (Ok (rs, total), w) /\
    Forall (fun r => r_isPrivate r = false) rs /\
    StronglySorted Z.le (map r_startsAt rs) /\
    Forall (fun r => exists p, In p (partyEvent (db w)) /\
                               r = formatPartyResponse (include (db w) p)) rs /\
    (li_upcoming filters = Some true ->
     Forall (fun r => (r_status r = PLANNED \/ r_status r = LIVE) /\
                      now w <= r_startsAt r) rs).
Proof.
  set (wh := build_where filters (now w)).
  set (skip := ((page filters - 1) * limit filters)%nat).
  set (ps := firstn (limit filters)
               (skipn skip (orderBy_startsAt_asc (filter (matches wh) (partyEvent (db w)))))).
  exists (map formatPartyResponse (map (include (db w)) ps)),
         (List.length (filter (matches wh) (partyEvent (db w)))).
  assert (Hps : forall p, In p ps -> In p (partyEvent (db w)) /\ matches wh p = true).
  { intros p Hp. apply In_firstn, In_skipn in Hp.
    apply (proj1 (orderBy_startsAt_asc_In _ _)) in Hp.
    apply (proj1 (filter_In _ _ _)) in Hp. exact Hp. }
  split; [reflexivity|]. rewrite map_map.
  split; [|split; [|split]].
  - rewrite Forall_map. apply Forall_forall. intros p Hp.
    apply Hps in Hp as [_ Hm]. apply matches_build_where in Hm as [Hm _]. exact Hm.
  - rewrite map_map. simpl.
    apply (StronglySorted_map startsAt_le); [auto|].
    apply StronglySorted_firstn, StronglySorted_skipn, orderBy_startsAt_asc_sorted.
  - rewrite Forall_map. apply Forall_forall. intros p Hp.
    apply Hps in Hp as [Hin _]. eauto.
  - intros Hup. rewrite Forall_map. apply Forall_forall. intros p Hp.
    apply Hps in Hp as [_ Hm]. apply matches_build_where in Hm as [_ Hm].
    exact (Hm Hup).
Qed.

(** * Further properties of the party service *)

(** ** Leaving *)

Lemma leaveParty_unfold pid uid w :
  leaveParty pid uid w =
    match find (fun q => (id q =? pid)%nat) (partyEvent (db w)) with
    | None => (Throw (AppError "Party not found" 404), w)
    | Some p =>
        if (hostId p =? uid)%string
        then (Throw (AppError "Host cannot leave the party" 400), w)
        else
          match find (fun x => (att_partyId x =? pid)%nat && (att_userId x =? uid)%string)
                     (partyAttendee (db w)) with
          | None => (Throw (AppError "Not attending this party" 400), w)
          | Some a =>
              transaction
                [ partyAttendee_delete (att_id a);
                  void (partyEvent_update pid (increment_attendeesCount (-1))) ] w
          end
    end.
Proof.
  unfold leaveParty, partyEvent_findUnique, partyAttendee_findUnique, query,
    throwIf, throw, ret, bind at 1 2 3. simpl.
  destruct (find _ (partyEvent (db w))) as [p|]; [|reflexivity].
  destruct (hostId p =? uid)%string; simpl; [reflexivity|].
  destruct (find _ (partyAttendee (db w))); reflexivity.
Qed.

(** X1.  [leaveParty] refuses, without touching the world: a missing party
    (404), then the host of the party, whether or not a row exists for the
    host (400), then a user without attendee row (400). *)
Theorem leaveParty_refusals pid uid w :
  (find (fun q => (id q =? pid)%nat) (partyEvent (db w)) = None ->
   leaveParty pid uid w = (Throw (AppError "Party not found" 404), w)) /\
  (forall p,
     find (fun q => (id q =? pid)%nat) (partyEvent (db w)) = Some p ->
     (hostId p = uid ->
      leaveParty pid uid w = (Throw (AppError "Host cannot leave the party" 400), w)) /\
     (hostId p <> uid ->
      find (fun x => (att_partyId x =? pid)%nat && (att_userId x =? uid)%string)
           (partyAttendee (db w)) = None ->
      leaveParty pid uid w = (Throw (AppError "Not attending this party" 400), w))).
Proof.
  rewrite leaveParty_unfold. split.
  - intros ->. reflexivity.
  - intros p ->. split.
    + intros ->. rewrite String.eqb_refl. reflexivity.
    + intros Hne ->. rewrite (proj2 (String.eqb_neq _ _) Hne). reflexivity.
Qed.

Lemma leave_tx_no_fault pid aid d t p :
  existsb (fun a => (att_id a =? aid)%nat) (partyAttendee d) = true ->
  find (fun q => (id q =? pid)%nat) (partyEvent d) = Some p ->
  transaction
    [ partyAttendee_delete aid;
      void (partyEvent_update pid (increment_attendeesCount (-1))) ]
    (mkWorld d [] t)
  = (Ok tt, mkWorld (db_leave d pid aid) [] t).
Proof.
  intros He Hf.
  unfold transaction, sequence_, void, bind, ret, partyAttendee_delete,
    partyEvent_update, statement. simpl. rewrite He. simpl. rewrite Hf. reflexivity.
Qed.

Lemma increment_attendeesCount_undo q :
  increment_attendeesCount (-1) (increment_attendeesCount 1 q) = q.
Proof.
  destruct q. unfold increment_attendeesCount. simpl. f_equal. lia.
Qed.

Lemma map_join_leave pid (l : list PartyEvent) :
  map (fun q => if (id q =? pid)%nat then increment_attendeesCount (-1) q else q)
      (map (fun q => if (id q =? pid)%nat then increment_attendeesCount 1 q else q) l)
  = l.
Proof.
  induction l as [|q l IH]; simpl; [reflexivity|]. rewrite IH. f_equal.
  destruct (id q =? pid)%nat eqn:E; simpl; rewrite E; [|reflexivity].
  apply increment_attendeesCount_undo.
Qed.

Lemma join_tx_created pid uid w w' :
  transaction
    [ void (partyAttendee_create pid uid guest);
      void (partyEvent_update pid (increment_attendeesCount 1)) ] w = (Ok tt, w') ->
  existsb (fun a => (att_partyId a =? pid)%nat && (att_userId a =? uid)%string)
          (partyAttendee (db w)) = false /\
  faults w' = tl (tl (faults w)) /\ now w' = now w.
Proof.
  destruct w as [d fs t].
  unfold transaction, sequence_, void, bind, ret, partyAttendee_create,
    partyEvent_update, statement. simpl.
  destruct fs as [|[|] [|[|] fs]]; simpl;
    try (destruct (existsb _ (partyAttendee d)); simpl);
    try (destruct (find _ (partyEvent d)) eqn:Hf; simpl);
    intros H; inversion H; subst; simpl; auto.
Qed.

Lemma find_app_fresh {A} (f : A -> bool) l x :
  existsb f l = false -> f x = true -> find f (l ++ [x]) = Some x.
Proof.
  intros He Hx. apply find_app_new; [|exact Hx].
  induction l as [|y l IH]; simpl in *; [reflexivity|].
  destruct (f y); [discriminate|]. apply IH. exact He.
Qed.

(** X2.  Round trip.  In a store with fresh identifiers, when a user other
    than the host joins a party and then leaves it (no fault pending), the
    leave succeeds and the party rows, with their head counts, and the
    attendee rows are exactly what they were before the join. *)
Theorem join_then_leave pid uid code w w1 p :
  fresh (db w) ->
  find (fun q => (id q =? pid)%nat) (partyEvent (db w)) = Some p ->
  hostId p <> uid ->
  joinParty pid uid code w = (Ok tt, w1) ->
  faults w1 = [] ->
  exists w2,
    leaveParty pid uid w1 = (Ok tt, w2) /\
    partyEvent (db w2) = partyEvent (db w) /\
    partyAttendee (db w2) = partyAttendee (db w).
Proof.
  intros [Fp Fa Fr Fnd] Hp Hne Hjoin Hf1.
  pose proof Hjoin as Heff. apply joinParty_effect in Heff as [Hd1 _].
  rewrite (joinParty_unfold _ _ _ _ _ Hp) in Hjoin.
  destruct (access_denied p code); [discriminate|].
  destruct (is_full p); [discriminate|].
  destruct (find _ (partyAttendee (db w))) eqn:Hnone; [discriminate|].
  apply join_tx_created in Hjoin as (Hex & _ & _).
  destruct w1 as [d1 fs1 t1]. simpl in Hd1, Hf1. subst d1 fs1.
  assert (Hp1 : find (fun q => (id q =? pid)%nat)
                  (map (fun q => if (id q =? pid)%nat
                                 then increment_attendeesCount 1 q else q)
                       (partyEvent (db w)))
                = Some (increment_attendeesCount 1 p)).
  { apply find_map_hit; [reflexivity|exact Hp]. }
  rewrite leaveParty_unfold. simpl. rewrite Hp1.
  simpl. rewrite (proj2 (String.eqb_neq _ _) Hne).
  rewrite (find_app_fresh _ _ (mkPartyAttendee (nextId (db w)) pid uid guest) Hex)
    by (simpl; rewrite Nat.eqb_refl, String.eqb_refl; reflexivity).
  simpl.
  erewrite leave_tx_no_fault.
  - eexists. split; [reflexivity|]. simpl. split; [apply map_join_leave|].
    rewrite filter_app. simpl. rewrite Nat.eqb_refl. simpl. rewrite app_nil_r.
    apply filter_other_ids. intros Hin. apply in_map_iff in Hin as (a & Ea & Hina).
    rewrite Forall_forall in Fa. specialize (Fa _ Hina). lia.
  - simpl. rewrite existsb_app. simpl. rewrite Nat.eqb_refl. apply orb_true_r.
  - simpl. exact Hp1.
Qed.

(** ** Reading a party *)

Lemma getPartyById_unfold pid viewer w :
  getPartyById pid viewer w =
    match find (fun q => (id q =? pid)%nat) (partyEvent (db w)) with
    | None => (Throw (AppError "Party not found" 404), w)
    | Some p =>
        if isPrivate p && negb (strict_eq (Some (hostId p)) viewer)
        then
          match find (fun x => (att_partyId x =? pid)%nat
                               && (att_userId x =? or_empty viewer)%string)
                     (partyAttendee (db w)) with
          | None => (Throw (AppError "Access denied to private party" 403), w)
          | Some _ => (Ok (formatPartyResponse (include (db w) p)), w)
          end
        else (Ok (formatPartyResponse (include (db w) p)), w)
    end.
Proof.
  unfold getPartyById, partyEvent_findUnique_include, partyAttendee_findUnique,
    query, throw, ret, bind at 1 2. simpl.
  destruct (find _ (partyEvent (db w))) as [p|]; simpl; [|reflexivity].
  destruct (isPrivate p && _); simpl; [|reflexivity].
  unfold bind. simpl. destruct (find _ (partyAttendee (db w))); reflexivity.
Qed.

(** X3.  Private-party gating of [getPartyById].  On a private party, the
    host and every user with an attendee row get the party, access code
    included; any other signed-in user is refused with 403, and so is an
    anonymous reader unless a row exists for the empty user identifier.
    The world is never touched. *)
Theorem getPartyById_private pid w p :
  find (fun q => (id q =? pid)%nat) (partyEvent (db w)) = Some p ->
  isPrivate p = true ->
  let has_row u :=
    find (fun x => (att_partyId x =? pid)%nat && (att_userId x =? u)%string)
         (partyAttendee (db w)) in
  let granted := (Ok (formatPartyResponse (include (db w) p)), w) in
  let denied := (Throw (AppError "Access denied to private party" 403), w) in
  getPartyById pid (Some (hostId p)) w = granted /\
  r_accessCode (formatPartyResponse (include (db w) p)) = accessCode p /\
  (forall u, u <> hostId p -> u <> "" ->
     getPartyById pid (Some u) w
     = match has_row u with Some _ => granted | None => denied end) /\
  getPartyById pid None w
  = match has_row "" with Some _ => granted | None => denied end.
Proof.
  intros Hp Hpriv has_row granted denied. rewrite !getPartyById_unfold, Hp, Hpriv.
  simpl. rewrite String.eqb_refl. simpl. rewrite Hpriv.
  split; [reflexivity|]. split; [reflexivity|]. split; [|reflexivity].
  intros u Hu Hne. rewrite getPartyById_unfold, Hp, Hpriv. simpl.
  rewrite (proj2 (String.eqb_neq (hostId p) u)) by congruence. simpl.
  unfold truthy_string. rewrite (proj2 (String.eqb_neq u "") Hne). reflexivity.
Qed.

(** ** Updates and deletions *)

Lemma updateParty_unfold pid h data w :
  updateParty pid h data w =
    match find (fun q => (id q =? pid)%nat) (partyEvent (db w)) with
    | None => (Throw (AppError "Party not found" 404), w)
    | Some p =>
        if negb (hostId p =? h)%string
        then (Throw (AppError "Only the host can update the party" 403), w)
        else
          match partyEvent_update pid (apply_update data) w with
          | (Ok up, w1) =>
              match venue_step pid data w1 with
              | (Ok _, w2) => (Ok (formatPartyResponse up), w2)
              | (Throw e, w2) => (Throw e, w2)
              end
          | (Throw e, w1) => (Throw e, w1)
          end
    end.
Proof.
  unfold updateParty, venue_step, partyEvent_findUnique, query, throwIf, throw,
    ret, bind at 1 2. simpl.
  destruct (find _ (partyEvent (db w))) as [p|]; [|reflexivity].
  destruct (negb _); simpl; [reflexivity|].
  unfold bind. destruct (partyEvent_update _ _ w) as [[up|e] w1]; [|reflexivity].
  destruct (ui_venue data) as [v|]; [|reflexivity].
  destruct (venue_upsert pid v w1) as [[[]|e] w2]; reflexivity.
Qed.

Lemma deleteParty_unfold pid h w :
  deleteParty pid h w =
    match find (fun q => (id q =? pid)%nat) (partyEvent (db w)) with
    | None => (Throw (AppError "Party not found" 404), w)
    | Some p =>
        if negb (hostId p =? h)%string
        then (Throw (AppError "Only the host can delete the party" 403), w)
        else partyEvent_delete pid w
    end.
Proof.
  unfold deleteParty, partyEvent_findUnique, query, throwIf, throw, ret,
    bind at 1 2. simpl.
  destruct (find _ (partyEvent (db w))) as [p|]; [|reflexivity].
  destruct (negb _); reflexivity.
Qed.

(** X4.  Only the host mutates.  [updateParty] and [deleteParty] by anyone
    but the host of an existing party fail with 403, whatever the patch,
    and leave the world as it was. *)
Theorem only_host_mutates pid h data w p :
  find (fun q => (id q =? pid)%nat) (partyEvent (db w)) = Some p ->
  hostId p <> h ->
  updateParty pid h data w
  = (Throw (AppError "Only the host can update the party" 403), w) /\
  deleteParty pid h w
  = (Throw (AppError "Only the host can delete the party" 403), w).
Proof.
  intros Hp Hne. rewrite updateParty_unfold, deleteParty_unfold, Hp.
  rewrite (proj2 (String.eqb_neq _ _) Hne). split; reflexivity.
Qed.

Lemma venue_step_effect pid data w1 r2 w2 :
  venue_step pid data w1 = (r2, w2) ->
  partyEvent (db w2) = partyEvent (db w1) /\
  partyAttendee (db w2) = partyAttendee (db w1) /\
  chatRoom (db w2) = chatRoom (db w1) /\ tag (db w2) = tag (db w1) /\
  partyTag (db w2) = partyTag (db w1) /\ nextId (db w2) = nextId (db w1).
Proof.
  intros H. unfold venue_step in H. destruct (ui_venue data) as [v|].
  - apply statement_inv in H as [_ H]. destruct r2 as [[]|e].
    + destruct (existsb _ (venue (db w1))); injection H as <-; repeat split.
    + rewrite H. repeat split.
  - inversion H; subst. repeat split.
Qed.

(** What an update does to the store, whatever its outcome: the party rows
    are as before, or the rows of the party are patched; the venue table
    may change; nothing else does. *)
Lemma updateParty_effect pid h data w r w' :
  updateParty pid h data w = (r, w') ->
  partyAttendee (db w') = partyAttendee (db w) /\
  chatRoom (db w') = chatRoom (db w) /\
  tag (db w') = tag (db w) /\ partyTag (db w') = partyTag (db w) /\
  nextId (db w') = nextId (db w) /\
  (partyEvent (db w') = partyEvent (db w) \/
   partyEvent (db w')
   = map (fun q => if (id q =? pid)%nat then apply_update data q else q)
         (partyEvent (db w))) /\
  (forall resp, r = Ok resp ->
     exists p, find (fun q => (id q =? pid)%nat) (partyEvent (db w)) = Some p /\
               hostId p = h /\
               resp = formatPartyResponse
                        (mkIncl (apply_update data p)
                           (find (fun v => (venue_partyId v =? pid)%nat) (venue (db w)))
                           (tags_of (db w) pid)) /\
               partyEvent (db w')
               = map (fun q => if (id q =? pid)%nat then apply_update data q else q)
                     (partyEvent (db w))).
Proof.
  rewrite updateParty_unfold.
  destruct (find _ (partyEvent (db w))) as [p|] eqn:Hp.
  2:{ intros H; inversion H; subst. repeat split; auto. discriminate. }
  destruct (hostId p =? h)%string eqn:Hh; simpl.
  2:{ intros H; inversion H; subst. repeat split; auto. discriminate. }
  apply String.eqb_eq in Hh.
  destruct (partyEvent_update _ _ w) as [[up|e] w1] eqn:Hup.
  2:{ apply statement_inv in Hup as [_ Hup]. intros H; inversion H; subst.
      rewrite Hup. repeat split; auto. discriminate. }
  apply statement_inv in Hup as [_ Hup]. rewrite Hp in Hup.
  injection Hup as Hupv Hd1.
  assert (Hid : id p = pid).
  { apply find_In in Hp as [_ Hp]. apply Nat.eqb_eq in Hp. exact Hp. }
  destruct (venue_step pid data w1) as [[[]|e] w2] eqn:Hven;
    apply venue_step_effect in Hven as (V1 & V2 & V3 & V4 & V5 & V6);
    intros H; inversion H; subst r w'; clear H;
    rewrite V1, V2, V3, V4, V5, V6, <- Hd1; simpl;
    (split; [reflexivity|]); (split; [reflexivity|]); (split; [reflexivity|]);
    (split; [reflexivity|]); (split; [reflexivity|]); (split; [right; reflexivity|]);
    intros resp Hr; [|discriminate].
  injection Hr as <-. exists p. split; [reflexivity|]. split; [exact Hh|].
  split; [|reflexivity]. rewrite <- Hupv. unfold include. simpl.
  rewrite Hid. reflexivity.
Qed.

(** X5.  Whatever the patch, the caller and the outcome, [updateParty]
    leaves the identifier, the host, the access code, the head count and
    the creation time of every party as they were, and does not touch the
    attendee rows. *)
Theorem updateParty_fixed_fields pid h data w r w' :
  updateParty pid h data w = (r, w') ->
  map fixed_fields (partyEvent (db w')) = map fixed_fields (partyEvent (db w)) /\
  partyAttendee (db w') = partyAttendee (db w).
Proof.
  intros H. apply updateParty_effect in H as (Ha & _ & _ & _ & _ & [Hp|Hp] & _);
    rewrite Hp, Ha; split; auto.
  rewrite map_map. apply map_ext. intros q.
  destruct (id q =? pid)%nat; reflexivity.
Qed.

(** X6.  An update that makes a party private does not give it an access
    code.  Once a party without access code has been made private, every
    [joinParty] on it fails with "Invalid access code" (403), whatever code
    is supplied. *)
Theorem updateParty_private_locks pid h data w resp w' p :
  find (fun q => (id q =? pid)%nat) (partyEvent (db w)) = Some p ->
  accessCode p = None ->
  ui_isPrivate data = Some true ->
  updateParty pid h data w = (Ok resp, w') ->
  r_isPrivate resp = true /\ r_accessCode resp = None /\
  forall uid code,
    joinParty pid uid code w' = (Throw (AppError "Invalid access code" 403), w').
Proof.
  intros Hp Hcode Hpriv H.
  apply updateParty_effect in H as (_ & _ & _ & _ & _ & _ & H).
  destruct (H resp eq_refl) as (p0 & Hp0 & _ & -> & Hpe). clear H.
  rewrite Hp in Hp0. injection Hp0 as <-.
  simpl. rewrite Hpriv, Hcode. split; [reflexivity|]. split; [reflexivity|].
  intros uid code.
  assert (Hp' : find (fun q => (id q =? pid)%nat) (partyEvent (db w'))
                = Some (apply_update data p)).
  { rewrite Hpe. apply find_map_hit; [reflexivity|exact Hp]. }
  rewrite (joinParty_unfold _ _ _ _ _ Hp'). unfold access_denied. simpl.
  rewrite Hpriv, Hcode. destruct code as [c|]; simpl; [|reflexivity].
  rewrite orb_true_r. reflexivity.
Qed.

Lemma find_map_replace {A} (f : A -> bool) (c : A) l :
  f c = true -> existsb f l = true ->
  find f (map (fun x => if f x then c else x) l) = Some c.
Proof.
  intros Hc. induction l as [|y l IH]; simpl; [discriminate|].
  destruct (f y) eqn:Hy; simpl.
  - rewrite Hc. reflexivity.
  - rewrite Hy. exact IH.
Qed.

(** X7.  The response of an update shows the venue as it was before the
    update: with a venue in the patch, the store ends up with that venue
    for the party, while the response carries the venue read before the
    venue was written. *)
Theorem updateParty_stale_venue pid h data w resp w' v :
  ui_venue data = Some v ->
  updateParty pid h data w = (Ok resp, w') ->
  r_venue resp = find (fun x => (venue_partyId x =? pid)%nat) (venue (db w)) /\
  find (fun x => (venue_partyId x =? pid)%nat) (venue (db w'))
  = Some (to_venue pid v).
Proof.
  intros Hv H. pose proof H as Heff.
  apply updateParty_effect in Heff as (_ & _ & _ & _ & _ & _ & Heff).
  destruct (Heff resp eq_refl) as (p & Hp & Hh & -> & _). clear Heff.
  split; [reflexivity|].
  rewrite updateParty_unfold, Hp, Hh, String.eqb_refl in H. simpl in H.
  destruct (partyEvent_update _ _ w) as [[up|e] w1] eqn:Hup; [|discriminate].
  apply statement_inv in Hup as [_ Hup]. rewrite Hp in Hup. injection Hup as _ Hd1.
  unfold venue_step in H. rewrite Hv in H.
  destruct (venue_upsert pid v w1) as [[[]|e] w2] eqn:Hven; [|discriminate].
  apply (f_equal snd) in H. simpl in H. subst w2.
  apply statement_inv in Hven as [_ Hven]. rewrite <- Hd1 in Hven. simpl in Hven.
  destruct (existsb _ (venue (db w))) eqn:He; injection Hven as <-; simpl.
  - apply find_map_replace; [simpl; apply Nat.eqb_refl|exact He].
  - apply find_app_fresh; [exact He|simpl; apply Nat.eqb_refl].
Qed.

(** ** The response of a creation *)

Lemma attachTags_assoc pid names : forall w w',
  attachTags pid names w = (Ok tt, w') ->
  incl (partyTag (db w)) (partyTag (db w')) /\
  (names <> [] -> existsb (fun pt => (pt_partyId pt =? pid)%nat) (partyTag (db w')) = true).
Proof.
  induction names as [|name rest IH]; simpl; intros w w' H.
  - inversion H; subst. split; [apply incl_refl|congruence].
  - apply bind_Ok in H as (t & w1 & Ht & H).
    apply bind_Ok in H as ([] & w2 & Hpt & H).
    apply statement_inv in Ht as [_ Ht]. apply statement_inv in Hpt as [_ Hpt].
    assert (Ht1 : partyTag (db w1) = partyTag (db w)).
    { destruct (find _ (tag (db w))); injection Ht as _ <-; reflexivity. }
    assert (H12 : incl (partyTag (db w1)) (partyTag (db w2)) /\
                  existsb (has_assoc pid (tag_id t)) (partyTag (db w2)) = true).
    { destruct (existsb _ (partyTag (db w1))) eqn:He; injection Hpt as <-.
      - split; [apply incl_refl|exact He].
      - simpl. split; [apply incl_appl, incl_refl|].
        rewrite existsb_app. simpl. unfold has_assoc at 2. simpl.
        rewrite !Nat.eqb_refl. apply orb_true_r. }
    destruct H12 as [Hi12 He2]. apply IH in H as [Hi2 _].
    split.
    + rewrite <- Ht1. eapply incl_tran; eassumption.
    + intros _. apply existsb_exists in He2 as (pt & Hin & Hk).
      apply existsb_exists. exists pt. split; [apply Hi2; exact Hin|].
      unfold has_assoc in Hk. apply andb_true_iff in Hk. tauto.
Qed.

(** X8.  The response of [createParty] never lists tags: it is built from
    the party as read at its insertion, before the tags are attached.  In a
    store where no association refers to the identifier about to be drawn,
    the response has no tag, although with tags in the request the store
    holds an association for the new party once the call has returned. *)
Theorem createParty_response_without_tags rand h data w resp w' :
  Forall (fun pt => (pt_partyId pt < nextId (db w))%nat) (partyTag (db w)) ->
  createParty rand h data w = (Ok resp, w') ->
  r_id resp = nextId (db w) /\
  r_tags resp = [] /\
  (forall t ts, ci_tags data = Some (t :: ts) ->
     existsb (fun pt => (pt_partyId pt =? r_id resp)%nat) (partyTag (db w')) = true).
Proof.
  intros Hfresh H. unfold createParty in H.
  apply bind_Ok in H as (party & w1 & Hc & H).
  unfold partyEvent_create in Hc. apply bind_Ok in Hc as (t & w0 & Ht & Hc).
  inversion Ht; subst t w0; clear Ht.
  apply statement_inv in Hc as [_ Hc].
  destruct (match pc_accessCode _ with Some _ => _ | None => _ end); [discriminate|].
  injection Hc as Hparty Hd1.
  assert (Hidp : id (row party) = nextId (db w)) by (rewrite <- Hparty; reflexivity).
  assert (Htags : inc_tags party = []).
  { rewrite <- Hparty. unfold include, tags_of. simpl.
    replace (filter _ _) with (@nil PartyTag); [reflexivity|].
    symmetry. destruct (ci_venue data); simpl;
      (induction Hfresh as [|pt l Hpt _ IH]; simpl; [reflexivity|];
       rewrite (proj2 (Nat.eqb_neq (pt_partyId pt) (nextId (db w)))) by lia;
       exact IH). }
  rewrite Hidp in H.
  apply bind_Ok in H as (a & w2 & _ & H).
  apply bind_Ok in H as (c & w3 & _ & H).
  apply bind_Ok in H as ([] & w4 & Hat & H).
  inversion H; subst resp w'; clear H. simpl.
  split; [exact Hidp|]. rewrite Htags. split; [reflexivity|].
  intros x xs Hx. rewrite Hx in Hat. rewrite Hidp.
  apply attachTags_assoc in Hat as [_ Hat]. apply Hat. discriminate.
Qed.

(** ** Pages of a listing *)

Lemma insert_by_startsAt_length p l :
  List.length (insert_by_startsAt p l) = S (List.length l).
Proof.
  induction l as [|q l IH]; simpl; [reflexivity|].
  destruct (startsAt p <=? startsAt q); simpl; [reflexivity|]. rewrite IH. reflexivity.
Qed.

Lemma orderBy_startsAt_asc_length l :
  List.length (orderBy_startsAt_asc l) = List.length l.
Proof.
  induction l as [|p l IH]; simpl; [reflexivity|].
  rewrite insert_by_startsAt_length, IH. reflexivity.
Qed.

Lemma listParties_value filters w :
  listParties filters w =
    (Ok (map formatPartyResponse
           (map (include (db w))
              (firstn (limit filters)
                 (skipn ((page filters - 1) * limit filters)
                    (orderBy_startsAt_asc
                       (filter (matches (build_where filters (now w)))
                               (partyEvent (db w))))))),
         List.length (filter (matches (build_where filters (now w)))
                             (partyEvent (db w)))), w).
Proof. reflexivity. Qed.

(** X9.  The total of a listing does not depend on the page asked for, and
    a page holds [min limit (total - skip)] parties: full pages, then the
    remainder, then nothing. *)
Theorem listParties_page_size filters w :
  exists rs total,
    listParties filters w = (Ok (rs, total), w) /\
    total = List.length (listed filters w) /\
    (forall k, exists rs', listParties (with_page filters k) w = (Ok (rs', total), w)) /\
    List.length rs
    = Nat.min (limit filters) (total - (page filters - 1) * limit filters).
Proof.
  rewrite listParties_value. do 2 eexists. split; [reflexivity|].
  unfold listed. rewrite !length_map, orderBy_startsAt_asc_length.
  split; [reflexivity|].
  split; [intros k; rewrite listParties_value; eexists; reflexivity|].
  rewrite length_firstn, length_skipn, orderBy_startsAt_asc_length. reflexivity.
Qed.

(** X10.  With [upcoming] set, the [status] filter is ignored: the listing
    is the same whatever status is asked for. *)
Theorem listParties_upcoming_ignores_status filters s w :
  li_upcoming filters = Some true ->
  listParties (with_status filters s) w = listParties filters w.
Proof.
  intros Hup. rewrite !listParties_value.
  assert (Hw : forall t, build_where (with_status filters s) t = build_where filters t).
  { intros t. unfold build_where, with_status. simpl. rewrite Hup.
    destruct s, (li_status filters); simpl;
      destruct (truthy_opt_string (li_hostId filters));
      destruct (truthy_opt_string (li_search filters)); reflexivity. }
  simpl. rewrite Hw. reflexivity.
Qed.

Lemma ceil_div_spec a b :
  0 <= a -> 0 < b ->
  (ceil_div a b - 1) * b < a <= ceil_div a b * b.
Proof.
  intros Ha Hb. unfold ceil_div.
  pose proof (Z_div_mod_eq_full (- a) b) as E.
  pose proof (Z.mod_pos_bound (- a) b Hb) as [L U].
  nia.
Qed.

Lemma firstn_skipn_chunk {A} a b (l : list A) :
  (firstn a l ++ firstn b (skipn a l))%list = firstn (a + b) l.
Proof.
  revert l. induction a as [|a IH]; intros l; simpl; [reflexivity|].
  destruct l as [|x l]; simpl.
  - rewrite firstn_nil. reflexivity.
  - rewrite IH. reflexivity.
Qed.

Lemma chunks_concat {A} n m (l : list A) :
  List.concat (map (fun k => firstn n (skipn (k * n) l)) (seq 0 m)) = firstn (m * n) l.
Proof.
  induction m as [|m IH]; [reflexivity|].
  rewrite seq_S, map_app, concat_app, IH. simpl. rewrite app_nil_r.
  rewrite firstn_skipn_chunk. f_equal. lia.
Qed.

Lemma page_data_value filters w k :
  page_data filters w k
  = map formatPartyResponse
      (map (include (db w))
         (firstn (limit filters)
            (skipn ((k - 1) * limit filters)
               (orderBy_startsAt_asc
                  (filter (matches (build_where filters (now w)))
                          (partyEvent (db w))))))).
Proof. reflexivity. Qed.

Lemma insert_by_startsAt_perm p l : Permutation (insert_by_startsAt p l) (p :: l).
Proof.
  induction l as [|q l IH]; simpl; [reflexivity|].
  destruct (startsAt p <=? startsAt q); [reflexivity|].
  rewrite IH. apply perm_swap.
Qed.

Lemma orderBy_startsAt_asc_perm l : Permutation (orderBy_startsAt_asc l) l.
Proof.
  induction l as [|p l IH]; simpl; [reflexivity|].
  rewrite insert_by_startsAt_perm. constructor. exact IH.
Qed.

(** With pairwise distinct keys there is one sorted arrangement only. *)
Lemma sorted_by_startsAt_unique l1 : forall l2,
  NoDup (map startsAt l1) -> Permutation l1 l2 ->
  StronglySorted startsAt_le l1 -> StronglySorted startsAt_le l2 -> l1 = l2.
Proof.
  induction l1 as [|a l1 IH]; intros l2 Hnd Hp H1 H2.
  - apply Permutation_nil in Hp. subst. reflexivity.
  - destruct l2 as [|b l2]; [symmetry in Hp; apply Permutation_nil in Hp; discriminate|].
    inversion Hnd as [|? ? Ha Hnd']; subst.
    inversion H1 as [|? ? H1' Hle1]; subst. inversion H2 as [|? ? H2' Hle2]; subst.
    assert (Eab : a = b).
    { assert (Hina : In a (b :: l2))
        by (apply (Permutation_in a Hp); left; reflexivity).
      assert (Hinb : In b (a :: l1))
        by (apply (Permutation_in b (Permutation_sym Hp)); left; reflexivity).
      destruct Hina as [E|Hina]; [symmetry; exact E|].
      destruct Hinb as [E|Hinb]; [exact E|].
      rewrite Forall_forall in Hle1, Hle2.
      pose proof (Hle1 _ Hinb) as L1. pose proof (Hle2 _ Hina) as L2.
      unfold startsAt_le in L1, L2.
      exfalso. apply Ha. replace (startsAt a) with (startsAt b) by lia.
      apply in_map. exact Hinb. }
    subst b. f_equal. apply IH; try assumption.
    apply Permutation_cons_inv in Hp. exact Hp.
Qed.

(** X11.  Walking the pages.  For a positive [limit], every page from 1 on
    of [GET /parties] answers 200 with the same [total] and the same
    [totalPages] in its meta, and [totalPages] is the least number of pages
    of [limit] parties that holds [total].  When no two of the selected
    parties start at the same time, the order by [startsAt] leaves the
    store no choice: every arrangement of the selected parties in that
    order is the listing, and the pages 1 to [totalPages], put end to end,
    are the whole listing, every party once. *)
Theorem route_listParties_pages filters w :
  (0 < limit filters)%nat ->
  exists total totalPages,
    total = List.length (selected filters w) /\
    (forall k, (1 <= k)%nat ->
       route_listParties (with_page filters k) w
       = (Ok (mkSuccessResponse 200 (page_data filters w k) None
                (Some (mkMeta k (limit filters) total totalPages))), w)) /\
    ((totalPages - 1) * limit filters < total \/ (total = 0 /\ totalPages = 0))%nat /\
    (total <= totalPages * limit filters)%nat /\
    (NoDup (map startsAt (selected filters w)) ->
     (forall ps, Permutation ps (selected filters w) ->
                 StronglySorted startsAt_le ps ->
                 map formatPartyResponse (map (include (db w)) ps) = listed filters w) /\
     List.concat (map (page_data filters w) (seq 1 totalPages)) = listed filters w).
Proof.
  intros Hlim. unfold selected.
  set (sel := filter (matches (build_where filters (now w))) (partyEvent (db w))).
  set (all := orderBy_startsAt_asc sel).
  set (total := List.length sel).
  set (n := limit filters) in *.
  exists total, (Z.to_nat (ceil_div (Z.of_nat total) (Z.of_nat n))).
  pose proof (ceil_div_spec (Z.of_nat total) (Z.of_nat n)) as Hc.
  assert (Hk : 0 <= ceil_div (Z.of_nat total) (Z.of_nat n)) by nia.
  split; [|split; [|split; [|split]]].
  - reflexivity.
  - intros k _. reflexivity.
  - destruct (Nat.eq_dec total 0) as [E|E].
    + right. split; [exact E|]. rewrite E. reflexivity.
    + left. nia.
  - nia.
  - intros Hnd. split.
    + intros ps Hperm Hsorted. unfold listed. fold sel all. do 2 f_equal.
      apply sorted_by_startsAt_unique; [| |exact Hsorted|].
      * apply (Permutation_NoDup (Permutation_map startsAt (Permutation_sym Hperm))).
        exact Hnd.
      * rewrite Hperm. symmetry. apply orderBy_startsAt_asc_perm.
      * apply orderBy_startsAt_asc_sorted.
    + rewrite <- seq_shift, map_map.
      erewrite map_ext; [|intros k; rewrite page_data_value; simpl;
                         rewrite Nat.sub_0_r; fold sel n all; reflexivity].
      rewrite <- (map_map (fun k => firstn n (skipn (k * n) all))
                          (fun c => map formatPartyResponse (map (include (db w)) c))).
      rewrite <- (map_map (map (include (db w))) (map formatPartyResponse)).
      rewrite <- !concat_map, chunks_concat. unfold listed. fold sel all.
      rewrite firstn_all2; [reflexivity|].
      unfold all. rewrite orderBy_startsAt_asc_length. fold total. nia.
Qed.

(** ** Slugs and tags *)

Lemma lower_ascii_not_upper c : is_upper (lower_ascii c) = false.
Proof. destruct c as [[] [] [] [] [] [] [] []]; reflexivity. Qed.

Lemma lower_ascii_fixed c : is_upper c = false -> lower_ascii c = c.
Proof. unfold lower_ascii, is_upper. intros ->. reflexivity. Qed.

Lemma toLowerCase_no_upper s : free_of is_upper (toLowerCase s) = true.
Proof.
  unfold free_of. induction s as [|c s IH]; simpl; [reflexivity|].
  rewrite lower_ascii_not_upper. exact IH.
Qed.

Lemma toLowerCase_fixed s : free_of is_upper s = true -> toLowerCase s = s.
Proof.
  unfold free_of. induction s as [|c s IH]; simpl; [reflexivity|].
  intros H. apply andb_true_iff in H as [Hc Hs]. apply negb_true_iff in Hc.
  rewrite (lower_ascii_fixed _ Hc), (IH Hs). reflexivity.
Qed.

Lemma replace_spaces_no_space b s : free_of is_space (replace_spaces b s) = true.
Proof.
  unfold free_of. revert b. induction s as [|c s IH]; intros b; simpl; [reflexivity|].
  destruct (is_space c) eqn:Hc.
  - destruct b; simpl; apply IH.
  - simpl. rewrite Hc. simpl. apply IH.
Qed.

Lemma replace_spaces_no_upper b s :
  free_of is_upper s = true -> free_of is_upper (replace_spaces b s) = true.
Proof.
  unfold free_of. revert b. induction s as [|c s IH]; intros b; simpl; [reflexivity|].
  intros H. apply andb_true_iff in H as [Hc Hs].
  destruct (is_space c); [destruct b|]; simpl; auto.
  rewrite Hc. simpl. auto.
Qed.

Lemma replace_spaces_fixed b s : free_of is_space s = true -> replace_spaces b s = s.
Proof.
  unfold free_of. revert b. induction s as [|c s IH]; intros b; simpl; [reflexivity|].
  intros H. apply andb_true_iff in H as [Hc Hs]. apply negb_true_iff in Hc.
  rewrite Hc, (IH _ Hs). reflexivity.
Qed.

Lemma lower_ascii_ascii c : is_ascii (lower_ascii c) = is_ascii c.
Proof. destruct c as [[] [] [] [] [] [] [] []]; reflexivity. Qed.

Lemma toLowerCase_ascii s : ascii_only (toLowerCase s) = ascii_only s.
Proof.
  unfold ascii_only. induction s as [|c s IH]; simpl; [reflexivity|].
  rewrite lower_ascii_ascii, IH. reflexivity.
Qed.

Lemma replace_spaces_ascii b s :
  ascii_only s = true -> ascii_only (replace_spaces b s) = true.
Proof.
  unfold ascii_only. revert b. induction s as [|c s IH]; intros b; simpl; [reflexivity|].
  intros H. apply andb_true_iff in H as [Hc Hs].
  destruct (is_space c); [destruct b|]; simpl; auto.
  rewrite Hc. simpl. auto.
Qed.

(** X12.  The slug of an ASCII name is an ASCII string that holds no white
    space and no upper-case letter; it is a fixed point of the
    normalisation, and the name and its lower-case form have the same
    slug. *)
Theorem slug_of_normal name :
  ascii_only name = true ->
  ascii_only (slug_of name) = true /\
  free_of is_space (slug_of name) = true /\
  free_of is_upper (slug_of name) = true /\
  slug_of (slug_of name) = slug_of name /\
  slug_of (toLowerCase name) = slug_of name.
Proof.
  intros Ha. unfold slug_of.
  split; [apply replace_spaces_ascii; rewrite toLowerCase_ascii; exact Ha|].
  split; [apply replace_spaces_no_space|].
  assert (Hu : free_of is_upper (replace_spaces false (toLowerCase name)) = true).
  { apply replace_spaces_no_upper, toLowerCase_no_upper. }
  split; [exact Hu|]. split.
  - rewrite (toLowerCase_fixed _ Hu).
    apply replace_spaces_fixed, replace_spaces_no_space.
  - rewrite (toLowerCase_fixed (toLowerCase name)); [reflexivity|].
    apply toLowerCase_no_upper.
Qed.

(** X13.  Names with the same slug share one tag.  In a world without
    pending fault and without tag for that slug, attaching two names of the
    same slug to a party creates a single tag, which carries the first
    name, has been counted twice (the column default plus one), and is
    associated with the party once. *)
Theorem attachTags_same_slug pid n1 n2 w :
  faults w = [] ->
  slug_of n1 = slug_of n2 ->
  find (fun x => (tag_slug x =? slug_of n1)%string) (tag (db w)) = None ->
  existsb (has_assoc pid (nextId (db w))) (partyTag (db w)) = false ->
  exists w',
    attachTags pid [n1; n2] w = (Ok tt, w') /\
    tag (db w')
    = (tag (db w) ++ [mkTag (nextId (db w)) n1 (slug_of n1) (usageCountDefault + 1)])%list /\
    partyTag (db w') = (partyTag (db w) ++ [mkPartyTag pid (nextId (db w))])%list.
Proof.
  intros Hf Hs Hnone Hassoc. destruct w as [d fs t]. simpl in *. subst fs.
  unfold attachTags, bind, tag_upsert, partyTag_upsert, ret.
  rewrite statement_no_fault by reflexivity. simpl. rewrite Hnone.
  rewrite statement_no_fault by reflexivity. simpl. rewrite Hassoc.
  rewrite statement_no_fault by reflexivity. simpl. rewrite <- Hs.
  rewrite (find_app_new _ _ _ Hnone) by (simpl; apply String.eqb_refl).
  rewrite statement_no_fault by reflexivity. simpl.
  rewrite existsb_app. simpl. unfold has_assoc at 2. simpl.
  rewrite !Nat.eqb_refl, orb_true_r. simpl.
  eexists. split; [reflexivity|]. simpl. split; [|reflexivity].
  rewrite map_app. simpl. rewrite String.eqb_refl. f_equal.
  clear - Hnone. induction (tag d) as [|x l IH]; simpl in *; [reflexivity|].
  destruct (tag_slug x =? slug_of n1)%string; [discriminate|].
  rewrite IH by exact Hnone. reflexivity.
Qed.

(** ** Keys and host rows in reachable stores *)

Lemma NoDup_map_filter {A B} (f : A -> B) (g : A -> bool) l :
  NoDup (map f l) -> NoDup (map f (filter g l)).
Proof.
  induction l as [|x l IH]; simpl; intros H; [constructor|].
  inversion H as [|? ? Hx Hl]; subst. destruct (g x); simpl; auto.
  constructor; auto. intros Hin. apply Hx.
  apply in_map_iff in Hin as (y & Ey & Hy). apply filter_In in Hy as [Hy _].
  rewrite <- Ey. apply in_map. exact Hy.
Qed.

Lemma filter_filter_same {A} (f g : A -> bool) l :
  (forall x, In x l -> f x = true -> g x = true) ->
  filter f (filter g l) = filter f l.
Proof.
  induction l as [|x l IH]; simpl; intros H; [reflexivity|].
  destruct (g x) eqn:Hg; simpl.
  - destruct (f x); rewrite IH; auto.
  - destruct (f x) eqn:Hf.
    + rewrite (H x (or_introl eq_refl) Hf) in Hg. discriminate.
    + apply IH. auto.
Qed.

Lemma NoDup_map_inj {A B} (f : A -> B) l x y :
  NoDup (map f l) -> In x l -> In y l -> f x = f y -> x = y.
Proof.
  induction l as [|z l IH]; simpl; intros Hnd Hx Hy E; [contradiction|].
  inversion Hnd as [|? ? Hz Hl]; subst.
  destruct Hx as [->|Hx], Hy as [->|Hy]; auto.
  - exfalso. apply Hz. rewrite E. apply in_map. exact Hy.
  - exfalso. apply Hz. rewrite <- E. apply in_map. exact Hx.
Qed.

Lemma existsb_pair_absent pid uid (l : list PartyAttendee) :
  existsb (fun a => (att_partyId a =? pid)%nat && (att_userId a =? uid)%string) l = false ->
  ~ In (pid, uid) (map (fun a => (att_partyId a, att_userId a)) l).
Proof.
  intros He Hin. apply in_map_iff in Hin as (a & Ea & Hina). injection Ea as E1 E2.
  assert (H : existsb (fun a => (att_partyId a =? pid)%nat && (att_userId a =? uid)%string) l
              = true).
  { apply existsb_exists. exists a. split; [exact Hina|].
    rewrite E1, E2, Nat.eqb_refl, String.eqb_refl. reflexivity. }
  congruence.
Qed.

Lemma orderly_empty : orderly emptyDb.
Proof.
  split; [apply fresh_empty|]. split; [split; constructor|constructor].
Qed.

Lemma host_listed_patch (f : PartyEvent -> PartyEvent) ps atts atts' :
  (forall q, id (f q) = id q /\ hostId (f q) = hostId q) ->
  (forall q, In q ps ->
     filter (is_host_row (id q)) atts' = filter (is_host_row (id q)) atts) ->
  Forall (fun p => exists a, filter (is_host_row (id p)) atts = [a] /\
                             att_userId a = hostId p) ps ->
  Forall (fun p => exists a, filter (is_host_row (id p)) atts' = [a] /\
                             att_userId a = hostId p) (map f ps).
Proof.
  intros Hf Hsame H. rewrite Forall_map. rewrite Forall_forall in *.
  intros q Hq. destruct (Hf q) as [-> ->]. rewrite (Hsame q Hq). auto.
Qed.

Lemma fresh_join d pid uid p :
  fresh d -> find (fun q => (id q =? pid)%nat) (partyEvent d) = Some p ->
  fresh (db_join d pid uid).
Proof.
  intros [Hp Ha Hr Hnd] Hfind.
  apply find_In in Hfind as [Hin Hid]. apply Nat.eqb_eq in Hid.
  assert (Hpid : (pid < nextId d)%nat).
  { rewrite Forall_forall in Hp. specialize (Hp _ Hin). lia. }
  split; simpl.
  - rewrite Forall_map. eapply Forall_impl; [|exact Hp]. simpl.
    intros q Hq. destruct (id q =? pid)%nat; simpl; lia.
  - apply Forall_app. split.
    + eapply Forall_impl; [|exact Ha]. simpl. intros a [? ?]. lia.
    + constructor; [simpl; lia|constructor].
  - eapply Forall_impl; [|exact Hr]. simpl. intros r ?. lia.
  - rewrite map_app. simpl. apply NoDup_app; [assumption|repeat constructor; simpl; tauto|].
    intros k Hk [<-|[]]. apply in_map_iff in Hk as (a & Ea & Hina).
    rewrite Forall_forall in Ha. specialize (Ha _ Hina). lia.
Qed.

Lemma orderly_join d pid uid p :
  orderly d ->
  find (fun q => (id q =? pid)%nat) (partyEvent d) = Some p ->
  existsb (fun a => (att_partyId a =? pid)%nat && (att_userId a =? uid)%string)
          (partyAttendee d) = false ->
  orderly (db_join d pid uid).
Proof.
  intros (Hfr & [Kid Kpair] & Hh) Hp He.
  split; [eapply fresh_join; eassumption|]. split; [split|]; simpl.
  - rewrite map_map. erewrite map_ext; [exact Kid|].
    intros q. destruct (id q =? pid)%nat; reflexivity.
  - rewrite map_app. simpl. apply NoDup_app; [assumption|repeat constructor; simpl; tauto|].
    intros k Hk [<-|[]]. exact (existsb_pair_absent _ _ _ He Hk).
  - apply host_listed_patch with (atts := partyAttendee d); [| |exact Hh].
    + intros q. destruct (id q =? pid)%nat; split; reflexivity.
    + intros q _. simpl. rewrite filter_app. simpl. unfold is_host_row at 2. simpl.
      rewrite andb_false_r. apply app_nil_r.
Qed.

Lemma orderly_leave d pid uid p a :
  orderly d ->
  find (fun q => (id q =? pid)%nat) (partyEvent d) = Some p ->
  hostId p <> uid ->
  find (fun x => (att_partyId x =? pid)%nat && (att_userId x =? uid)%string)
       (partyAttendee d) = Some a ->
  orderly (db_leave d pid (att_id a)).
Proof.
  intros ([Fp Fa Fr Fnd] & [Kid Kpair] & Hh) Hp Hne Ha.
  apply find_In in Hp as [Hpin Hpid]. apply Nat.eqb_eq in Hpid.
  apply find_In in Ha as [Hain Hak]. apply andb_true_iff in Hak as [Hk1 Hk2].
  apply Nat.eqb_eq in Hk1. apply String.eqb_eq in Hk2.
  split; [split|split; [split|]]; simpl.
  - rewrite Forall_map. eapply Forall_impl; [|exact Fp]. simpl.
    intros q Hq. destruct (id q =? pid)%nat; simpl; lia.
  - apply Forall_forall. intros x Hx. apply filter_In in Hx as [Hx _].
    rewrite Forall_forall in Fa. apply Fa. exact Hx.
  - exact Fr.
  - apply NoDup_map_filter. exact Fnd.
  - rewrite map_map. erewrite map_ext; [exact Kid|].
    intros q. destruct (id q =? pid)%nat; reflexivity.
  - apply NoDup_map_filter. exact Kpair.
  - apply host_listed_patch with (atts := partyAttendee d); [| |exact Hh].
    + intros q. destruct (id q =? pid)%nat; split; reflexivity.
    + intros q Hq. apply filter_filter_same. intros x Hx Hhost.
      apply negb_true_iff, Nat.eqb_neq. intros Hid.
      assert (x = a) by (eapply (NoDup_map_inj att_id); eassumption). subst x.
      unfold host_listed in Hh. rewrite Forall_forall in Hh.
      destruct (Hh q Hq) as (hrow & Hrows & Hu).
      assert (Hin : In a (filter (is_host_row (id q)) (partyAttendee d))).
      { apply filter_In. split; assumption. }
      rewrite Hrows in Hin. destruct Hin as [<-|[]].
      unfold is_host_row in Hhost. apply andb_true_iff in Hhost as [Hq1 _].
      apply Nat.eqb_eq in Hq1.
      assert (q = p).
      { eapply (NoDup_map_inj id); try eassumption. congruence. }
      subst q. congruence.
Qed.

Lemma orderly_patch d d' pid data :
  partyAttendee d' = partyAttendee d -> chatRoom d' = chatRoom d ->
  nextId d' = nextId d ->
  (partyEvent d' = partyEvent d \/
   partyEvent d'
   = map (fun q => if (id q =? pid)%nat then apply_update data q else q) (partyEvent d)) ->
  orderly d -> orderly d'.
Proof.
  intros Ha Hr Hn Hp ([Fp Fa Fr Fnd] & [Kid Kpair] & Hh).
  assert (Hmap : exists f, (forall q, id (f q) = id q /\ hostId (f q) = hostId q) /\
                           partyEvent d' = map f (partyEvent d)).
  { destruct Hp as [Hp|Hp].
    - exists (fun q => q). split; [auto|]. rewrite map_id. exact Hp.
    - exists (fun q => if (id q =? pid)%nat then apply_update data q else q).
      split; [|exact Hp].
      intros q. destruct (id q =? pid)%nat; split; reflexivity. }
  destruct Hmap as (f & Hf & Hpe).
  split; [split|split; [split|]].
  - rewrite Hpe, Hn, Forall_map. eapply Forall_impl; [|exact Fp]. simpl.
    intros q. destruct (Hf q) as [-> _]. auto.
  - rewrite Ha, Hn. exact Fa.
  - rewrite Hr, Hn. exact Fr.
  - rewrite Ha. exact Fnd.
  - rewrite Hpe, map_map. erewrite map_ext; [exact Kid|]. intros q. apply Hf.
  - rewrite Ha. exact Kpair.
  - unfold host_listed. rewrite Hpe, Ha.
    apply host_listed_patch with (atts := partyAttendee d); auto.
Qed.

Lemma orderly_create rand h data w resp w' :
  createParty rand h data w = (Ok resp, w') -> orderly (db w) -> orderly (db w').
Proof.
  intros H ([Fp Fa Fr Fnd] & [Kid Kpair] & Hh).
  apply createParty_effect in H as (Hp & Ha & Hr & Hn & _).
  assert (Hold : Forall (fun a => is_host_row (nextId (db w)) a = false)
                        (partyAttendee (db w))).
  { eapply Forall_impl; [|exact Fa]. simpl. intros a [_ Hlt]. unfold is_host_row.
    rewrite (proj2 (Nat.eqb_neq _ _)) by lia. reflexivity. }
  split; [split|split; [split|]].
  - rewrite Hp. apply Forall_app. split.
    + eapply Forall_impl; [|exact Fp]. simpl. intros; lia.
    + constructor; [simpl; lia|constructor].
  - rewrite Ha. apply Forall_app. split.
    + eapply Forall_impl; [|exact Fa]. simpl. intros a [? ?]; lia.
    + constructor; [simpl; lia|constructor].
  - rewrite Hr. apply Forall_app. split.
    + eapply Forall_impl; [|exact Fr]. simpl. intros; lia.
    + constructor; [simpl; lia|constructor].
  - rewrite Ha, map_app. simpl.
    apply NoDup_app; [assumption|repeat constructor; simpl; tauto|].
    intros k Hk [<-|[]]. apply in_map_iff in Hk as (a & Ea & Hina).
    rewrite Forall_forall in Fa. specialize (Fa _ Hina). lia.
  - rewrite Hp, map_app. simpl.
    apply NoDup_app; [assumption|repeat constructor; simpl; tauto|].
    intros k Hk [<-|[]]. apply in_map_iff in Hk as (q & Eq & Hq).
    rewrite Forall_forall in Fp. specialize (Fp _ Hq). lia.
  - rewrite Ha, map_app. simpl.
    apply NoDup_app; [assumption|repeat constructor; simpl; tauto|].
    intros k Hk [<-|[]]. apply in_map_iff in Hk as (a & Ea & Hina).
    injection Ea as E1 _. rewrite Forall_forall in Fa. specialize (Fa _ Hina). lia.
  - unfold host_listed in *. rewrite Hp, Ha. apply Forall_app. split.
    + rewrite Forall_forall in *. intros q Hq. destruct (Hh q Hq) as (a & Hrows & Hu).
      exists a. split; [|exact Hu]. rewrite filter_app, Hrows. simpl.
      unfold is_host_row at 1. simpl. specialize (Fp q Hq). simpl in Fp.
      rewrite (proj2 (Nat.eqb_neq (nextId (db w)) (id q))) by lia. reflexivity.
    + constructor; [|constructor].
      exists (mkPartyAttendee (S (nextId (db w))) (nextId (db w)) h host).
      split; [|reflexivity]. simpl.
      apply filter_fresh_app; [exact Hold|].
      unfold is_host_row. simpl. rewrite Nat.eqb_refl. reflexivity.
Qed.

Lemma joinParty_Ok pid uid code w w' :
  joinParty pid uid code w = (Ok tt, w') ->
  exists p,
    find (fun q => (id q =? pid)%nat) (partyEvent (db w)) = Some p /\
    access_denied p code = false /\ is_full p = false /\
    existsb (fun a => (att_partyId a =? pid)%nat && (att_userId a =? uid)%string)
            (partyAttendee (db w)) = false /\
    db w' = db_join (db w) pid uid.
Proof.
  intros H. pose proof H as Heff. apply joinParty_effect in Heff as [Hd [p Hp]].
  exists p. split; [exact Hp|]. rewrite (joinParty_unfold _ _ _ _ _ Hp) in H.
  destruct (access_denied p code); [discriminate|].
  destruct (is_full p); [discriminate|].
  destruct (find _ (partyAttendee (db w))); [discriminate|].
  apply join_tx_created in H as [He _]. auto.
Qed.

Lemma leaveParty_Ok pid uid w w' :
  leaveParty pid uid w = (Ok tt, w') ->
  exists p a,
    find (fun q => (id q =? pid)%nat) (partyEvent (db w)) = Some p /\
    hostId p <> uid /\
    find (fun x => (att_partyId x =? pid)%nat && (att_userId x =? uid)%string)
         (partyAttendee (db w)) = Some a /\
    db w' = db_leave (db w) pid (att_id a).
Proof.
  intros H. pose proof H as Heff. apply leaveParty_effect in Heff as (a & Ha & Hd).
  rewrite leaveParty_unfold in H.
  destruct (find _ (partyEvent (db w))) as [p|]; [|discriminate].
  destruct (String.eqb_spec (hostId p) uid) as [|Hne]; [discriminate|].
  exists p, a. auto.
Qed.

Lemma joinByAccessCode_Ok uid code w resp w' :
  joinByAccessCode uid code w = (Ok resp, w') ->
  exists p,
    find (fun q => strict_eq (accessCode q) (Some code)) (partyEvent (db w)) = Some p /\
    is_full p = false /\
    (db w' = db w \/
     existsb (fun a => (att_partyId a =? id p)%nat && (att_userId a =? uid)%string)
             (partyAttendee (db w)) = false /\
     db w' = db_join (db w) (id p) uid).
Proof.
  intros H.
  destruct (find (fun q => strict_eq (accessCode q) (Some code)) (partyEvent (db w)))
    as [p|] eqn:Hp.
  2:{ unfold joinByAccessCode, partyEvent_findUnique_accessCode, query, bind at 1 in H.
      simpl in H. rewrite Hp in H. discriminate. }
  exists p. split; [reflexivity|]. rewrite (joinByAccessCode_unfold _ _ _ _ Hp) in H.
  destruct (is_full p); [discriminate|]. split; [reflexivity|].
  destruct (find _ (partyAttendee (db w))).
  - left. inversion H; reflexivity.
  - destruct (transaction _ w) as [[[]|e] w1] eqn:Htx; [|discriminate].
    inversion H; subst. right. pose proof Htx as Hc.
    apply join_tx_created in Hc as [He _]. apply join_tx_effect in Htx as [Hd _]. auto.
Qed.

Lemma call_orderly c w w' :
  call c w = (Ok tt, w') -> orderly (db w) -> orderly (db w').
Proof.
  destruct c as [rand h data|pid h data|pid uid code|pid uid|uid code]; simpl; intros H Ho.
  - apply void_Ok in H as [resp H]. eapply orderly_create; eassumption.
  - apply void_Ok in H as [resp H].
    apply updateParty_effect in H as (Ha & Hr & _ & _ & Hn & Hp & _).
    eapply orderly_patch; eassumption.
  - apply joinParty_Ok in H as (p & Hp & _ & _ & He & ->).
    eapply orderly_join; eassumption.
  - apply leaveParty_Ok in H as (p & a & Hp & Hne & Ha & ->).
    eapply orderly_leave; eassumption.
  - apply void_Ok in H as [resp H].
    apply joinByAccessCode_Ok in H as (p & Hp & _ & [->|[He ->]]); [exact Ho|].
    apply find_In in Hp as [Hin _].
    destruct (find_by_id_In _ _ Hin) as [q Hq].
    eapply orderly_join; eassumption.
Qed.

Lemma run_orderly cs : forall w w',
  run cs w = Some w' -> orderly (db w) -> orderly (db w').
Proof.
  induction cs as [|c cs IH]; simpl; intros w w' H Ho.
  - inversion H; subst. exact Ho.
  - destruct (call c w) as [[[]|e] w1] eqn:Hcall; [|discriminate].
    eapply IH; [exact H|]. eapply call_orderly; eassumption.
Qed.

(** X14.  In every store reached from the empty store by successful
    creations, updates, joins, leaves and joins by code, each party has
    exactly one attendee row of role [host], and it is its host's: the
    host row is never lost and no second one appears. *)
Theorem reachable_host_row cs fs t w' p :
  run cs (mkWorld emptyDb fs t) = Some w' ->
  In p (partyEvent (db w')) ->
  exists a,
    filter (is_host_row (id p)) (partyAttendee (db w')) = [a] /\
    att_userId a = hostId p /\ att_role a = host.
Proof.
  intros H Hin. apply run_orderly in H; [|apply orderly_empty].
  destruct H as (_ & _ & Hh). unfold host_listed in Hh. rewrite Forall_forall in Hh.
  destruct (Hh p Hin) as (a & Hrows & Hu). exists a. split; [exact Hrows|].
  split; [exact Hu|].
  assert (Ha : In a (filter (is_host_row (id p)) (partyAttendee (db w')))).
  { rewrite Hrows. left. reflexivity. }
  apply filter_In in Ha as [_ Ha]. unfold is_host_row in Ha.
  apply andb_true_iff in Ha as [_ Ha]. destruct (att_role a); [reflexivity|discriminate].
Qed.

(** ** Outcomes of a join *)

(** X16.  With no fault pending, [joinParty] succeeds exactly when the
    party exists, the access gate lets the request through, the party is
    not full and the user has no row; it then adds one guest row and one to
    the head count.  Otherwise it fails with one of its four application
    errors, never with a database error, and leaves the world as it was. *)
Theorem joinParty_outcomes pid uid code w :
  faults w = [] ->
  let found := find (fun q => (id q =? pid)%nat) (partyEvent (db w)) in
  let row := find (fun x => (att_partyId x =? pid)%nat && (att_userId x =? uid)%string)
                  (partyAttendee (db w)) in
  joinParty pid uid code w =
    match found with
    | None => (Throw (AppError "Party not found" 404), w)
    | Some p =>
        if access_denied p code then (Throw (AppError "Invalid access code" 403), w)
        else if is_full p then (Throw (AppError "Party is full" 400), w)
        else match row with
             | Some _ => (Throw (AppError "Already attending this party" 400), w)
             | None => (Ok tt, mkWorld (db_join (db w) pid uid) [] (now w))
             end
    end.
Proof.
  intros Hf found row. subst found row.
  destruct (find (fun q => (id q =? pid)%nat) (partyEvent (db w))) as [p|] eqn:Hp.
  - rewrite (joinParty_unfold _ _ _ _ _ Hp).
    destruct (access_denied p code); [reflexivity|].
    destruct (is_full p); [reflexivity|].
    destruct (find _ (partyAttendee (db w))) eqn:Ha; [reflexivity|].
    destruct w as [d fs t]. simpl in *. subst fs.
    apply (join_tx_no_fault _ _ _ _ p); [apply find_none_existsb; exact Ha|exact Hp].
  - unfold joinParty, partyEvent_findUnique, query, bind at 1. simpl. rewrite Hp.
    reflexivity.
Qed.

(** ** Capacity *)

(** X17.  In a store whose party identifiers are distinct and where no
    party holds more than its capacity, [joinParty] and [joinByAccessCode]
    keep it so, whatever their outcome: a join never takes a head count
    above [maxAttendees]. *)
Theorem joins_within_capacity w :
  NoDup (map id (partyEvent (db w))) ->
  within_capacity (db w) ->
  (forall pid uid code r w',
     joinParty pid uid code w = (r, w') -> within_capacity (db w')) /\
  (forall uid code r w',
     joinByAccessCode uid code w = (r, w') -> within_capacity (db w')).
Proof.
  intros Hnd Hcap.
  assert (Hjoin : forall p uid,
    In p (partyEvent (db w)) -> is_full p = false ->
    within_capacity (db_join (db w) (id p) uid)).
  { intros p uid Hin Hfull. unfold within_capacity in *. simpl.
    rewrite Forall_map. rewrite Forall_forall in *. intros q Hq.
    destruct (Nat.eqb_spec (id q) (id p)) as [E|E]; [|apply Hcap; exact Hq].
    assert (q = p) by (eapply (NoDup_map_inj id); eassumption). subst q.
    simpl. intros m Hm Hpos. unfold is_full in Hfull. rewrite Hm in Hfull.
    unfold truthy_number in Hfull.
    rewrite (proj2 (Z.eqb_neq m 0)) in Hfull by lia. simpl in Hfull.
    apply Z.leb_gt in Hfull. lia. }
  split.
  - intros pid uid code r w' H. destruct r as [[]|e].
    + apply joinParty_Ok in H as (p & Hp & _ & Hfull & _ & ->).
      apply find_In in Hp as [Hin Hid]. apply Nat.eqb_eq in Hid. subst pid.
      apply Hjoin; assumption.
    + apply joinParty_effect in H. rewrite H. exact Hcap.
  - intros uid code r w' H. destruct r as [resp|e].
    + apply joinByAccessCode_Ok in H as (p & Hp & Hfull & [->|[_ ->]]); [exact Hcap|].
      apply find_In in Hp as [Hin _]. apply Hjoin; assumption.
    + pose proof H as Heff.
      apply joinByAccessCode_effect in Heff as [->|(p & Hin & Hd)]; [exact Hcap|].
      exfalso.
      destruct (find (fun q => strict_eq (accessCode q) (Some code)) (partyEvent (db w)))
        as [p0|] eqn:Hp0.
      * rewrite (joinByAccessCode_unfold _ _ _ _ Hp0) in H.
        destruct (is_full p0); [inversion H; subst; clear H|].
        -- apply (f_equal nextId) in Hd. simpl in Hd. lia.
        -- destruct (find _ (partyAttendee (db w))); [discriminate|].
           destruct (transaction _ w) as [[[]|e0] w1] eqn:Htx; [discriminate|].
           inversion H; subst. apply join_tx_effect in Htx.
           rewrite Htx in Hd. apply (f_equal nextId) in Hd. simpl in Hd. lia.
      * unfold joinByAccessCode, partyEvent_findUnique_accessCode, query, bind at 1 in H.
        simpl in H. rewrite Hp0 in H. inversion H; subst.
        apply (f_equal nextId) in Hd. simpl in Hd. lia.
Qed.

(** ** Deleting a party *)

(** X19.  [deleteParty] by the host, with no fault pending, succeeds; the
    party and, by the cascade of the schema, its attendee rows are gone and
    everything else of the party and attendee tables is as before; a store
    whose head counts match its rosters stays so. *)
Theorem deleteParty_by_host pid w p :
  faults w = [] ->
  find (fun q => (id q =? pid)%nat) (partyEvent (db w)) = Some p ->
  exists w',
    deleteParty pid (hostId p) w = (Ok tt, w') /\
    partyEvent (db w') = filter (fun q => negb (id q =? pid)%nat) (partyEvent (db w)) /\
    partyAttendee (db w')
    = filter (fun a => negb (att_partyId a =? pid)%nat) (partyAttendee (db w)) /\
    find (fun q => (id q =? pid)%nat) (partyEvent (db w')) = None /\
    rows_of (db w') pid = 0%nat /\
    (consistent (db w) -> consistent (db w')).
Proof.
  intros Hf Hp. destruct w as [d fs t]. simpl in *. subst fs.
  rewrite deleteParty_unfold. simpl. rewrite Hp, String.eqb_refl. simpl.
  unfold partyEvent_delete. rewrite statement_no_fault by reflexivity. simpl.
  assert (He : existsb (fun q => (id q =? pid)%nat) (partyEvent d) = true).
  { apply existsb_exists. exists p. exact (find_In _ _ _ Hp). }
  rewrite He. eexists. split; [reflexivity|]. simpl.
  split; [reflexivity|]. split; [reflexivity|].
  assert (Hgone : forall l : list PartyAttendee,
    count_party pid (filter (fun a => negb (att_partyId a =? pid)%nat) l) = 0%nat).
  { intros l. unfold count_party. induction l as [|a l IH]; simpl; [reflexivity|].
    destruct (att_partyId a =? pid)%nat eqn:E; simpl; [exact IH|].
    rewrite E. exact IH. }
  split; [|split].
  - destruct (find _ (filter _ (partyEvent d))) as [q|] eqn:Hq; [|reflexivity].
    apply find_In in Hq as [Hin Hid]. apply filter_In in Hin as [_ Hin].
    rewrite Hid in Hin. discriminate.
  - unfold rows_of. simpl. apply Hgone.
  - intros [[Fp Fa Fr Fnd] Hc]. split; [split|]; simpl.
    + apply Forall_forall. intros q Hq. apply filter_In in Hq as [Hq _].
      rewrite Forall_forall in Fp. apply Fp. exact Hq.
    + apply Forall_forall. intros a Ha. apply filter_In in Ha as [Ha _].
      rewrite Forall_forall in Fa. apply Fa. exact Ha.
    + exact Fr.
    + apply NoDup_map_filter. exact Fnd.
    + unfold counted, rows_of in *. simpl. apply Forall_forall. intros q Hq.
      apply filter_In in Hq as [Hq Hne]. rewrite Forall_forall in Hc.
      rewrite (Hc q Hq). f_equal. f_equal.
      apply negb_true_iff, Nat.eqb_neq in Hne.
      unfold count_party. f_equal. clear - Hne.
      induction (partyAttendee d) as [|a l IH]; simpl; [reflexivity|].
      destruct (Nat.eqb_spec (att_partyId a) pid) as [E|E]; simpl.
      * rewrite E. rewrite (proj2 (Nat.eqb_neq pid (id q))) by congruence. exact IH.
      * destruct (att_partyId a =? id q)%nat; rewrite IH; reflexivity.
Qed.

(** * Properties of the user service *)

Lemma user_update_usernames uid n (f : User -> User) users :
  (forall u, user_id (f u) = user_id u /\ user_username (f u) = n) ->
  NoDup (map user_id users) -> NoDup (map user_username users) ->
  (forall x, In x users -> user_username x = n -> user_id x = uid) ->
  NoDup (map user_username
           (map (fun x => if (user_id x =? uid)%string then f x else x) users)) /\
  map user_id (map (fun x => if (user_id x =? uid)%string then f x else x) users)
  = map user_id users.
Proof.
  intros Hf Hid Hname Hown. split.
  2:{ rewrite map_map. apply map_ext. intros x.
      destruct (user_id x =? uid)%string; [apply Hf|reflexivity]. }
  induction users as [|x l IH]; simpl; [constructor|].
  inversion Hid as [|? ? Hx Hl]; subst. inversion Hname as [|? ? Hnx Hnl]; subst.
  assert (IH' := IH Hl Hnl (fun y Hy => Hown y (or_intror Hy))).
  constructor; [|exact IH'].
  intros Hin. apply in_map_iff in Hin as (y' & Ey & Hy').
  apply in_map_iff in Hy' as (y & <- & Hy).
  destruct (String.eqb_spec (user_id x) uid) as [Ex|Ex];
    destruct (String.eqb_spec (user_id y) uid) as [Ey'|Ey'].
  - apply Hx. rewrite Ex, <- Ey'. apply in_map. exact Hy.
  - destruct (Hf x) as [_ Hfx]. rewrite Hfx in Ey.
    apply Ey'. apply (Hown y (or_intror Hy) Ey).
  - destruct (Hf y) as [_ Hfy]. rewrite Hfy in Ey.
    apply Ex. apply (Hown x (or_introl eq_refl)). symmetry. exact Ey.
  - apply Hnx. rewrite <- Ey. apply in_map. exact Hy.
Qed.

(** X20.  [completeProfile] keeps user names unique.  On a table whose user
    identifiers and user names are pairwise distinct: a name held by
    another user is refused with 409 and the table is left as it was; any
    other outcome leaves identifiers and names pairwise distinct; and on
    success the caller's row carries the new name. *)
Theorem completeProfile_unique userId data users r users' :
  NoDup (map user_id users) -> NoDup (map user_username users) ->
  completeProfile userId data users = (r, users') ->
  NoDup (map user_id users') /\ NoDup (map user_username users') /\
  (forall e, user_findUnique_username (cp_username data) users = Some e ->
             user_id e <> userId ->
             r = Throw (AppError "Username already taken" 409) /\ users' = users) /\
  (forall u, r = Ok u ->
     user_id u = userId /\ user_username u = cp_username data /\
     user_findUnique_id userId users' = Some u).
Proof.
  intros Hid Hname H. unfold completeProfile in H.
  destruct (user_findUnique_username (cp_username data) users) as [e|] eqn:He.
  - destruct (String.eqb_spec (user_id e) userId) as [Ee|Ee]; simpl in H.
    + unfold user_update in H.
      destruct (user_findUnique_id userId users) as [u|] eqn:Hu.
      * inversion H; subst r users'; clear H.
        apply find_In in He as [Hein Hen]. apply String.eqb_eq in Hen.
        destruct (user_update_usernames userId (cp_username data)
                    (complete_patch data) users) as [N1 N2]; auto.
        { intros x Hx Hxn.
          assert (x = e).
          { eapply (NoDup_map_inj user_username); try eassumption. congruence. }
          subst x. exact Ee. }
        split; [rewrite N2; exact Hid|]. split; [exact N1|].
        split; [intros e' He' Hne'; exfalso; congruence|].
        intros u0 Hu0. injection Hu0 as <-. simpl.
        pose proof (find_In _ _ _ Hu) as [_ Hui]. apply String.eqb_eq in Hui.
        split; [exact Hui|]. split; [reflexivity|].
        unfold user_findUnique_id.
        apply (find_map_hit (fun x => (user_id x =? userId)%string) (complete_patch data));
          [reflexivity|exact Hu].
      * inversion H; subst. split; [exact Hid|]. split; [exact Hname|].
        split; [intros e' He' Hne'; exfalso; congruence|discriminate].
    + inversion H; subst. split; [exact Hid|]. split; [exact Hname|].
      split; [intros; split; reflexivity|discriminate].
  - simpl in H. unfold user_update in H.
    destruct (user_findUnique_id userId users) as [u|] eqn:Hu.
    + inversion H; subst r users'; clear H.
      destruct (user_update_usernames userId (cp_username data)
                  (complete_patch data) users) as [N1 N2]; auto.
      { intros x Hx Hxn. exfalso. eapply find_none in He; [|exact Hx].
        simpl in He. rewrite Hxn, String.eqb_refl in He. discriminate. }
      split; [rewrite N2; exact Hid|]. split; [exact N1|].
      split; [discriminate|].
      intros u0 Hu0. injection Hu0 as <-. simpl.
      pose proof (find_In _ _ _ Hu) as [_ Hui]. apply String.eqb_eq in Hui.
      split; [exact Hui|]. split; [reflexivity|].
      unfold user_findUnique_id.
      apply (find_map_hit (fun x => (user_id x =? userId)%string) (complete_patch data));
        [reflexivity|exact Hu].
    + inversion H; subst. split; [exact Hid|]. split; [exact Hname|].
      split; discriminate.
Qed.

Lemma suggest_spec baseUsername rand users : forall n i,
  suggest baseUsername rand users i n = "" \/
  (user_findUnique_username (suggest baseUsername rand users i n) users = None /\
   exists j, (i <= j < i + n)%nat /\
             suggest baseUsername rand users i n = baseUsername ++ decimal (rand j)).
Proof.
  induction n as [|n IH]; intros i; simpl; [left; reflexivity|].
  destruct (user_findUnique_username (baseUsername ++ decimal (rand i)) users) eqn:Hc.
  - destruct (IH (S i)) as [H|(H1 & j & Hj & H2)]; [left; exact H|].
    right. split; [exact H1|]. exists j. split; [lia|exact H2].
  - right. split; [exact Hc|]. exists i. split; [lia|reflexivity].
Qed.

Lemma strip_trailing_digits_split s :
  exists d, s = strip_trailing_digits s ++ d /\
            forallb is_digit (list_ascii_of_string d) = true.
Proof.
  induction s as [|c s (d & Hs & Hd)]; [exists ""; split; reflexivity|].
  simpl. destruct (strip_trailing_digits s) as [|a r] eqn:E.
  - simpl in Hs. subst d. destruct (is_digit c) eqn:Hc.
    + exists (String c s). split; [reflexivity|]. simpl. rewrite Hc. exact Hd.
    + exists s. split; [reflexivity|exact Hd].
  - exists d. split; [|exact Hd]. simpl. f_equal. exact Hs.
Qed.

Lemma strip_trailing_digits_idem s :
  strip_trailing_digits (strip_trailing_digits s) = strip_trailing_digits s.
Proof.
  induction s as [|c s IH]; [reflexivity|].
  simpl. destruct (strip_trailing_digits s) as [|a r] eqn:E.
  - destruct (is_digit c) eqn:Hc; [reflexivity|]. simpl. rewrite Hc. reflexivity.
  - change (strip_trailing_digits (String c (String a r)) = String c (String a r)).
    remember (String a r) as t. simpl. rewrite IH. subst t. reflexivity.
Qed.

Lemma checkUsernameAvailability_cases username rand users :
  (user_findUnique_username username users = None ->
   checkUsernameAvailability username rand users = mkAvailability true None) /\
  (forall e, user_findUnique_username username users = Some e ->
     available (checkUsernameAvailability username rand users) = false /\
     forall s, suggestion (checkUsernameAvailability username rand users) = Some s ->
       user_findUnique_username s users = None /\
       s <> username /\
       exists j, (1 <= j <= 10)%nat /\
                 s = strip_trailing_digits username ++ decimal (rand j)).
Proof.
  unfold checkUsernameAvailability.
  split; [intros ->; reflexivity|].
  intros e He. rewrite He.
  pose proof (suggest_spec (strip_trailing_digits username) rand users 10 1) as Hspec.
  set (s0 := suggest (strip_trailing_digits username) rand users 1 10) in *.
  cbv zeta. cbn [available suggestion]. split; [reflexivity|].
  intros s Hs. destruct Hspec as [H|(H1 & j & Hj & H2)].
  - rewrite H in Hs. discriminate.
  - destruct (truthy_string s0); [|discriminate]. injection Hs as <-.
    split; [exact H1|]. split; [intros E; rewrite E in H1; congruence|].
    exists j. split; [lia|exact H2].
Qed.

(** X21.  [checkUsernameAvailability].  A name that no user has is
    available, without suggestion.  A taken name is not; a suggestion, when
    there is one, is a name that no user has, made of the name without its
    final digits (nothing but digits is cut, and the cut is complete)
    followed by the decimal form of one of the ten draws. *)
Theorem checkUsernameAvailability_suggestion username rand users :
  (user_findUnique_username username users = None ->
   checkUsernameAvailability username rand users = mkAvailability true None) /\
  (forall e, user_findUnique_username username users = Some e ->
     available (checkUsernameAvailability username rand users) = false /\
     forall s, suggestion (checkUsernameAvailability username rand users) = Some s ->
       user_findUnique_username s users = None /\
       s <> username /\
       exists j, (1 <= j <= 10)%nat /\
                 s = strip_trailing_digits username ++ decimal (rand j)) /\
  (exists d, username = strip_trailing_digits username ++ d /\
             forallb is_digit (list_ascii_of_string d) = true) /\
  strip_trailing_digits (strip_trailing_digits username)
  = strip_trailing_digits username.
Proof.
  destruct (checkUsernameAvailability_cases username rand users) as [H1 H2].
  split; [exact H1|]. split; [exact H2|].
  split; [apply strip_trailing_digits_split|apply strip_trailing_digits_idem].
Qed.

(** X22.  The answer of [GET /users/check-username/:username] to a
    non-empty name has status 200, reports the name as valid exactly when
    [validateUsername] accepts it, and as available exactly when it is
    valid and no user has it; a reserved or malformed name is thus never
    reported available, whether taken or not. *)
Theorem checkUsername_report name rand users :
  name <> "" ->
  exists rep,
    checkUsername (Some name) rand users = (200, inr rep) /\
    rep_valid rep = valid (validateUsername name) /\
    (rep_available rep = true <->
     valid (validateUsername name) = true /\
     user_findUnique_username name users = None) /\
    (forall s, rep_suggestion rep = Some s ->
               user_findUnique_username s users = None).
Proof.
  intros Hne. unfold checkUsername. simpl. unfold truthy_string.
  rewrite (proj2 (String.eqb_neq name "") Hne). simpl.
  destruct (valid (validateUsername name)) eqn:Hv; simpl.
  - eexists. split; [reflexivity|]. simpl. split; [reflexivity|].
    destruct (checkUsernameAvailability_cases name rand users) as [H1 H2].
    destruct (user_findUnique_username name users) as [e|] eqn:He.
    + destruct (H2 e eq_refl) as [Ha Hs]. rewrite Ha.
      split; [split; [discriminate|intros [_ H]; discriminate]|].
      intros s Hrep. apply Hs.
      destruct (suggestion _) as [s0|]; [|discriminate].
      destruct (negb (s0 =? "")%string); [exact Hrep|discriminate].
    + rewrite (H1 eq_refl). simpl. split; [tauto|discriminate].
  - eexists. split; [reflexivity|]. simpl. split; [reflexivity|].
    split; [split; [discriminate|intros [H _]; discriminate]|discriminate].
Qed.

Lemma lower_ascii_word_char c : is_word_char (lower_ascii c) = is_word_char c.
Proof. destruct c as [[] [] [] [] [] [] [] []]; reflexivity. Qed.

Lemma toLowerCase_length s : String.length (toLowerCase s) = String.length s.
Proof. induction s as [|c s IH]; simpl; [reflexivity|]. rewrite IH. reflexivity. Qed.

Lemma toLowerCase_word_chars s : word_chars_only (toLowerCase s) = word_chars_only s.
Proof.
  unfold word_chars_only. f_equal.
  - destruct s; reflexivity.
  - induction s as [|c s IH]; simpl; [reflexivity|].
    rewrite lower_ascii_word_char, IH. reflexivity.
Qed.

Lemma is_word_char_ascii c : is_word_char c = true -> is_ascii c = true.
Proof.
  destruct c as [[] [] [] [] [] [] [] []]; vm_compute; intros H;
    first [reflexivity|discriminate H].
Qed.

(** X23.  On ASCII names [validateUsername] does not depend on the case of
    the letters: a name and its lower-case form get the same verdict and
    the same message, so a reserved word is refused however it is
    capitalised.  An accepted name, ASCII or not, has 3 to 30 characters,
    all of them ASCII letters, digits or underscores, and its lower-case
    form is not reserved. *)
Theorem validateUsername_case username :
  (ascii_only username = true ->
   validateUsername (toLowerCase username) = validateUsername username) /\
  (valid (validateUsername username) = true ->
   (3 <= String.length username <= 30)%nat /\
   forallb is_word_char (list_ascii_of_string username) = true /\
   ascii_only username = true /\
   includes reserved (toLowerCase username) = false).
Proof.
  unfold validateUsername. split.
  - intros _. rewrite toLowerCase_length, toLowerCase_word_chars.
    rewrite (toLowerCase_fixed (toLowerCase username)) by apply toLowerCase_no_upper.
    reflexivity.
  - destruct (Nat.ltb_spec (String.length username) 3);
      [simpl; intros; discriminate|].
    destruct (Nat.ltb_spec 30 (String.length username));
      [simpl; intros; discriminate|].
    destruct (word_chars_only username) eqn:Hw; [|simpl; intros; discriminate].
    cbn [negb].
    destruct (includes reserved (toLowerCase username));
      [simpl; intros; discriminate|].
    intros _. split; [lia|].
    unfold word_chars_only in Hw. apply andb_true_iff in Hw as [_ Hw].
    split; [exact Hw|]. split; [|reflexivity].
    unfold ascii_only. rewrite forallb_forall in Hw |- *.
    intros c Hc. apply is_word_char_ascii, Hw, Hc.
Qed.

(** X27.  [updateUser] and [getUserById].  An update never renames a user
    nor touches an identifier.  When it succeeds, the profile it returns is
    the one that [getUserById] then reads, and a [bio] of the request is
    written even when empty.  On an identifier that no user has, it fails
    with the error of the database client, which the error handler answers
    with 400, where [getUserById] answers 404; the table is left as it
    was. *)
Theorem updateUser_then_get userId data users r users' :
  updateUser userId data users = (r, users') ->
  map user_id users' = map user_id users /\
  map user_username users' = map user_username users /\
  match r with
  | Ok u =>
      user_id u = userId /\ getUserById userId users' = Ok u /\
      (forall b, uu_bio data = Some b -> user_bio u = Some b)
  | Throw e =>
      e = PrismaClientKnownRequestError /\ fst (errorHandler e) = 400 /\
      users' = users /\
      getUserById userId users = Throw (AppError "User not found" 404)
  end.
Proof.
  unfold updateUser, user_update, getUserById.
  set (f := profile_patch data).
  assert (Hf : forall u, user_id (f u) = user_id u /\
                         user_username (f u) = user_username u)
    by (intros u; split; reflexivity).
  destruct (user_findUnique_id userId users) as [u|] eqn:Hu;
    intros H; apply pair_equal_spec in H; destruct H as [<- <-].
  - split; [rewrite map_map; apply map_ext; intros x;
            destruct (user_id x =? userId)%string; [apply Hf|reflexivity]|].
    split; [rewrite map_map; apply map_ext; intros x;
            destruct (user_id x =? userId)%string; [apply Hf|reflexivity]|].
    pose proof (find_In _ _ _ Hu) as [_ Hui]. apply String.eqb_eq in Hui.
    split; [exact Hui|]. split.
    + unfold user_findUnique_id in *.
      rewrite (find_map_hit (fun x => (user_id x =? userId)%string) f users u
                 (fun y => eq_refl) Hu).
      reflexivity.
    + intros b Hb. unfold f, profile_patch. cbn [user_bio]. rewrite Hb. reflexivity.
  - split; [reflexivity|]. split; [reflexivity|].
    split; [reflexivity|]. split; [reflexivity|]. split; reflexivity.
Qed.

(** * Properties of the rate limiter *)

Lemma store_set_same store ip e : store_set store ip e ip = Some e.
Proof. unfold store_set. rewrite String.eqb_refl. reflexivity. Qed.

Lemma serve_in_window ip : forall times store c R,
  store ip = Some (mkRateEntry c R) ->
  Forall (fun t => t <= R) times ->
  fst (serve ip times store)
  = map (fun k => c + 1 + Z.of_nat k <=? MAX_REQUESTS) (seq 0 (List.length times)) /\
  snd (serve ip times store) ip
  = Some (mkRateEntry (c + Z.of_nat (List.length times)) R).
Proof.
  induction times as [|t rest IH]; intros store c R Hs Hw.
  - simpl. rewrite Hs, Z.add_0_r. split; reflexivity.
  - inversion Hw as [|? ? Ht Hrest]; subst.
    cbn [serve]. unfold rateLimiter. rewrite Hs. cbn [rl_resetTime rl_count].
    rewrite (proj2 (Z.ltb_ge R t)) by lia.
    destruct (IH (store_set store ip (mkRateEntry (c + 1) R)) (c + 1) R
                (store_set_same _ _ _) Hrest) as [IH1 IH2].
    destruct (MAX_REQUESTS <? c + 1) eqn:Hmax;
      destruct (serve ip rest (store_set store ip (mkRateEntry (c + 1) R)))
        as [vs st] eqn:Hserve; simpl in IH1, IH2 |- *.
    + split.
      * f_equal; [apply Z.ltb_lt in Hmax; symmetry; apply Z.leb_gt; lia|].
        rewrite IH1, <- seq_shift, map_map. apply map_ext. intros k. f_equal. lia.
      * rewrite IH2. f_equal. f_equal. lia.
    + split.
      * f_equal; [apply Z.ltb_ge in Hmax; symmetry; apply Z.leb_le; lia|].
        rewrite IH1, <- seq_shift, map_map. apply map_ext. intros k. f_equal. lia.
      * rewrite IH2. f_equal. f_equal. lia.
Qed.

(** X24.  The budget of a window.  A client without entry in the table
    sends a request at [t0] and further requests no later than the end of
    the window that the first one opens: exactly the first 100 of all these
    requests pass, the later ones are answered 429, and every request,
    passed or not, is counted. *)
Theorem rateLimiter_window_budget ip t0 times store :
  store ip = None ->
  Forall (fun t => t <= t0 + WINDOW_MS) times ->
  fst (serve ip (t0 :: times) store)
  = map (fun k => (k <? 100)%nat) (seq 0 (S (List.length times))) /\
  snd (serve ip (t0 :: times) store) ip
  = Some (mkRateEntry (1 + Z.of_nat (List.length times)) (t0 + WINDOW_MS)).
Proof.
  intros Hs Hw. cbn [serve]. unfold rateLimiter. rewrite Hs.
  destruct (serve_in_window ip times
              (store_set store ip (mkRateEntry 1 (t0 + WINDOW_MS))) 1 (t0 + WINDOW_MS)
              (store_set_same _ _ _) Hw) as [H1 H2].
  destruct (serve ip times _) as [vs st]. cbn [fst snd] in H1, H2 |- *.
  split; [|exact H2]. cbn [seq map passes]. f_equal.
  rewrite H1, <- seq_shift, map_map.
  apply map_ext. intros k. unfold MAX_REQUESTS.
  destruct (Nat.ltb_spec (S k) 100); [apply Z.leb_le|apply Z.leb_gt]; lia.
Qed.

(** X25.  A refusal tells how long to wait.  When a request arrives within
    the window of its client (and not before the window was opened) and is
    answered 429, the [Retry-After] header is the number of seconds, rounded
    up, until the window ends, between 0 and 60, and the remaining quota
    announced is 0; when it is handed on, the remaining quota announced is
    100 minus the count, the request included, and is not negative. *)
Theorem rateLimiter_headers ip now' store e v store' :
  store ip = Some e ->
  rl_resetTime e - WINDOW_MS <= now' <= rl_resetTime e ->
  rateLimiter ip now' store = (v, store') ->
  store' ip = Some (mkRateEntry (rl_count e + 1) (rl_resetTime e)) /\
  match v with
  | TooManyRequests h =>
      100 <= rl_count e /\ h_remaining h = 0 /\ h_limit h = 100 /\
      h_reset h = rl_resetTime e /\
      exists s, h_retryAfter h = Some s /\ 0 <= s <= 60 /\
                (s - 1) * 1000 < rl_resetTime e - now' <= s * 1000
  | Next (Some h) =>
      rl_count e < 100 /\ h_remaining h = 100 - (rl_count e + 1) /\
      0 <= h_remaining h /\ h_limit h = 100 /\ h_reset h = rl_resetTime e /\
      h_retryAfter h = None
  | Next None => False
  end.
Proof.
  intros Hs [Hlo Hhi] H. destruct e as [c R].
  unfold rateLimiter in H. rewrite Hs in H.
  unfold rl_count, rl_resetTime in *.
  rewrite (proj2 (Z.ltb_ge R now')) in H by lia.
  destruct (MAX_REQUESTS <? c + 1) eqn:Hmax;
    apply pair_equal_spec in H; destruct H as [<- <-];
    (split; [apply store_set_same|]);
    unfold h_remaining, h_limit, h_reset, h_retryAfter.
  - apply Z.ltb_lt in Hmax.
    pose proof (ceil_div_spec (R - now') 1000) as Hc.
    unfold MAX_REQUESTS, WINDOW_MS in *.
    split; [lia|]. split; [reflexivity|]. split; [reflexivity|].
    split; [reflexivity|]. eexists. split; [reflexivity|]. lia.
  - apply Z.ltb_ge in Hmax. unfold MAX_REQUESTS, WINDOW_MS in *.
    split; [lia|]. split; [reflexivity|]. split; [lia|].
    split; [reflexivity|]. split; reflexivity.
Qed.

(** X26.  Expiry and isolation.  A request that arrives after the window
    of its client has ended passes and opens a new window with a count of
    1, however many requests were counted before; and a request never
    changes the entry of another client. *)
Theorem rateLimiter_expiry_isolation ip now' store :
  (forall e, store ip = Some e -> rl_resetTime e < now' ->
     rateLimiter ip now' store
     = (Next None, store_set store ip (mkRateEntry 1 (now' + WINDOW_MS)))) /\
  (forall other, other <> ip ->
     snd (rateLimiter ip now' store) other = store other).
Proof.
  split.
  - intros e Hs Hlt. unfold rateLimiter. rewrite Hs.
    rewrite (proj2 (Z.ltb_lt _ _) Hlt). reflexivity.
  - intros other Hne. unfold rateLimiter.
    assert (Hset : forall e, store_set store ip e other = store other).
    { intros e. unfold store_set. rewrite (proj2 (String.eqb_neq _ _) Hne). reflexivity. }
    destruct (store ip) as [e|]; [|apply Hset].
    destruct (rl_resetTime e <? now'); [apply Hset|].
    cbn [rl_count rl_resetTime].
    destruct (MAX_REQUESTS <? rl_count e + 1); apply Hset.
Qed.

End Schema.

(** * Concrete runs *)


Lemma club_world_reached :
  run 1 1 [CreateParty rand7 "alice" club_input; JoinParty 0 "bob" (Some "AHOV29")]
      (mkWorld emptyDb [] 1000)
  = Some club_world.
Proof. vm_compute. reflexivity. Qed.

Lemma hall_world_reached :
  run 1 1 [CreateParty rand7 "alice" hall_input; JoinParty 0 "bob" (Some "AHOV29")]
      (mkWorld emptyDb [] 1000)
  = Some hall_world.
Proof. vm_compute. reflexivity. Qed.

Lemma lounge_world_reached :
  run 1 1 [CreateParty rand7 "alice" lounge_input; JoinParty 0 "bob" None]
      (mkWorld emptyDb [] 1000)
  = Some lounge_world.
Proof. vm_compute. reflexivity. Qed.

(** ** C1 *)



(** ** C2 *)



(** ** C3 *)

(** Bob, who attends the lounge, joins it again: the error carries the
    status 400, and the handler answers 400, not 409. *)
Lemma joinParty_duplicate_is_400 :
  joinParty 0 "bob" None lounge_world
  = (Throw (AppError "Already attending this party" 400), lounge_world) /\
  fst (errorHandler (AppError "Already attending this party" 400)) = 400 /\
  fst (errorHandler (AppError "Already attending this party" 400)) <> 409.
Proof. split; [vm_compute; reflexivity|]. split; [reflexivity|discriminate]. Qed.

Lemma joinParty_already_attending_witness :
  exists e,
    joinParty 0 "bob" None lounge_world = (Throw e, lounge_world) /\
    e = AppError "Already attending this party" 400 /\
    (fst (errorHandler e) = 400 \/ fst (errorHandler e) = 403).
Proof.
  exact (joinParty_already_attending 0 "bob" None lounge_world lounge
           (mkPartyAttendee 3 0 "bob" guest) eq_refl eq_refl).
Defined.

(** ** C4 *)

(** Bob, who attends the club, joins it by code while it is full: the
    call fails. *)
Lemma joinByAccessCode_attending_full_fails :
  joinByAccessCode "bob" "AHOV29" club_world
  = (Throw (AppError "Party is full" 400), club_world).
Proof. vm_compute. reflexivity. Qed.

Lemma joinByAccessCode_already_attending_witness :
  joinByAccessCode "bob" "AHOV29" hall_world
  = (Ok (formatPartyResponse (include (db hall_world) hall)), hall_world) /\
  joinByAccessCode "bob" "AHOV29" club_world
  = (Throw (AppError "Party is full" 400), club_world).
Proof.
  split.
  - exact (joinByAccessCode_already_attending "bob" "AHOV29" hall_world hall
             (mkPartyAttendee 3 0 "bob" guest) eq_refl eq_refl).
  - exact (joinByAccessCode_already_attending "bob" "AHOV29" club_world club
             (mkPartyAttendee 3 0 "bob" guest) eq_refl eq_refl).
Defined.

(** ** C5 *)

(** Carol, who does not attend the club, joins it with a wrong code while
    it is full: the error is the access gate's, not "Party is full". *)
Lemma joinParty_full_wrong_code_is_403 :
  joinParty 0 "carol" (Some "AHOV28") club_world
  = (Throw (AppError "Invalid access code" 403), club_world) /\
  AppError "Invalid access code" 403 <> AppError "Party is full" 400.
Proof. split; [vm_compute; reflexivity|discriminate]. Qed.

Lemma joinParty_full_witness :
  joinParty 0 "carol" (Some "AHOV29") club_world
  = (Throw (AppError "Party is full" 400), club_world).
Proof.
  refine (joinParty_full 0 "carol" (Some "AHOV29") club_world club 2
            eq_refl eq_refl _ _); simpl; lia.
Defined.

(** ** C6 *)

Lemma joinParty_access_gate_witness :
  (forall e, fst (joinParty 0 "carol" (Some "AHOV29") club_world) = Throw e ->
             fst (errorHandler e) <> 403) /\
  joinParty 0 "carol" (Some "AHOV28") club_world
  = (Throw (AppError "Invalid access code" 403), club_world).
Proof.
  split.
  - refine (proj1 (joinParty_access_gate 0 "carol" (Some "AHOV29") club_world club
                     eq_refl eq_refl _) _); [discriminate|].
    exists "AHOV29". split; reflexivity.
  - refine (proj2 (joinParty_access_gate 0 "carol" (Some "AHOV28") club_world club
                     eq_refl eq_refl _) _); [discriminate|].
    intros c Hc. inversion Hc; subst. discriminate.
Defined.

(** ** C7 *)

(** The tag "Rock" is attached twice to the lounge: the second attach
    takes the usage counter from 1 to 2, with the one association kept. *)
Lemma attachTags_second_increments :
  let w1 := snd (attachTags 1 0 ["Rock"] lounge_world) in
  let w2 := snd (attachTags 1 0 ["Rock"] w1) in
  map usageCount (tag (db w1)) = [1] /\
  map usageCount (tag (db w2)) = [2] /\
  partyTag (db w1) = [mkPartyTag 0 4] /\
  partyTag (db w2) = [mkPartyTag 0 4].
Proof. vm_compute. repeat split. Qed.

Lemma attachTags_twice_witness :
  exists w1 w2 t,
    attachTags 1 0 ["Rock"] lounge_world = (Ok tt, w1) /\
    attachTags 1 0 ["Rock"] w1 = (Ok tt, w2) /\
    find (fun x => (tag_slug x =? "rock")%string) (tag (db w1)) = Some t /\
    find (fun x => (tag_slug x =? "rock")%string) (tag (db w2))
    = Some (increment_usageCount t) /\
    partyTag (db w2) = partyTag (db w1) /\
    ((assoc_count (db lounge_world) 0 (tag_id t) <= 1)%nat ->
     assoc_count (db w2) 0 (tag_id t) = 1%nat).
Proof.
  exact (attachTags_twice 1 0 "Rock" lounge_world eq_refl).
Defined.

(** ** C8 *)

Lemma ended_world_reached :
  run 1 1 [CreateParty rand7 "alice" lounge_input;
           UpdateParty 0 "alice" (status_patch LIVE);
           UpdateParty 0 "alice" (status_patch ENDED)]
      (mkWorld emptyDb [] 1000)
  = Some ended_world.
Proof. vm_compute. reflexivity. Qed.

(** The host moves an ENDED party back to PLANNED. *)
Lemma updateParty_leaves_ENDED :
  let r := updateParty 0 "alice" (status_patch PLANNED) ended_world in
  map status (partyEvent (db ended_world)) = [ENDED] /\
  (exists resp, fst r = Ok resp /\ r_status resp = PLANNED) /\
  map status (partyEvent (db (snd r))) = [PLANNED].
Proof.
  vm_compute. split; [reflexivity|]. split; [|reflexivity].
  eexists. split; reflexivity.
Qed.

Lemma updateParty_status_witness :
  exists resp w' p',
    updateParty 0 "alice" (status_patch CANCELLED) ended_world = (Ok resp, w') /\
    r_status resp = CANCELLED /\
    find (fun q => (id q =? 0)%nat) (partyEvent (db w')) = Some p' /\
    status p' = r_status resp.
Proof.
  exact (updateParty_status 0 "alice" (status_patch CANCELLED) ended_world
           ended_lounge eq_refl eq_refl eq_refl).
Defined.

(** ** C10 *)

Lemma joinByAccessCode_first_join_witness :
  joinByAccessCode "carol" "AHOV29" hall_world = (Ok hall_response, hall_joined) /\
  r_attendeesCount hall_response = attendeesCount hall /\
  In (increment_attendeesCount 1 hall) (partyEvent (db hall_joined)) /\
  rows_of (db hall_joined) (id hall) = S (rows_of (db hall_world) (id hall)).
Proof.
  assert (Hrun : joinByAccessCode "carol" "AHOV29" hall_world
                 = (Ok hall_response, hall_joined))
    by (vm_compute; reflexivity).
  destruct (joinByAccessCode_first_join "carol" "AHOV29" hall_world hall
              eq_refl eq_refl) as [Hprops _].
  destruct (Hprops _ _ Hrun) as (_ & H2 & H3 & _ & H5).
  split; [exact Hrun|]. split; [exact H2|]. split; [exact H3|exact H5].
Defined.

(** * Concrete runs of the further properties *)

Lemma lounge_world_consistent : consistent 1 (db lounge_world).
Proof.
  exact (run_consistent 1 1 _ _ _ lounge_world_reached (consistent_empty 1)).
Qed.

(** ** Leaving and reading *)

Lemma leaveParty_refusals_witness :
  leaveParty 7 "bob" lounge_world
  = (Throw (AppError "Party not found" 404), lounge_world) /\
  leaveParty 0 "alice" lounge_world
  = (Throw (AppError "Host cannot leave the party" 400), lounge_world) /\
  leaveParty 0 "carol" lounge_world
  = (Throw (AppError "Not attending this party" 400), lounge_world).
Proof.
  split; [exact (proj1 (leaveParty_refusals 7 "bob" lounge_world) eq_refl)|].
  split.
  - exact (proj1 (proj2 (leaveParty_refusals 0 "alice" lounge_world) lounge eq_refl)
             eq_refl).
  - refine (proj2 (proj2 (leaveParty_refusals 0 "carol" lounge_world) lounge eq_refl)
              _ eq_refl).
    simpl. discriminate.
Defined.

Lemma join_then_leave_witness :
  exists w1 w2,
    joinParty 0 "carol" None lounge_world = (Ok tt, w1) /\
    leaveParty 0 "carol" w1 = (Ok tt, w2) /\
    partyEvent (db w2) = partyEvent (db lounge_world) /\
    partyAttendee (db w2) = partyAttendee (db lounge_world).
Proof.
  assert (Hjoin : exists w1, joinParty 0 "carol" None lounge_world = (Ok tt, w1) /\
                             faults w1 = [])
    by (vm_compute; eexists; split; reflexivity).
  destruct Hjoin as (w1 & Hjoin & Hf).
  assert (Hne : hostId lounge <> "carol") by (simpl; discriminate).
  destruct (join_then_leave 0 "carol" None lounge_world w1 lounge
              (proj1 lounge_world_consistent) eq_refl Hne Hjoin Hf)
    as (w2 & Hleave & Hp & Ha).
  exists w1, w2. split; [exact Hjoin|]. split; [exact Hleave|].
  split; [exact Hp|exact Ha].
Defined.

Lemma getPartyById_private_witness :
  getPartyById 0 (Some "alice") club_world
  = (Ok (formatPartyResponse (include (db club_world) club)), club_world) /\
  r_accessCode (formatPartyResponse (include (db club_world) club)) = Some "AHOV29" /\
  getPartyById 0 (Some "bob") club_world
  = (Ok (formatPartyResponse (include (db club_world) club)), club_world) /\
  getPartyById 0 (Some "carol") club_world
  = (Throw (AppError "Access denied to private party" 403), club_world) /\
  getPartyById 0 None club_world
  = (Throw (AppError "Access denied to private party" 403), club_world).
Proof.
  pose proof (getPartyById_private 0 club_world club eq_refl eq_refl) as H.
  cbv zeta in H. destruct H as (H1 & H2 & H3 & H4).
  split; [exact H1|]. split; [exact H2|].
  split; [refine (H3 "bob" _ _); simpl; discriminate|].
  split; [refine (H3 "carol" _ _); simpl; discriminate|exact H4].
Defined.

(** ** Updates and deletions *)

Lemma only_host_mutates_witness :
  updateParty 0 "bob" garden_patch lounge_world
  = (Throw (AppError "Only the host can update the party" 403), lounge_world) /\
  deleteParty 0 "bob" lounge_world
  = (Throw (AppError "Only the host can delete the party" 403), lounge_world).
Proof.
  refine (only_host_mutates 0 "bob" garden_patch lounge_world lounge eq_refl _).
  simpl. discriminate.
Defined.

Lemma updateParty_fixed_fields_witness :
  exists resp w',
    updateParty 0 "alice" garden_patch lounge_world = (Ok resp, w') /\
    r_title resp = "Garden lounge" /\
    map fixed_fields (partyEvent (db w')) = [(0%nat, "alice", None, 2, 1000)] /\
    partyAttendee (db w') = partyAttendee (db lounge_world).
Proof.
  assert (Hrun : exists resp w',
             updateParty 0 "alice" garden_patch lounge_world = (Ok resp, w') /\
             r_title resp = "Garden lounge")
    by (vm_compute; eexists; eexists; split; reflexivity).
  destruct Hrun as (resp & w' & Hrun & Ht).
  destruct (updateParty_fixed_fields 0 "alice" garden_patch lounge_world
              (Ok resp) w' Hrun) as [Hp Ha].
  exists resp, w'. split; [exact Hrun|]. split; [exact Ht|].
  split; [exact Hp|exact Ha].
Defined.

Lemma updateParty_private_locks_witness :
  exists resp w',
    updateParty 0 "alice" (privacy_patch true) lounge_world = (Ok resp, w') /\
    r_isPrivate resp = true /\ r_accessCode resp = None /\
    joinParty 0 "carol" None w'
    = (Throw (AppError "Invalid access code" 403), w') /\
    joinParty 0 "carol" (Some "AHOV29") w'
    = (Throw (AppError "Invalid access code" 403), w').
Proof.
  assert (Hrun : exists resp w',
             updateParty 0 "alice" (privacy_patch true) lounge_world = (Ok resp, w'))
    by (vm_compute; eexists; eexists; reflexivity).
  destruct Hrun as (resp & w' & Hrun).
  destruct (updateParty_private_locks 0 "alice" (privacy_patch true) lounge_world
              resp w' lounge eq_refl eq_refl eq_refl Hrun) as (H1 & H2 & H3).
  exists resp, w'. split; [exact Hrun|]. split; [exact H1|]. split; [exact H2|].
  split; apply H3.
Defined.

Lemma updateParty_stale_venue_witness :
  exists resp w',
    updateParty 0 "alice" garden_patch lounge_world = (Ok resp, w') /\
    r_venue resp = None /\
    find (fun x => (venue_partyId x =? 0)%nat) (venue (db w'))
    = Some (mkVenue 0 "Garden" (Some "1 Main St") None).
Proof.
  assert (Hrun : exists resp w',
             updateParty 0 "alice" garden_patch lounge_world = (Ok resp, w'))
    by (vm_compute; eexists; eexists; reflexivity).
  destruct Hrun as (resp & w' & Hrun).
  destruct (updateParty_stale_venue 0 "alice" garden_patch lounge_world resp w'
              garden eq_refl Hrun) as [H1 H2].
  exists resp, w'. split; [exact Hrun|]. split; [exact H1|exact H2].
Defined.

Lemma deleteParty_by_host_witness :
  exists w',
    deleteParty 0 "alice" lounge_world = (Ok tt, w') /\
    partyEvent (db w') = [] /\
    partyAttendee (db w') = [] /\
    consistent 1 (db w').
Proof.
  destruct (deleteParty_by_host 1 0 lounge_world lounge eq_refl eq_refl)
    as (w' & Hrun & Hp & Ha & _ & _ & Hc).
  exists w'. split; [exact Hrun|]. split; [exact Hp|]. split; [exact Ha|].
  exact (Hc lounge_world_consistent).
Defined.

(** ** Creation and tags *)

Lemma createParty_response_without_tags_witness :
  exists resp w',
    createParty 1 1 rand7 "alice" tagged_input (mkWorld emptyDb [] 1000)
    = (Ok resp, w') /\
    r_id resp = 0%nat /\ r_tags resp = [] /\
    existsb (fun pt => (pt_partyId pt =? r_id resp)%nat) (partyTag (db w')) = true.
Proof.
  assert (Hrun : exists resp w',
             createParty 1 1 rand7 "alice" tagged_input (mkWorld emptyDb [] 1000)
             = (Ok resp, w'))
    by (vm_compute; eexists; eexists; reflexivity).
  destruct Hrun as (resp & w' & Hrun).
  destruct (createParty_response_without_tags 1 1 rand7 "alice" tagged_input
              (mkWorld emptyDb [] 1000) resp w' (Forall_nil _) Hrun)
    as (H1 & H2 & H3).
  exists resp, w'. split; [exact Hrun|]. split; [exact H1|]. split; [exact H2|].
  exact (H3 "Rock" ["ROCK"; "Jazz"] eq_refl).
Defined.

Lemma slug_of_normal_witness :
  slug_of "Rock  Night" = "rock-night" /\
  ascii_only (slug_of "Rock  Night") = true /\
  free_of is_space (slug_of "Rock  Night") = true /\
  free_of is_upper (slug_of "Rock  Night") = true /\
  slug_of (slug_of "Rock  Night") = slug_of "Rock  Night" /\
  slug_of (toLowerCase "Rock  Night") = slug_of "Rock  Night".
Proof.
  split; [reflexivity|]. exact (slug_of_normal "Rock  Night" eq_refl).
Defined.

Lemma attachTags_same_slug_witness :
  exists w',
    attachTags 1 0 ["Rock"; "ROCK"] lounge_world = (Ok tt, w') /\
    tag (db w') = [mkTag 4 "Rock" "rock" 2] /\
    partyTag (db w') = [mkPartyTag 0 4].
Proof.
  exact (attachTags_same_slug 1 0 "Rock" "ROCK" lounge_world
           eq_refl eq_refl eq_refl eq_refl).
Defined.

(** ** Listings *)

Lemma listParties_upcoming_ignores_status_witness :
  listParties (with_status upcoming_filters (Some ENDED)) lounge_world
  = listParties upcoming_filters lounge_world.
Proof.
  exact (listParties_upcoming_ignores_status upcoming_filters (Some ENDED)
           lounge_world eq_refl).
Defined.

Lemma route_listParties_pages_witness :
  exists w,
    run 1 1 three_parties (mkWorld emptyDb [] 1000) = Some w /\
    route_listParties (with_page two_per_page 2) w
    = (Ok (@mkSuccessResponse (list PartyResponse) 200 (page_data two_per_page w 2)
             None (Some (mkMeta 2 2 3 2))), w) /\
    map r_startsAt (page_data two_per_page w 1) = [3000; 4000] /\
    map r_startsAt (page_data two_per_page w 2) = [5000] /\
    List.concat (map (page_data two_per_page w) [1%nat; 2%nat])
    = listed two_per_page w.
Proof.
  assert (Hrun : exists w,
             run 1 1 three_parties (mkWorld emptyDb [] 1000) = Some w /\
             map startsAt (selected two_per_page w) = [5000; 3000; 4000] /\
             map r_startsAt (page_data two_per_page w 1) = [3000; 4000] /\
             map r_startsAt (page_data two_per_page w 2) = [5000])
    by (vm_compute; eexists; repeat split; reflexivity).
  destruct Hrun as (w & Hrun & Hsel & Hp1 & Hp2).
  assert (Hlim : (0 < limit two_per_page)%nat) by (simpl; lia).
  destruct (route_listParties_pages two_per_page w Hlim)
    as (total & totalPages & Ht & Hpage & Hceil & Hle & Hties).
  assert (Et : total = 3%nat)
    by (rewrite Ht, <- (length_map startsAt), Hsel; reflexivity).
  assert (Ep : totalPages = 2%nat) by (simpl in Hceil, Hle; lia).
  clear Ht. subst total totalPages.
  assert (Hnd : NoDup (map startsAt (selected two_per_page w))).
  { rewrite Hsel. repeat constructor; simpl; intuition discriminate. }
  exists w. split; [exact Hrun|]. split; [apply Hpage; lia|].
  split; [exact Hp1|]. split; [exact Hp2|]. exact (proj2 (Hties Hnd)).
Defined.

(** ** Reachable stores, joins and capacity *)

Lemma reachable_host_row_witness :
  exists a,
    filter (is_host_row 0) (partyAttendee (db lounge_world)) = [a] /\
    att_userId a = "alice" /\ att_role a = host.
Proof.
  exact (reachable_host_row 1 1 _ [] 1000 lounge_world lounge lounge_world_reached
           (or_introl eq_refl)).
Defined.

Lemma joinParty_outcomes_witness :
  joinParty 0 "carol" None lounge_world
  = (Ok tt, mkWorld (db_join (db lounge_world) 0 "carol") [] 1000) /\
  joinParty 0 "carol" (Some "AHOV29") club_world
  = (Throw (AppError "Party is full" 400), club_world).
Proof.
  split.
  - exact (joinParty_outcomes 0 "carol" None lounge_world eq_refl).
  - exact (joinParty_outcomes 0 "carol" (Some "AHOV29") club_world eq_refl).
Defined.

Lemma joins_within_capacity_witness :
  within_capacity (db (snd (joinParty 0 "carol" (Some "AHOV29") club_created))) /\
  within_capacity (db (snd (joinByAccessCode "carol" "AHOV29" club_created))).
Proof.
  assert (Hk : NoDup (map id (partyEvent (db club_created)))).
  { simpl. constructor; [intros []|constructor]. }
  assert (Hc : within_capacity (db club_created)).
  { constructor; [|constructor].
    intros m Hm _. injection Hm as <-. simpl. lia. }
  destruct (joins_within_capacity club_created Hk Hc) as [H1 H2].
  split.
  - exact (H1 0%nat "carol" (Some "AHOV29") _ _ (surjective_pairing _)).
  - exact (H2 "carol" "AHOV29" _ _ (surjective_pairing _)).
Defined.

(** ** Users *)

Lemma completeProfile_unique_witness :
  completeProfile "u1" as_bob7 members
  = (Throw (AppError "Username already taken" 409), members) /\
  exists u users',
    completeProfile "u1" as_alice_b members = (Ok u, users') /\
    user_username u = "alice_b" /\
    NoDup (map user_username users') /\
    user_findUnique_id "u1" users' = Some u.
Proof.
  assert (Hid : NoDup (map user_id members)).
  { simpl. repeat constructor; simpl; intuition discriminate. }
  assert (Hname : NoDup (map user_username members)).
  { simpl. repeat constructor; simpl; intuition discriminate. }
  split.
  - destruct (completeProfile_unique "u1" as_bob7 members _ _ Hid Hname
                (surjective_pairing _)) as (_ & _ & H & _).
    assert (Hne : user_id bob_user <> "u1") by (simpl; discriminate).
    destruct (H bob_user eq_refl Hne) as [Hr Hu].
    rewrite (surjective_pairing (completeProfile "u1" as_bob7 members)).
    rewrite Hr, Hu. reflexivity.
  - assert (Hrun : exists u users',
               completeProfile "u1" as_alice_b members = (Ok u, users'))
      by (vm_compute; eexists; eexists; reflexivity).
    destruct Hrun as (u & users' & Hrun).
    destruct (completeProfile_unique "u1" as_alice_b members _ _ Hid Hname Hrun)
      as (_ & Hn & _ & H).
    destruct (H u eq_refl) as (_ & Hu & Hf).
    exists u, users'. split; [exact Hrun|]. split; [exact Hu|].
    split; [exact Hn|exact Hf].
Defined.

Lemma checkUsernameAvailability_suggestion_witness :
  checkUsernameAvailability "carol" draws members = mkAvailability true None /\
  available (checkUsernameAvailability "bob7" draws members) = false /\
  suggestion (checkUsernameAvailability "bob7" draws members) = Some "bob42" /\
  user_findUnique_username "bob42" members = None.
Proof.
  destruct (checkUsernameAvailability_suggestion "carol" draws members)
    as (H1 & _).
  destruct (checkUsernameAvailability_suggestion "bob7" draws members)
    as (_ & H2 & _).
  destruct (H2 bob_user eq_refl) as [Ha Hs].
  split; [exact (H1 eq_refl)|]. split; [exact Ha|].
  split; [reflexivity|]. exact (proj1 (Hs "bob42" eq_refl)).
Defined.

Lemma checkUsername_report_witness :
  checkUsername (Some "Admin") draws members
  = (200, inr (mkUsernameReport false false (Some "This username is reserved") None)) /\
  exists rep,
    checkUsername (Some "bob7") draws members = (200, inr rep) /\
    rep_valid rep = true /\ rep_available rep = false /\
    rep_suggestion rep = Some "bob42".
Proof.
  split; [reflexivity|].
  assert (Hne : "bob7" <> "") by discriminate.
  destruct (checkUsername_report "bob7" draws members Hne) as (rep & Hrun & Hv & Ha & _).
  exists rep. split; [exact Hrun|]. split; [exact Hv|].
  assert (Hrep : rep = mkUsernameReport false true None (Some "bob42")).
  { assert (Hc : checkUsername (Some "bob7") draws members
                 = (200, inr (mkUsernameReport false true None (Some "bob42"))))
      by reflexivity.
    rewrite Hc in Hrun. injection Hrun as <-. reflexivity. }
  rewrite Hrep. split; reflexivity.
Defined.

Lemma validateUsername_case_witness :
  validateUsername "admin" = validateUsername "Admin" /\
  (3 <= String.length "alice_b" <= 30)%nat /\
  forallb is_word_char (list_ascii_of_string "alice_b") = true /\
  ascii_only "alice_b" = true /\
  includes reserved (toLowerCase "alice_b") = false.
Proof.
  split.
  - exact (proj1 (validateUsername_case "Admin") eq_refl).
  - exact (proj2 (validateUsername_case "alice_b") eq_refl).
Defined.

(** ** Profiles *)

Lemma updateUser_then_get_witness :
  (exists u users',
     updateUser "u1" clear_bio members = (Ok u, users') /\
     getUserById "u1" users' = Ok u /\ user_bio u = Some "") /\
  updateUser "u9" clear_bio members = (Throw PrismaClientKnownRequestError, members) /\
  getUserById "u9" members = Throw (AppError "User not found" 404).
Proof.
  split.
  - assert (Hrun : exists u users',
               updateUser "u1" clear_bio members = (Ok u, users'))
      by (vm_compute; eexists; eexists; reflexivity).
    destruct Hrun as (u & users' & Hrun).
    destruct (updateUser_then_get "u1" clear_bio members (Ok u) users' Hrun)
      as (_ & _ & _ & Hget & Hbio).
    exists u, users'. split; [exact Hrun|]. split; [exact Hget|].
    exact (Hbio "" eq_refl).
  - assert (Hrun : updateUser "u9" clear_bio members
                   = (Throw PrismaClientKnownRequestError, members))
      by reflexivity.
    destruct (updateUser_then_get "u9" clear_bio members _ _ Hrun)
      as (_ & _ & _ & _ & _ & Hget).
    split; [exact Hrun|exact Hget].
Defined.

(** ** Clients of the rate limiter *)

Lemma rateLimiter_window_budget_witness :
  fst (serve "10.0.0.1" (0 :: repeat 59000 100) (fun _ => None))
  = map (fun k => (k <? 100)%nat) (seq 0 101) /\
  snd (serve "10.0.0.1" (0 :: repeat 59000 100) (fun _ => None)) "10.0.0.1"
  = Some (mkRateEntry 101 60000).
Proof.
  assert (Ht : Forall (fun t => t <= 0 + WINDOW_MS) (repeat 59000 100)).
  { apply Forall_forall. intros t Hin. apply repeat_spec in Hin. subst t.
    vm_compute. discriminate. }
  exact (rateLimiter_window_budget "10.0.0.1" 0 (repeat 59000 100) (fun _ => None)
           eq_refl Ht).
Defined.

Lemma rateLimiter_headers_witness :
  exists h store',
    rateLimiter "10.0.0.1" 58500 busy_store = (TooManyRequests h, store') /\
    store' "10.0.0.1" = Some (mkRateEntry 101 60000) /\
    h_remaining h = 0 /\
    exists s, h_retryAfter h = Some s /\ 0 <= s <= 60 /\
              (s - 1) * 1000 < 60000 - 58500 <= s * 1000.
Proof.
  assert (Hrun : exists h store',
             rateLimiter "10.0.0.1" 58500 busy_store = (TooManyRequests h, store'))
    by (eexists; eexists; reflexivity).
  destruct Hrun as (h & store' & Hrun).
  assert (Hw : rl_resetTime (mkRateEntry 100 60000) - WINDOW_MS <= 58500
               <= rl_resetTime (mkRateEntry 100 60000))
    by (vm_compute; split; discriminate).
  destruct (rateLimiter_headers "10.0.0.1" 58500 busy_store (mkRateEntry 100 60000)
              (TooManyRequests h) store' eq_refl Hw Hrun)
    as (Hs & _ & Hr & _ & _ & Hret).
  exists h, store'. split; [exact Hrun|]. split; [exact Hs|].
  split; [exact Hr|exact Hret].
Defined.

Lemma rateLimiter_expiry_isolation_witness :
  rateLimiter "10.0.0.1" 70000 busy_store
  = (Next None, store_set busy_store "10.0.0.1" (mkRateEntry 1 130000)) /\
  snd (rateLimiter "10.0.0.1" 70000 busy_store) "10.0.0.2" = busy_store "10.0.0.2".
Proof.
  destruct (rateLimiter_expiry_isolation "10.0.0.1" 70000 busy_store) as [H1 H2].
  split.
  - exact (H1 (mkRateEntry 100 60000) eq_refl eq_refl).
  - refine (H2 "10.0.0.2" _). discriminate.
Defined.
